(** * web-streams-polyfill: readable streams, teeing and the abstract operations

    A shallow embedding of
      - [src/lib/abstract-ops/ecmascript.ts]   (buffer operations),
      - [src/lib/abstract-ops/miscellaneous.ts] ([IsNonNegativeNumber]),
      - [src/lib/readable-stream/tee.ts]        ([ReadableStreamTee]),
      - [src/lib/readable-stream.ts]            (the [ReadableStream] class and
        its abstract operations),
    followed by the properties of these operations.

    JavaScript objects live in a store ([World]) and are named by references;
    the operations are computations in a state-and-exception monad over that
    store.  Calls that leave the embedded files (a controller's internal
    methods, the piping algorithm) are recorded in the store's [trace]. *)

From Stdlib Require Import ZArith Lia List String Bool Floats.SpecFloat.
From stdpp Require Import base option list gmap strings.

Open Scope string_scope.
Open Scope list_scope.
Local Set Warnings "-register-all".

(* ===================================================================== *)
(** * Values *)
(* ===================================================================== *)

(** Objects of the store are named by references. *)
Abbreviation promise := nat (only parsing).
Abbreviation streamRef := nat (only parsing).
Abbreviation readerRef := nat (only parsing).
Abbreviation writableRef := nat (only parsing).

Inductive ErrorName := TypeError | RangeError | AssertionError | DataCloneError.

(** The values that cross the interfaces of the embedded functions.  Numbers
    are IEEE 754 values ([spec_float]); objects are references into the
    store, except for the immutable ones (errors, read results, arrays). *)
Inductive JSValue : Type :=
| VUndefined
| VNull
| VBoolean (b : bool)
| VNumber (n : spec_float)
| VString (s : string)
| VArray (elements : list JSValue)
| VFunction (f : nat) (source : string)
| VError (name : ErrorName) (message : string)
| VReadResult (value : JSValue) (done : bool) (forAuthorCode : bool)
| VPromise (p : promise)
| VReadableStream (s : streamRef)
| VWritableStream (d : writableRef)
| VAbortSignal (aborted : bool)
| VObject (o : nat) (toStringResult : string).

(** Completion of a call that may throw. *)
Inductive Completion (A : Type) : Type :=
| Normal (a : A)
| Throw (e : JSValue).
Arguments Normal {A} a.
Arguments Throw {A} e.

Definition typeIsNumber (v : JSValue) : bool :=
  match v with VNumber _ => true | _ => false end.

Definition isUndefined (v : JSValue) : bool :=
  match v with VUndefined => true | _ => false end.

(** [Number.isNaN] (stub/number-isnan). *)
Definition NumberIsNaN (n : spec_float) : bool :=
  match n with S754_nan => true | _ => false end.

Definition isFiniteNumber (n : spec_float) : bool :=
  match n with S754_zero _ | S754_finite _ _ _ => true | _ => false end.

Definition posZero : spec_float := S754_zero false.
Definition posInfinity : spec_float := S754_infinity false.
(** The number 1 as a binary64 value: mantissa 2^52, exponent -52. *)
Definition numberOne : spec_float := S754_finite false 4503599627370496 (-52).

(** The relational operator [<] on numbers: false as soon as one side is NaN. *)
Definition numberLt (a b : spec_float) : bool := SFltb a b.

(** [Boolean(v)]. *)
Definition JS_Boolean (v : JSValue) : bool :=
  match v with
  | VUndefined | VNull => false
  | VBoolean b => b
  | VNumber n => match n with S754_zero _ | S754_nan => false | _ => true end
  | VString s => negb (String.eqb s "")
  | _ => true
  end.

(* ===================================================================== *)
(** * abstract-ops/miscellaneous.ts *)
(* ===================================================================== *)

Definition IsNonNegativeNumber (v : JSValue) : bool :=
  match v with
  | VNumber n =>
      if NumberIsNaN n then false
      else if numberLt n posZero then false
      else true
  | _ => false
  end.

(* ===================================================================== *)
(** * abstract-ops/ecmascript.ts *)
(* ===================================================================== *)

(** An [ArrayBuffer]: its data block and whether it has been detached
    (transferred away).  [byteLength] of a detached buffer is 0. *)
Record ArrayBufferLike := {
  dataBlock : list Byte.byte;
  isDetached : bool
}.

Definition byteLength (O : ArrayBufferLike) : nat :=
  if isDetached O then 0 else length (dataBlock O).

Definition newArrayBuffer (bytes : list Byte.byte) : ArrayBufferLike :=
  {| dataBlock := bytes; isDetached := false |}.

Definition detachArrayBuffer (O : ArrayBufferLike) : ArrayBufferLike :=
  {| dataBlock := []; isDetached := true |}.

(** [elements.slice()]: a copy, which for a list is the list. *)
Definition CreateArrayFromList {T} (elements : list T) : list T := elements.

Definition IsDetachedBuffer (O : ArrayBufferLike) : bool :=
  Nat.eqb (byteLength O) 0.

Definition CanTransferArrayBuffer (O : ArrayBufferLike) : bool :=
  negb (IsDetachedBuffer O).

(** [TransferArrayBuffer]: with [structuredClone] the data moves to a new
    buffer and the argument is detached (a detached argument cannot be
    transferred again); without it the buffer itself is returned.  The result
    is the pair (completion, argument afterwards). *)
Definition TransferArrayBuffer (hasStructuredClone : bool) (O : ArrayBufferLike)
  : Completion ArrayBufferLike * ArrayBufferLike :=
  if hasStructuredClone then
    if isDetached O then
      (Throw (VError DataCloneError "ArrayBuffer is detached and could not be cloned"), O)
    else (Normal (newArrayBuffer (dataBlock O)), detachArrayBuffer O)
  else (Normal O, O).

(* ===================================================================== *)
(** * The store: promises, streams, readers *)
(* ===================================================================== *)

(** A promise is a cell of the store.  Besides the three states of a promise
    settled directly, a cell can be locked in to another promise
    ([ResolvedWith q]: [resolve(q)] was called with a promise) or be derived
    from one ([ThenOf q f]: the result of [q.then(f)]). *)
Inductive PromiseCell : Type :=
| Pending
| Fulfilled (v : JSValue)
| Rejected (e : JSValue)
| ResolvedWith (q : promise)
| ThenOf (q : promise) (onFulfilled : JSValue -> JSValue).

Inductive PromiseState : Type :=
| SPending
| SFulfilled (v : JSValue)
| SRejected (e : JSValue).

(** The state a promise has reached, following at most [fuel] links. *)
Fixpoint promiseStateAux (fuel : nat) (h : list PromiseCell) (p : promise) : PromiseState :=
  match fuel with
  | O => SPending
  | S fuel' =>
      match h !! p with
      | None | Some Pending => SPending
      | Some (Fulfilled v) => SFulfilled v
      | Some (Rejected e) => SRejected e
      | Some (ResolvedWith q) => promiseStateAux fuel' h q
      | Some (ThenOf q f) =>
          match promiseStateAux fuel' h q with
          | SFulfilled v => SFulfilled (f v)
          | SRejected e => SRejected e
          | SPending => SPending
          end
      end
  end.

Inductive ReadableStreamState := readable | closed | errored.

Definition ReadableStreamState_eqb (a b : ReadableStreamState) : bool :=
  match a, b with
  | readable, readable | closed, closed | errored, errored => true
  | _, _ => false
  end.

(** A read request is the pair [{_resolve, _reject}] of one promise. *)
Record ReadRequest := { readRequestPromise : promise }.
Record ReadIntoRequest := { readIntoRequestPromise : promise }.

Inductive ReadableStreamReader : Type :=
| ReadableStreamDefaultReader (_ownerReadableStream : streamRef) (_closedPromise : promise)
    (_readRequests : list ReadRequest) (_forAuthorCode : bool)
| ReadableStreamBYOBReader (_ownerReadableStream : streamRef) (_closedPromise : promise)
    (_readIntoRequests : list ReadIntoRequest).

Definition ownerOf (reader : ReadableStreamReader) : streamRef :=
  match reader with
  | ReadableStreamDefaultReader o _ _ _ | ReadableStreamBYOBReader o _ _ => o
  end.

Definition closedPromiseOf (reader : ReadableStreamReader) : promise :=
  match reader with
  | ReadableStreamDefaultReader _ c _ _ | ReadableStreamBYOBReader _ c _ => c
  end.

(** The requests pending on a reader, as the promises they settle. *)
Definition pendingRequestsOf (reader : ReadableStreamReader) : list promise :=
  match reader with
  | ReadableStreamDefaultReader _ _ reqs _ => map readRequestPromise reqs
  | ReadableStreamBYOBReader _ _ reqs => map readIntoRequestPromise reqs
  end.

(** The [ReadableStream] object.  Its controller is bound to it one to one at
    construction, so the controller is named by the stream's reference. *)
Record ReadableStream := {
  _state : ReadableStreamState;
  _reader : option readerRef;
  _storedError : JSValue;
  _disturbed : bool
}.

Definition set_state (v : ReadableStreamState) (st : ReadableStream) : ReadableStream :=
  {| _state := v; _reader := _reader st; _storedError := _storedError st;
     _disturbed := _disturbed st |}.
Definition set_storedError (v : JSValue) (st : ReadableStream) : ReadableStream :=
  {| _state := _state st; _reader := _reader st; _storedError := v;
     _disturbed := _disturbed st |}.
Definition set_disturbed (v : bool) (st : ReadableStream) : ReadableStream :=
  {| _state := _state st; _reader := _reader st; _storedError := _storedError st;
     _disturbed := v |}.

Record WritableStream := { _writer : option nat }.

Inductive SizeAlgorithm : Type :=
| ConstantOne
| SizeFunction (f : nat).

(** What the embedded code does to the world outside it. *)
Inductive Event : Type :=
| EvResolve (p : promise) (v : JSValue)
| EvReject (p : promise) (e : JSValue)
| EvReadableStreamCancel (s : streamRef) (reason : JSValue)
| EvCancelSteps (s : streamRef) (reason : JSValue)
| EvPullSteps (s : streamRef)
| EvControllerClose (s : streamRef)
| EvControllerEnqueue (s : streamRef) (chunk : JSValue)
| EvControllerError (s : streamRef) (e : JSValue)
| EvPipeTo (source : streamRef) (dest : writableRef)
    (preventClose preventAbort preventCancel : bool) (signal : JSValue)
| EvSetPromiseIsHandled (p : promise)
| EvSetUpByteController (s : streamRef) (highWaterMark : spec_float)
| EvSetUpDefaultController (s : streamRef) (highWaterMark : spec_float)
    (sizeAlgorithm : SizeAlgorithm).

Record World := {
  promises : list PromiseCell;
  streams : gmap nat ReadableStream;
  readers : gmap nat ReadableStreamReader;
  writables : gmap nat WritableStream;
  trace : list Event
}.

Definition withPromises (h : list PromiseCell) (w : World) : World :=
  {| promises := h; streams := streams w; readers := readers w;
     writables := writables w; trace := trace w |}.
Definition withStreams (m : gmap nat ReadableStream) (w : World) : World :=
  {| promises := promises w; streams := m; readers := readers w;
     writables := writables w; trace := trace w |}.
Definition withReaders (m : gmap nat ReadableStreamReader) (w : World) : World :=
  {| promises := promises w; streams := streams w; readers := m;
     writables := writables w; trace := trace w |}.
Definition withTrace (t : list Event) (w : World) : World :=
  {| promises := promises w; streams := streams w; readers := readers w;
     writables := writables w; trace := t |}.

Definition promiseState (w : World) (p : promise) : PromiseState :=
  promiseStateAux (S (length (promises w))) (promises w) p.

(** [p] has settled as [o] in [w]. *)
Definition Settles (w : World) (p : promise) (o : PromiseState) : Prop :=
  o <> SPending /\ exists fuel, promiseStateAux fuel (promises w) p = o.

(* ===================================================================== *)
(** * The monad of the operations: state and exceptions *)
(* ===================================================================== *)

Definition M (S A : Type) : Type := S -> Completion A * S.

Definition ret {S A} (a : A) : M S A := fun s => (Normal a, s).

Definition bind {S A B} (m : M S A) (k : A -> M S B) : M S B :=
  fun s =>
    match m s with
    | (Normal a, s') => k a s'
    | (Throw e, s') => (Throw e, s')
    end.

Definition throw {S A} (e : JSValue) : M S A := fun s => (Throw e, s).

Declare Scope js_scope.
Delimit Scope js_scope with js.
Notation "x <- c ;; k" := (bind c (fun x => k))
  (at level 100, c at next level, right associativity) : js_scope.
Notation "c ;; k" := (bind c (fun _ => k))
  (at level 100, right associativity) : js_scope.
Open Scope js_scope.

Definition when {S} (b : bool) (m : M S unit) : M S unit :=
  if b then m else ret tt.

Fixpoint forEach {S A} (l : list A) (f : A -> M S unit) : M S unit :=
  match l with
  | [] => ret tt
  | x :: l' => f x ;; forEach l' f
  end.

(** [assert] of stub/assert, as in the debug build: a violated assertion is
    thrown and stops the operation.  (The release build strips the calls;
    the two builds agree wherever the assertions hold.) *)
Definition assert {S} (b : bool) : M S unit :=
  if b then ret tt else throw (VError AssertionError "Assertion failed").

Definition logEvent (ev : Event) : M World unit :=
  fun w => (Normal tt, withTrace (trace w ++ [ev]) w).

Definition getStream (s : streamRef) : M World ReadableStream :=
  fun w =>
    match streams w !! s with
    | Some st => (Normal st, w)
    | None => (Throw (VError TypeError "Cannot read properties of undefined"), w)
    end.

Definition updateStream (s : streamRef) (f : ReadableStream -> ReadableStream) : M World unit :=
  st <- getStream s ;;
  fun w => (Normal tt, withStreams (<[s := f st]> (streams w)) w).

Definition getReader (r : readerRef) : M World ReadableStreamReader :=
  fun w =>
    match readers w !! r with
    | Some rd => (Normal rd, w)
    | None => (Throw (VError TypeError "Cannot read properties of undefined"), w)
    end.

Definition setReader (r : readerRef) (rd : ReadableStreamReader) : M World unit :=
  fun w => (Normal tt, withReaders (<[r := rd]> (readers w)) w).

Definition getWritable (d : writableRef) : M World WritableStream :=
  fun w =>
    match writables w !! d with
    | Some ws => (Normal ws, w)
    | None => (Throw (VError TypeError "Cannot read properties of undefined"), w)
    end.

(** ** Promises (helpers/webidl) *)

Definition allocPromise (c : PromiseCell) : M World promise :=
  fun w => (Normal (length (promises w)), withPromises (promises w ++ [c]) w).

(** Resolving with a promise locks in to it; any other value fulfills. *)
Definition resolutionOf (v : JSValue) : PromiseCell :=
  match v with
  | VPromise q => ResolvedWith q
  | _ => Fulfilled v
  end.

(** Only a pending promise changes when its resolving functions are called. *)
Definition settleCell (p : promise) (c : PromiseCell) (h : list PromiseCell)
  : list PromiseCell :=
  match h !! p with
  | Some Pending => <[p := c]> h
  | _ => h
  end.

Definition resolvePromise (p : promise) (v : JSValue) : M World unit :=
  fun w =>
    (Normal tt,
     withTrace (trace w ++ [EvResolve p v])
       (withPromises (settleCell p (resolutionOf v) (promises w)) w)).

Definition rejectPromise (p : promise) (e : JSValue) : M World unit :=
  fun w =>
    (Normal tt,
     withTrace (trace w ++ [EvReject p e])
       (withPromises (settleCell p (Rejected e) (promises w)) w)).

(** [new Promise(...)], the resolving functions kept by the caller. *)
Definition newPromise : M World promise := allocPromise Pending.

(** Modelled from the spec: [promiseResolvedWith] and [promiseRejectedWith]
    of helpers/webidl are missing from the sources.  A future that
    "immediately fulfills" or "immediately rejects": a new promise, already
    resolved with the value or already rejected with the cause. *)
Definition promiseResolvedWith (v : JSValue) : M World promise :=
  allocPromise (resolutionOf v).

Definition promiseRejectedWith (e : JSValue) : M World promise :=
  allocPromise (Rejected e).

(** Modelled from the spec: [transformPromiseWith(promise, onFulfilled)] of
    helpers/webidl is missing from the sources.  "The stream's own result
    resolves once that algorithm settles": the result is the promise derived
    from [promise] by the fulfillment handler, a rejection passing through. *)
Definition transformPromiseWith (p : promise) (fulfillmentHandler : JSValue -> JSValue)
  : M World promise :=
  allocPromise (ThenOf p fulfillmentHandler).

(** [noop] of utils. *)
Definition noop (_ : JSValue) : JSValue := VUndefined.

(** [setPromiseIsHandledToTrue] of helpers/webidl only marks the promise:
    the call is recorded. *)
Definition setPromiseIsHandledToTrue (p : promise) : M World unit :=
  logEvent (EvSetPromiseIsHandled p).

(* ===================================================================== *)
(** * abstract-ops/ecmascript.ts and miscellaneous.ts: the data blocks *)
(* ===================================================================== *)

(** Buffers are objects as well: the operations that write to a buffer or
    make a new one run on a store of buffers.  Offsets and lengths are the
    integral numbers that the callers pass. *)
Abbreviation bufferRef := nat (only parsing).
Abbreviation BufferStore := (gmap nat ArrayBufferLike) (only parsing).

Definition getBuffer (b : bufferRef) : M BufferStore ArrayBufferLike :=
  fun h =>
    match h !! b with
    | Some B => (Normal B, h)
    | None => (Throw (VError TypeError "Cannot read properties of undefined"), h)
    end.

Definition allocBuffer (O : ArrayBufferLike) : M BufferStore bufferRef :=
  fun h => let b := fresh (dom h) in (Normal b, <[b := O]> h).

(** ** What the operations use of the language *)

(** A [Uint8Array]: the buffer it views, and the offset and the length of
    the view, fixed when the view is made. *)
Record Uint8Array := {
  ViewedArrayBuffer : bufferRef;
  ByteOffset : nat;
  ByteLength : nat
}.

(** The getters [byteOffset] and [byteLength] of a view: 0 once the buffer
    is detached. *)
Definition get_byteOffset (O : Uint8Array) : M BufferStore Z :=
  B <- getBuffer (ViewedArrayBuffer O) ;;
  ret (if isDetached B then 0%Z else Z.of_nat (ByteOffset O)).

Definition get_byteLength (O : Uint8Array) : M BufferStore Z :=
  B <- getBuffer (ViewedArrayBuffer O) ;;
  ret (if isDetached B then 0%Z else Z.of_nat (ByteLength O)).

(** [new ArrayBuffer(length)]: a new buffer of zeros. *)
Definition new_ArrayBuffer (length : Z) : M BufferStore bufferRef :=
  if (length <? 0)%Z then
    throw (VError RangeError "Invalid array buffer length")
  else allocBuffer (newArrayBuffer (replicate (Z.to_nat length) Byte.x00)).

(** [new Uint8Array(buffer)]: a view of the whole buffer. *)
Definition new_Uint8Array (buffer : bufferRef) : M BufferStore Uint8Array :=
  B <- getBuffer buffer ;;
  if isDetached B then
    throw (VError TypeError "Cannot perform Construct on a detached ArrayBuffer")
  else
    ret {| ViewedArrayBuffer := buffer; ByteOffset := 0; ByteLength := byteLength B |}.

(** [new Uint8Array(buffer, byteOffset, length)]: the offset and the length
    are checked first, then the buffer, then the bounds. *)
Definition new_Uint8Array_range (buffer : bufferRef) (byteOffset length : Z)
  : M BufferStore Uint8Array :=
  if (byteOffset <? 0)%Z then
    throw (VError RangeError "Start offset is outside the bounds of the buffer")
  else if (length <? 0)%Z then
    throw (VError RangeError "Invalid typed array length")
  else
    B <- getBuffer buffer ;;
    if isDetached B then
      throw (VError TypeError "Cannot perform Construct on a detached ArrayBuffer")
    else if (Z.of_nat (byteLength B) <? byteOffset + length)%Z then
      throw (VError RangeError "Invalid typed array length")
    else
      ret {| ViewedArrayBuffer := buffer; ByteOffset := Z.to_nat byteOffset;
             ByteLength := Z.to_nat length |}.

(** [data] with [bytes] written from [offset] on. *)
Definition overwrite (offset : nat) (bytes data : list Byte.byte) : list Byte.byte :=
  take offset data ++ bytes ++ drop (offset + length bytes) data.

(** [target.set(source, offset)]: the bytes of the source are read before
    any is written, so that two views of one buffer may overlap. *)
Definition TypedArray_set (target source : Uint8Array) (offset : Z) : M BufferStore unit :=
  if (offset <? 0)%Z then
    throw (VError RangeError "offset is out of bounds")
  else
    T <- getBuffer (ViewedArrayBuffer target) ;;
    if isDetached T then
      throw (VError TypeError
               "Cannot perform %TypedArray%.prototype.set on a detached ArrayBuffer")
    else
      B <- getBuffer (ViewedArrayBuffer source) ;;
      if isDetached B then
        throw (VError TypeError
                 "Cannot perform %TypedArray%.prototype.set on a detached ArrayBuffer")
      else if (Z.of_nat (ByteLength target) <? Z.of_nat (ByteLength source) + offset)%Z then
        throw (VError RangeError "offset is out of bounds")
      else
        let bytes := take (ByteLength source) (drop (ByteOffset source) (dataBlock B)) in
        fun h =>
          (Normal tt,
           <[ViewedArrayBuffer target :=
               {| dataBlock := overwrite (ByteOffset target + Z.to_nat offset) bytes
                                 (dataBlock T);
                  isDetached := false |}]> h).

(** [buffer.slice(begin, end)]: a negative index counts from the end, and
    both indices are clamped to the buffer. *)
Definition ArrayBuffer_slice (buffer : bufferRef) (begin end_ : Z) : M BufferStore bufferRef :=
  B <- getBuffer buffer ;;
  if isDetached B then
    throw (VError TypeError
             "Cannot perform ArrayBuffer.prototype.slice on a detached ArrayBuffer")
  else
    let len := Z.of_nat (byteLength B) in
    let first := if (begin <? 0)%Z then Z.max (len + begin) 0 else Z.min begin len in
    let final := if (end_ <? 0)%Z then Z.max (len + end_) 0 else Z.min end_ len in
    let newLen := Z.max (final - first) 0 in
    allocBuffer (newArrayBuffer (take (Z.to_nat newLen) (drop (Z.to_nat first) (dataBlock B)))).

(** ** The operations *)

Definition CopyDataBlockBytes (dest : bufferRef) (destOffset : Z) (src : bufferRef)
  (srcOffset n : Z) : M BufferStore unit :=
  target <- new_Uint8Array dest ;;
  source <- new_Uint8Array_range src srcOffset n ;;
  TypedArray_set target source destOffset.

(** [hasSlice] tells whether the engine has [ArrayBuffer.prototype.slice]. *)
Definition ArrayBufferSlice (hasSlice : bool) (buffer : bufferRef) (begin end_ : Z)
  : M BufferStore bufferRef :=
  if hasSlice then ArrayBuffer_slice buffer begin end_
  else
    let length := (end_ - begin)%Z in
    slice <- new_ArrayBuffer length ;;
    CopyDataBlockBytes slice 0 buffer begin length ;;
    ret slice.

(** [CloneAsUint8Array] of miscellaneous.ts calls [slice] on the buffer
    itself: without that method the call throws. *)
Definition CloneAsUint8Array (hasSlice : bool) (O : Uint8Array) : M BufferStore Uint8Array :=
  byteOffset <- get_byteOffset O ;;
  byteLength <- get_byteLength O ;;
  if hasSlice then
    buffer <- ArrayBuffer_slice (ViewedArrayBuffer O) byteOffset (byteOffset + byteLength) ;;
    new_Uint8Array buffer
  else throw (VError TypeError "O.buffer.slice is not a function").

(* ===================================================================== *)
(** * readable-stream.ts: abstract operations *)
(* ===================================================================== *)

(** ** What the operations call outside the embedded files *)

(** Modelled from the spec: [ReadableStreamCreateReadResult] of
    readable-stream/generic-reader is missing from the sources.  A read
    result is the pair [{ value, done }]; the third argument tells whether
    the object is made for author code. *)
Definition ReadableStreamCreateReadResult (value : JSValue) (done forAuthorCode : bool)
  : JSValue :=
  VReadResult value done forAuthorCode.

Definition ReadRequest_resolve (readRequest : ReadRequest) (v : JSValue) : M World unit :=
  resolvePromise (readRequestPromise readRequest) v.

Definition ReadRequest_reject (readRequest : ReadRequest) (e : JSValue) : M World unit :=
  rejectPromise (readRequestPromise readRequest) e.

Definition ReadIntoRequest_reject (readIntoRequest : ReadIntoRequest) (e : JSValue)
  : M World unit :=
  rejectPromise (readIntoRequestPromise readIntoRequest) e.

(** Modelled from the spec: [defaultReaderClosedPromiseResolve] and
    [defaultReaderClosedPromiseReject] of readable-stream/generic-reader are
    missing from the sources.  "closedSignal: future settled once when the
    owning stream closes (fulfilled) or errors (rejected)". *)
Definition defaultReaderClosedPromiseResolve (r : readerRef) : M World unit :=
  reader <- getReader r ;;
  resolvePromise (closedPromiseOf reader) VUndefined.

Definition defaultReaderClosedPromiseReject (r : readerRef) (reason : JSValue) : M World unit :=
  reader <- getReader r ;;
  rejectPromise (closedPromiseOf reader) reason.

Definition IsReadableStreamDefaultReader (reader : ReadableStreamReader) : bool :=
  match reader with
  | ReadableStreamDefaultReader _ _ _ _ => true
  | ReadableStreamBYOBReader _ _ _ => false
  end.

Definition IsReadableStreamBYOBReader (reader : ReadableStreamReader) : bool :=
  match reader with
  | ReadableStreamDefaultReader _ _ _ _ => false
  | ReadableStreamBYOBReader _ _ _ => true
  end.

(** The controller's internal methods [CancelSteps] and [PullSteps], and the
    operations on a default controller, belong to the controller files: the
    call is recorded, and a method that returns a promise returns a new one,
    which the controller settles later. *)
Definition CancelSteps (s : streamRef) (reason : JSValue) : M World promise :=
  logEvent (EvCancelSteps s reason) ;;
  newPromise.

Definition PullSteps (s : streamRef) : M World promise :=
  logEvent (EvPullSteps s) ;;
  newPromise.

Definition ReadableStreamDefaultControllerClose (s : streamRef) : M World unit :=
  logEvent (EvControllerClose s).

Definition ReadableStreamDefaultControllerEnqueue (s : streamRef) (chunk : JSValue)
  : M World unit :=
  logEvent (EvControllerEnqueue s chunk).

Definition ReadableStreamDefaultControllerError (s : streamRef) (e : JSValue) : M World unit :=
  logEvent (EvControllerError s e).

Definition SetUpReadableStreamDefaultController (s : streamRef) (highWaterMark : spec_float)
  (sizeAlgorithm : SizeAlgorithm) : M World unit :=
  logEvent (EvSetUpDefaultController s highWaterMark sizeAlgorithm).

(** ** The operations *)

Definition InitializeReadableStream (s : streamRef) : M World unit :=
  fun w =>
    (Normal tt,
     withStreams (<[s := {| _state := readable; _reader := None;
                            _storedError := VUndefined; _disturbed := false |}]> (streams w)) w).

(** A new object: a reference that the store does not use yet. *)
Definition newStreamObject : M World streamRef :=
  fun w => (Normal (fresh (dom (streams w))), w).

(** The start, pull and cancel algorithms are closures of the caller, handed
    over to the controller; the set-up of the controller is recorded. *)
Definition CreateReadableStream (highWaterMark : spec_float) (sizeAlgorithm : SizeAlgorithm)
  : M World streamRef :=
  assert (IsNonNegativeNumber (VNumber highWaterMark)) ;;
  s <- newStreamObject ;;
  InitializeReadableStream s ;;
  SetUpReadableStreamDefaultController s highWaterMark sizeAlgorithm ;;
  ret s.

Definition IsReadableStream (x : JSValue) : bool :=
  match x with
  | VReadableStream _ => true
  | _ => false
  end.

Definition IsReadableStreamDisturbed (s : streamRef) : M World bool :=
  stream <- getStream s ;;
  ret (_disturbed stream).

Definition IsReadableStreamLocked (s : streamRef) : M World bool :=
  stream <- getStream s ;;
  match _reader stream with
  | None => ret false
  | Some _ => ret true
  end.

Definition ReadableStreamClose (s : streamRef) : M World unit :=
  stream <- getStream s ;;
  assert (ReadableStreamState_eqb (_state stream) readable) ;;
  updateStream s (set_state closed) ;;
  match _reader stream with
  | None => ret tt
  | Some r =>
      reader <- getReader r ;;
      match reader with
      | ReadableStreamDefaultReader owner closedPromise readRequests forAuthorCode =>
          forEach readRequests (fun readRequest =>
            ReadRequest_resolve readRequest
              (ReadableStreamCreateReadResult VUndefined true forAuthorCode)) ;;
          setReader r (ReadableStreamDefaultReader owner closedPromise [] forAuthorCode)
      | ReadableStreamBYOBReader _ _ _ => ret tt
      end ;;
      defaultReaderClosedPromiseResolve r
  end.

Definition ReadableStreamError (s : streamRef) (e : JSValue) : M World unit :=
  stream <- getStream s ;;
  assert (ReadableStreamState_eqb (_state stream) readable) ;;
  updateStream s (set_state errored) ;;
  updateStream s (set_storedError e) ;;
  match _reader stream with
  | None => ret tt
  | Some r =>
      reader <- getReader r ;;
      match reader with
      | ReadableStreamDefaultReader owner closedPromise readRequests forAuthorCode =>
          forEach readRequests (fun readRequest => ReadRequest_reject readRequest e) ;;
          setReader r (ReadableStreamDefaultReader owner closedPromise [] forAuthorCode)
      | ReadableStreamBYOBReader owner closedPromise readIntoRequests =>
          forEach readIntoRequests (fun readIntoRequest =>
            ReadIntoRequest_reject readIntoRequest e) ;;
          setReader r (ReadableStreamBYOBReader owner closedPromise [])
      end ;;
      defaultReaderClosedPromiseReject r e
  end.

(** The first step records the call itself, so that the calls made by the
    teeing algorithm can be counted; the rest is the source, line by line. *)
Definition ReadableStreamCancel (s : streamRef) (reason : JSValue) : M World promise :=
  logEvent (EvReadableStreamCancel s reason) ;;
  updateStream s (set_disturbed true) ;;
  stream <- getStream s ;;
  if ReadableStreamState_eqb (_state stream) closed then
    promiseResolvedWith VUndefined
  else if ReadableStreamState_eqb (_state stream) errored then
    promiseRejectedWith (_storedError stream)
  else
    ReadableStreamClose s ;;
    sourceCancelPromise <- CancelSteps s reason ;;
    transformPromiseWith sourceCancelPromise noop.

(** Modelled from the spec: [ReadableStreamDefaultReaderRead] of
    readable-stream/default-reader is missing from the sources.  "disturbed:
    true once any read was attempted"; "Reading while closed immediately
    fulfills with an end-of-sequence marker; reading while errored
    immediately rejects with storedError"; a read of a readable stream is
    handed to the controller. *)
Definition ReadableStreamDefaultReaderRead (r : readerRef) : M World promise :=
  reader <- getReader r ;;
  let s := ownerOf reader in
  updateStream s (set_disturbed true) ;;
  stream <- getStream s ;;
  match _state stream with
  | closed =>
      promiseResolvedWith
        (ReadableStreamCreateReadResult VUndefined true
           (match reader with
            | ReadableStreamDefaultReader _ _ _ forAuthorCode => forAuthorCode
            | ReadableStreamBYOBReader _ _ _ => false
            end))
  | errored => promiseRejectedWith (_storedError stream)
  | readable => PullSteps s
  end.

(* ===================================================================== *)
(** * readable-stream/tee.ts *)
(* ===================================================================== *)

(** The variables that the closures of [ReadableStreamTee] share.
    [readReactions] holds the read promises on which [pullAlgorithm] has
    registered its fulfillment handler ([.then(result => ...)]) and whose
    handler has not run yet; [closedReaction] tells whether the handler on
    [reader._closedPromise] is still registered. *)
Record TeeState := {
  stream : streamRef;
  reader : readerRef;
  reading : bool;
  canceled1 : bool;
  canceled2 : bool;
  reason1 : JSValue;
  reason2 : JSValue;
  branch1 : streamRef;
  branch2 : streamRef;
  cancelPromise : promise;
  readReactions : list promise;
  closedReaction : bool
}.

Definition set_reading (v : bool) (t : TeeState) : TeeState :=
  {| stream := stream t; reader := reader t; reading := v;
     canceled1 := canceled1 t; canceled2 := canceled2 t;
     reason1 := reason1 t; reason2 := reason2 t;
     branch1 := branch1 t; branch2 := branch2 t; cancelPromise := cancelPromise t;
     readReactions := readReactions t; closedReaction := closedReaction t |}.
Definition set_canceled1 (v : bool) (t : TeeState) : TeeState :=
  {| stream := stream t; reader := reader t; reading := reading t;
     canceled1 := v; canceled2 := canceled2 t;
     reason1 := reason1 t; reason2 := reason2 t;
     branch1 := branch1 t; branch2 := branch2 t; cancelPromise := cancelPromise t;
     readReactions := readReactions t; closedReaction := closedReaction t |}.
Definition set_canceled2 (v : bool) (t : TeeState) : TeeState :=
  {| stream := stream t; reader := reader t; reading := reading t;
     canceled1 := canceled1 t; canceled2 := v;
     reason1 := reason1 t; reason2 := reason2 t;
     branch1 := branch1 t; branch2 := branch2 t; cancelPromise := cancelPromise t;
     readReactions := readReactions t; closedReaction := closedReaction t |}.
Definition set_reason1 (v : JSValue) (t : TeeState) : TeeState :=
  {| stream := stream t; reader := reader t; reading := reading t;
     canceled1 := canceled1 t; canceled2 := canceled2 t;
     reason1 := v; reason2 := reason2 t;
     branch1 := branch1 t; branch2 := branch2 t; cancelPromise := cancelPromise t;
     readReactions := readReactions t; closedReaction := closedReaction t |}.
Definition set_reason2 (v : JSValue) (t : TeeState) : TeeState :=
  {| stream := stream t; reader := reader t; reading := reading t;
     canceled1 := canceled1 t; canceled2 := canceled2 t;
     reason1 := reason1 t; reason2 := v;
     branch1 := branch1 t; branch2 := branch2 t; cancelPromise := cancelPromise t;
     readReactions := readReactions t; closedReaction := closedReaction t |}.
Definition set_readReactions (v : list promise) (t : TeeState) : TeeState :=
  {| stream := stream t; reader := reader t; reading := reading t;
     canceled1 := canceled1 t; canceled2 := canceled2 t;
     reason1 := reason1 t; reason2 := reason2 t;
     branch1 := branch1 t; branch2 := branch2 t; cancelPromise := cancelPromise t;
     readReactions := v; closedReaction := closedReaction t |}.
Definition set_closedReaction (v : bool) (t : TeeState) : TeeState :=
  {| stream := stream t; reader := reader t; reading := reading t;
     canceled1 := canceled1 t; canceled2 := canceled2 t;
     reason1 := reason1 t; reason2 := reason2 t;
     branch1 := branch1 t; branch2 := branch2 t; cancelPromise := cancelPromise t;
     readReactions := readReactions t; closedReaction := v |}.

(** The closures run on their shared variables and the store. *)
Definition TeeWorld : Type := TeeState * World.

Definition liftW {A} (m : M World A) : M TeeWorld A :=
  fun tw =>
    match m (snd tw) with
    | (c, w') => (c, (fst tw, w'))
    end.

Definition getTee : M TeeWorld TeeState :=
  fun tw => (Normal (fst tw), tw).

Definition updateTee (f : TeeState -> TeeState) : M TeeWorld unit :=
  fun tw => (Normal tt, (f (fst tw), snd tw)).

(** [typeIsObject] and [createArrayFromList] of helpers. *)
Definition typeIsObject (x : JSValue) : bool :=
  match x with
  | VUndefined | VNull | VBoolean _ | VNumber _ | VString _ => false
  | _ => true
  end.

Definition createArrayFromList (elements : list JSValue) : JSValue :=
  VArray (CreateArrayFromList elements).

(** The handler that [pullAlgorithm] registers on the read promise:
    [result => { reading = false; ... }]. *)
Definition readFulfilled (result : JSValue) : M TeeWorld unit :=
  updateTee (set_reading false) ;;
  assert (typeIsObject result) ;;
  match result with
  | VReadResult value done _ =>
      if done then
        t <- getTee ;;
        when (negb (canceled1 t))
          (liftW (ReadableStreamDefaultControllerClose (branch1 t))) ;;
        t <- getTee ;;
        when (negb (canceled2 t))
          (liftW (ReadableStreamDefaultControllerClose (branch2 t)))
      else
        let value1 := value in
        let value2 := value in
        t <- getTee ;;
        when (negb (canceled1 t))
          (liftW (ReadableStreamDefaultControllerEnqueue (branch1 t) value1)) ;;
        t <- getTee ;;
        when (negb (canceled2 t))
          (liftW (ReadableStreamDefaultControllerEnqueue (branch2 t) value2))
  | _ => throw (VError AssertionError "Assertion failed")
  end.

(** The handler is registered on the read promise; the rejection handler
    registered on the derived promise only rethrows assertion errors. *)
Definition pullAlgorithm : M TeeWorld promise :=
  t <- getTee ;;
  if reading t then
    liftW (promiseResolvedWith VUndefined)
  else
    updateTee (set_reading true) ;;
    readPromise <- liftW (ReadableStreamDefaultReaderRead (reader t)) ;;
    updateTee (fun t => set_readReactions (readReactions t ++ [readPromise]) t) ;;
    liftW (promiseResolvedWith VUndefined).

Definition cancel1Algorithm (reason : JSValue) : M TeeWorld promise :=
  updateTee (set_canceled1 true) ;;
  updateTee (set_reason1 reason) ;;
  t <- getTee ;;
  when (canceled2 t)
    (let compositeReason := createArrayFromList [reason1 t; reason2 t] in
     cancelResult <- liftW (ReadableStreamCancel (stream t) compositeReason) ;;
     liftW (resolvePromise (cancelPromise t) (VPromise cancelResult))) ;;
  ret (cancelPromise t).

Definition cancel2Algorithm (reason : JSValue) : M TeeWorld promise :=
  updateTee (set_canceled2 true) ;;
  updateTee (set_reason2 reason) ;;
  t <- getTee ;;
  when (canceled1 t)
    (let compositeReason := createArrayFromList [reason1 t; reason2 t] in
     cancelResult <- liftW (ReadableStreamCancel (stream t) compositeReason) ;;
     liftW (resolvePromise (cancelPromise t) (VPromise cancelResult))) ;;
  ret (cancelPromise t).

(** The handler registered on [reader._closedPromise] by [.catch]. *)
Definition closedRejected (r : JSValue) : M TeeWorld unit :=
  t <- getTee ;;
  liftW (ReadableStreamDefaultControllerError (branch1 t) r) ;;
  liftW (ReadableStreamDefaultControllerError (branch2 t) r).

(** [ReadableStreamTee(stream, cloneForBranch2)], given the reader that
    [AcquireReadableStreamDefaultReader] returns for [stream]: the state in
    which the closures start. *)
Definition ReadableStreamTee (s : streamRef) (cloneForBranch2 : bool) (r : readerRef)
  : M World TeeState :=
  cancelPromise <- newPromise ;;
  branch1 <- CreateReadableStream numberOne ConstantOne ;;
  branch2 <- CreateReadableStream numberOne ConstantOne ;;
  ret {| stream := s; reader := r; reading := false;
         canceled1 := false; canceled2 := false;
         reason1 := VUndefined; reason2 := VUndefined;
         branch1 := branch1; branch2 := branch2; cancelPromise := cancelPromise;
         readReactions := []; closedReaction := true |}.

(** ** The teeing algorithm as a machine

    What can happen to a tee once it is set up: a branch controller calls one
    of the three algorithms; another party settles a promise (not
    [cancelPromise], whose resolving function only the closures hold); the
    controller of the source closes or errors the source; the job queue runs
    a handler that the tee has registered. *)
Inductive TeeEvent : Type :=
| PullCalled
| Cancel1Called (reason : JSValue)
| Cancel2Called (reason : JSValue)
| PromiseResolved (p : promise) (v : JSValue)
| PromiseRejected (p : promise) (e : JSValue)
| SourceClosed
| SourceErrored (e : JSValue)
| ReadReactionJob (p : promise)
| ClosedReactionJob.

Definition removeReaction (p : promise) (l : list promise) : list promise :=
  List.filter (fun q => negb (Nat.eqb q p)) l.

Definition readReactionJob (p : promise) : M TeeWorld unit :=
  t <- getTee ;;
  if existsb (Nat.eqb p) (readReactions t) then
    fun tw =>
      match promiseState (snd tw) p with
      | SPending => (Normal tt, tw)
      | SFulfilled result =>
          (updateTee (fun t => set_readReactions (removeReaction p (readReactions t)) t) ;;
           readFulfilled result) tw
      | SRejected _ =>
          updateTee (fun t => set_readReactions (removeReaction p (readReactions t)) t) tw
      end
  else ret tt.

Definition closedReactionJob : M TeeWorld unit :=
  t <- getTee ;;
  if closedReaction t then
    rd <- liftW (getReader (reader t)) ;;
    fun tw =>
      match promiseState (snd tw) (closedPromiseOf rd) with
      | SPending => (Normal tt, tw)
      | SFulfilled _ => updateTee (set_closedReaction false) tw
      | SRejected r => (updateTee (set_closedReaction false) ;; closedRejected r) tw
      end
  else ret tt.

Definition asValue {S} (m : M S promise) : M S JSValue :=
  p <- m ;; ret (VPromise p).

Definition asUndefined {S} (m : M S unit) : M S JSValue :=
  m ;; ret VUndefined.

Definition teeStep (ev : TeeEvent) : M TeeWorld JSValue :=
  match ev with
  | PullCalled => asValue pullAlgorithm
  | Cancel1Called reason => asValue (cancel1Algorithm reason)
  | Cancel2Called reason => asValue (cancel2Algorithm reason)
  | PromiseResolved p v =>
      t <- getTee ;;
      asUndefined (when (negb (Nat.eqb p (cancelPromise t))) (liftW (resolvePromise p v)))
  | PromiseRejected p e =>
      t <- getTee ;;
      asUndefined (when (negb (Nat.eqb p (cancelPromise t))) (liftW (rejectPromise p e)))
  | SourceClosed =>
      t <- getTee ;; asUndefined (liftW (ReadableStreamClose (stream t)))
  | SourceErrored e =>
      t <- getTee ;; asUndefined (liftW (ReadableStreamError (stream t) e))
  | ReadReactionJob p => asUndefined (readReactionJob p)
  | ClosedReactionJob => asUndefined closedReactionJob
  end.

(** Running a sequence of events: the completion of each, and the state
    reached. *)
Fixpoint teeRun (evs : list TeeEvent) (tw : TeeWorld)
  : list (Completion JSValue) * TeeWorld :=
  match evs with
  | [] => ([], tw)
  | ev :: evs' =>
      match teeStep ev tw with
      | (c, tw') =>
          match teeRun evs' tw' with
          | (cs, tw'') => (c :: cs, tw'')
          end
      end
  end.

(** The composite reasons with which [ReadableStreamCancel] was called on
    stream [s], oldest first. *)
Definition cancelCalls (s : streamRef) (tr : list Event) : list JSValue :=
  omap (fun ev =>
          match ev with
          | EvReadableStreamCancel s' reason =>
              if Nat.eqb s' s then Some reason else None
          | _ => None
          end) tr.

(** The reasons passed to the cancel steps of the controller of [s]. *)
Definition cancelStepsCalls (s : streamRef) (tr : list Event) : list JSValue :=
  omap (fun ev =>
          match ev with
          | EvCancelSteps s' reason => if Nat.eqb s' s then Some reason else None
          | _ => None
          end) tr.

(** The reads handed to the controller of [s]. *)
Definition pullStepsCalls (s : streamRef) (tr : list Event) : nat :=
  length (List.filter (fun ev =>
                         match ev with
                         | EvPullSteps s' => Nat.eqb s' s
                         | _ => false
                         end) tr).

Definition isCancel1 (ev : TeeEvent) : bool :=
  match ev with Cancel1Called _ => true | _ => false end.

Definition isCancel2 (ev : TeeEvent) : bool :=
  match ev with Cancel2Called _ => true | _ => false end.

(* ===================================================================== *)
(** * readable-stream.ts: the [ReadableStream] class *)
(* ===================================================================== *)

(** ** What the class calls outside the embedded files *)

(** The brand check of writable-stream, like [IsReadableStream]. *)
Definition IsWritableStream (x : JSValue) : bool :=
  match x with
  | VWritableStream _ => true
  | _ => false
  end.

(** Modelled from the spec: [IsWritableStreamLocked] of writable-stream is
    missing from the sources.  "lockHolder: optional Reader|Writer": a
    writable stream is locked when it has a writer. *)
Definition IsWritableStreamLocked (d : writableRef) : M World bool :=
  dest <- getWritable d ;;
  match _writer dest with
  | None => ret false
  | Some _ => ret true
  end.

(** [isAbortSignal] of abort-signal: the value is an abort signal. *)
Definition isAbortSignal (x : JSValue) : bool :=
  match x with
  | VAbortSignal _ => true
  | _ => false
  end.

(** The piping algorithm (readable-stream/pipe) is outside the embedded
    files: the call is recorded and returns the promise of the pipe. *)
Definition ReadableStreamPipeTo (source : streamRef) (dest : writableRef)
  (preventClose preventAbort preventCancel : bool) (signal : JSValue) : M World promise :=
  logEvent (EvPipeTo source dest preventClose preventAbort preventCancel signal) ;;
  newPromise.

(** Modelled from the spec: [ValidateAndNormalizeHighWaterMark] of helpers
    is missing from the sources.  "highWaterMark: non-negative number"; a
    malformed strategy is a usage error raised at the call. *)
Definition ValidateAndNormalizeHighWaterMark {S} (highWaterMark : spec_float)
  : M S spec_float :=
  if NumberIsNaN highWaterMark || numberLt highWaterMark posZero then
    throw (VError RangeError
             "highWaterMark property of a queuing strategy must be non-negative and non-NaN")
  else ret highWaterMark.

(** Modelled from the spec: [MakeSizeAlgorithmFromSizeFunction] of helpers
    is missing from the sources.  "size defaults to constant 1 if omitted for
    ordinary streams"; a size that is not a function is a malformed
    strategy. *)
Definition MakeSizeAlgorithmFromSizeFunction {S} (size : JSValue) : M S SizeAlgorithm :=
  match size with
  | VUndefined => ret ConstantOne
  | VFunction f _ => ret (SizeFunction f)
  | _ => throw (VError TypeError "size property of a queuing strategy must be a function")
  end.

Definition SetUpReadableByteStreamControllerFromUnderlyingSource (s : streamRef)
  (highWaterMark : spec_float) : M World unit :=
  logEvent (EvSetUpByteController s highWaterMark).

Definition SetUpReadableStreamDefaultControllerFromUnderlyingSource (s : streamRef)
  (highWaterMark : spec_float) (sizeAlgorithm : SizeAlgorithm) : M World unit :=
  logEvent (EvSetUpDefaultController s highWaterMark sizeAlgorithm).

Definition streamBrandCheckException (name : string) : JSValue :=
  VError TypeError
    ("ReadableStream.prototype." ++ name ++ " can only be used on a ReadableStream")%string.

Definition ErrorName_toString (name : ErrorName) : string :=
  match name with
  | TypeError => "TypeError"
  | RangeError => "RangeError"
  | AssertionError => "AssertionError"
  | DataCloneError => "DataCloneError"
  end.

Definition liftCompletion {S A} (c : Completion A) : M S A :=
  fun s => (c, s).

(** ** Arguments of the constructor and of the pipe methods *)

Record UnderlyingSource := { type : JSValue }.

(** [highWaterMark] is a number or is omitted; [size] is any value. *)
Record QueuingStrategy := {
  strategy_size : JSValue;
  strategy_highWaterMark : option spec_float
}.

Record ReadableWritablePair := {
  pair_readable : JSValue;
  pair_writable : JSValue
}.

Record PipeOptions := {
  preventAbort : JSValue;
  preventCancel : JSValue;
  preventClose : JSValue;
  signal : JSValue
}.

(** The [options] argument: omitted ([undefined], replaced by the default
    [{}]), [null] (whose members cannot be read), or an object. *)
Inductive OptionsArgument : Type :=
| OptionsOmitted
| OptionsNull
| OptionsObject (o : PipeOptions).

Definition emptyOptions : PipeOptions :=
  {| preventAbort := VUndefined; preventCancel := VUndefined;
     preventClose := VUndefined; signal := VUndefined |}.

(** Reading the members of [options]. *)
Definition destructure (options : OptionsArgument) : Completion PipeOptions :=
  match options with
  | OptionsOmitted => Normal emptyOptions
  | OptionsNull => Throw (VError TypeError "Cannot destructure 'options' as it is null")
  | OptionsObject o => Normal o
  end.

Section StringConversion.

(** The digits that the engine prints for a number. *)
Variable NumberToString : spec_float -> string.

(** [String(v)]: the members of an array joined by commas, an object by
    its [toString]; an object without prototype cannot be converted. *)
Fixpoint JS_String (v : JSValue) : Completion string :=
  match v with
  | VUndefined => Normal "undefined"
  | VNull => Normal "null"
  | VBoolean b => Normal (if b then "true" else "false")
  | VNumber n => Normal (NumberToString n)
  | VString s => Normal s
  | VArray elements =>
      (fix join (l : list JSValue) : Completion string :=
         match l with
         | [] => Normal ""
         | x :: l' =>
             match (match x with
                    | VUndefined | VNull => Normal ""
                    | _ => JS_String x
                    end) with
             | Throw e => Throw e
             | Normal sx =>
                 match l' with
                 | [] => Normal sx
                 | _ :: _ =>
                     match join l' with
                     | Throw e => Throw e
                     | Normal rest => Normal (sx ++ "," ++ rest)%string
                     end
                 end
             end
         end) elements
  | VFunction _ source => Normal source
  | VError name message =>
      Normal (if String.eqb message "" then ErrorName_toString name
              else (ErrorName_toString name ++ ": " ++ message)%string)
  | VReadResult _ _ forAuthorCode =>
      if forAuthorCode then Normal "[object Object]"
      else Throw (VError TypeError "Cannot convert object to primitive value")
  | VPromise _ => Normal "[object Promise]"
  | VReadableStream _ => Normal "[object ReadableStream]"
  | VWritableStream _ => Normal "[object WritableStream]"
  | VAbortSignal _ => Normal "[object AbortSignal]"
  | VObject _ toStringResult => Normal toStringResult
  end.

(** [new ReadableStream(underlyingSource, strategy)], [this] being the new
    object. *)
Definition ReadableStream_constructor (this : streamRef)
  (underlyingSource : UnderlyingSource) (strategy : QueuingStrategy) : M World unit :=
  InitializeReadableStream this ;;
  let size := strategy_size strategy in
  let highWaterMark := strategy_highWaterMark strategy in
  let type := type underlyingSource in
  typeString <- liftCompletion (JS_String type) ;;
  if String.eqb typeString "bytes" then
    if negb (isUndefined size) then
      throw (VError RangeError "The strategy for a byte stream cannot have a size function")
    else
      let highWaterMark :=
        match highWaterMark with None => posZero | Some h => h end in
      highWaterMark <- ValidateAndNormalizeHighWaterMark highWaterMark ;;
      SetUpReadableByteStreamControllerFromUnderlyingSource this highWaterMark
  else if isUndefined type then
    sizeAlgorithm <- MakeSizeAlgorithmFromSizeFunction size ;;
    let highWaterMark :=
      match highWaterMark with None => numberOne | Some h => h end in
    highWaterMark <- ValidateAndNormalizeHighWaterMark highWaterMark ;;
    SetUpReadableStreamDefaultControllerFromUnderlyingSource this highWaterMark sizeAlgorithm
  else
    throw (VError TypeError "Invalid type is specified").

End StringConversion.

(** ** Methods *)

Definition locked (this : JSValue) : M World bool :=
  match this with
  | VReadableStream s => IsReadableStreamLocked s
  | _ => throw (streamBrandCheckException "locked")
  end.

Definition cancel (this : JSValue) (reason : JSValue) : M World promise :=
  match this with
  | VReadableStream s =>
      isLocked <- IsReadableStreamLocked s ;;
      if isLocked then
        promiseRejectedWith
          (VError TypeError "Cannot cancel a stream that already has a reader")
      else ReadableStreamCancel s reason
  | _ => promiseRejectedWith (streamBrandCheckException "cancel")
  end.

Definition pipeThrough (this : JSValue) (transform : ReadableWritablePair)
  (options : OptionsArgument) : M World JSValue :=
  match this with
  | VReadableStream s =>
      let readable := pair_readable transform in
      if negb (IsReadableStream readable) then
        throw (VError TypeError
                 "readable argument to pipeThrough must be a ReadableStream")
      else
        let writable := pair_writable transform in
        match writable with
        | VWritableStream d =>
            o <- liftCompletion (destructure options) ;;
            let signal := signal o in
            let preventClose := JS_Boolean (preventClose o) in
            let preventAbort := JS_Boolean (preventAbort o) in
            let preventCancel := JS_Boolean (preventCancel o) in
            if negb (isUndefined signal) && negb (isAbortSignal signal) then
              throw (VError TypeError
                "ReadableStream.prototype.pipeThrough's signal option must be an AbortSignal")
            else
              thisLocked <- IsReadableStreamLocked s ;;
              if thisLocked then
                throw (VError TypeError
                  "ReadableStream.prototype.pipeThrough cannot be used on a locked ReadableStream")
              else
                writableLocked <- IsWritableStreamLocked d ;;
                if writableLocked then
                  throw (VError TypeError
                    "ReadableStream.prototype.pipeThrough cannot be used on a locked WritableStream")
                else
                  promise <- ReadableStreamPipeTo s d preventClose preventAbort
                               preventCancel signal ;;
                  setPromiseIsHandledToTrue promise ;;
                  ret readable
        | _ =>
            throw (VError TypeError
                     "writable argument to pipeThrough must be a WritableStream")
        end
  | _ => throw (streamBrandCheckException "pipeThrough")
  end.

Definition pipeTo (this : JSValue) (dest : JSValue) (options : OptionsArgument)
  : M World promise :=
  match this with
  | VReadableStream s =>
      match dest with
      | VWritableStream d =>
          match destructure options with
          | Throw e => promiseRejectedWith e
          | Normal o =>
              let signal := signal o in
              let preventClose := JS_Boolean (preventClose o) in
              let preventAbort := JS_Boolean (preventAbort o) in
              let preventCancel := JS_Boolean (preventCancel o) in
              if negb (isUndefined signal) && negb (isAbortSignal signal) then
                promiseRejectedWith (VError TypeError
                  "ReadableStream.prototype.pipeTo's signal option must be an AbortSignal")
              else
                thisLocked <- IsReadableStreamLocked s ;;
                if thisLocked then
                  promiseRejectedWith (VError TypeError
                    "ReadableStream.prototype.pipeTo cannot be used on a locked ReadableStream")
                else
                  destLocked <- IsWritableStreamLocked d ;;
                  if destLocked then
                    promiseRejectedWith (VError TypeError
                      "ReadableStream.prototype.pipeTo cannot be used on a locked WritableStream")
                  else
                    ReadableStreamPipeTo s d preventClose preventAbort preventCancel signal
          end
      | _ =>
          promiseRejectedWith (VError TypeError
            "ReadableStream.prototype.pipeTo's first argument must be a WritableStream")
      end
  | _ => promiseRejectedWith (streamBrandCheckException "pipeTo")
  end.

(* ===================================================================== *)
(** * Vocabulary of the statements *)
(* ===================================================================== *)

Definition isPendingCell (h : list PromiseCell) (p : promise) : bool :=
  match h !! p with
  | Some Pending => true
  | _ => false
  end.

(** Calling the resolving function of each promise of [ps] in turn. *)
Definition settleAll (ps : list promise) (c : PromiseCell) (h : list PromiseCell)
  : list PromiseCell :=
  foldl (fun h p => settleCell p c h) h ps.

(** The promises of a reader are pending, and its closed promise is not the
    promise of one of its requests. *)
Definition readerUnsettled (w : World) (rd : ReadableStreamReader) : bool :=
  forallb (isPendingCell (promises w)) (pendingRequestsOf rd)
  && isPendingCell (promises w) (closedPromiseOf rd)
  && negb (existsb (Nat.eqb (closedPromiseOf rd)) (pendingRequestsOf rd)).

(** The reader that holds the lock of a stream, if the stream has one, is
    in the store. *)
Definition readerInStore (w : World) (st : ReadableStream) : bool :=
  match _reader st with
  | None => true
  | Some r => match readers w !! r with Some _ => true | None => false end
  end.

(** [m] keeps [P]: whatever [m] returns or throws, a state that satisfies
    [P] is left in a state that satisfies [P]. *)
Definition preserves {S A} (P : S -> Prop) (m : M S A) : Prop :=
  forall s, P s -> P (snd (m s)).

(** The next event does not matter to the property [Q] of traces. *)
Definition stable (Q : list Event -> Prop) (ev : Event) : Prop :=
  forall tr, Q tr -> Q (tr ++ [ev]).

Definition isCancelCall (ev : Event) : bool :=
  match ev with
  | EvReadableStreamCancel _ _ | EvCancelSteps _ _ => true
  | _ => false
  end.

(** [Q] is about the calls of [ReadableStreamCancel] and of the cancel steps
    of the controllers only. *)
Definition quiet (Q : list Event -> Prop) : Prop :=
  forall ev, isCancelCall ev = false -> stable Q ev.

Definition onTrace (Q : list Event -> Prop) (w : World) : Prop := Q (trace w).

(** Stream [s] is in the store and is disturbed. *)
Definition disturbedAt (s : streamRef) (w : World) : Prop :=
  exists st, streams w !! s = Some st /\ _disturbed st = true.

Definition isSettleEvent (ev : Event) : bool :=
  match ev with
  | EvResolve _ _ | EvReject _ _ => true
  | _ => false
  end.

(** The members of [options] can be read and [signal], if given, is an
    abort signal. *)
Definition validOptions (options : OptionsArgument) : bool :=
  match destructure options with
  | Normal o => isUndefined (signal o) || isAbortSignal (signal o)
  | Throw _ => false
  end.

Definition hasReader (st : ReadableStream) : bool :=
  match _reader st with Some _ => true | None => false end.

Definition hasWriter (ws : WritableStream) : bool :=
  match _writer ws with Some _ => true | None => false end.

(** The error of a pipe method called on a locked stream. *)
Definition lockedError (method : string) (readableLocked : bool) : JSValue :=
  VError TypeError
    ("ReadableStream.prototype." ++ method ++ " cannot be used on a locked "
     ++ (if readableLocked then "ReadableStream" else "WritableStream"))%string.

(** The printer of numbers used in the examples, none of which converts a
    number. *)
Definition sampleNumberToString (_ : spec_float) : string := "NaN".

(** The world in which the constructor reads its arguments: [this] has been
    initialized. *)
Definition initialized (this : streamRef) (w : World) : World :=
  snd (InitializeReadableStream this w).

(** At most one read of the source is outstanding, and while one is, the
    tee is [reading]. *)
Definition singleRead (t : TeeState) : Prop :=
  length (readReactions t) <= 1 /\ (readReactions t <> [] -> reading t = true).

(** The events that the handler of a read result sends to the controllers
    of the two branches. *)
Definition fanOut (t : TeeState) (toBranch : streamRef -> Event) : list Event :=
  (if canceled1 t then [] else [toBranch (branch1 t)])
  ++ (if canceled2 t then [] else [toBranch (branch2 t)]).

(** A property of a tee and its store that the reads do not touch: it does
    not depend on [reading], [readReactions] or [closedReaction], and for a
    fixed tee it is kept by every computation on the store that calls neither
    [ReadableStreamCancel] nor the cancel steps of a controller. *)
Definition teeFrame (P : TeeWorld -> Prop) : Prop :=
  (forall t w v, P (t, w) -> P (set_reading v t, w)) /\
  (forall t w v, P (t, w) -> P (set_readReactions v t, w)) /\
  (forall t w v, P (t, w) -> P (set_closedReaction v t, w)) /\
  (forall t A (m : M World A),
      (forall Q, quiet Q -> preserves (onTrace Q) m) ->
      preserves (fun w => P (t, w)) m).

(** The calls of [ReadableStreamCancel] on the source are those recorded in
    [calls], followed by one call with the pair of the two reasons once both
    branches are canceled. *)
Definition cancelInv (calls : list JSValue) (tw : TeeWorld) : Prop :=
  cancelCalls (stream (fst tw)) (trace (snd tw)) =
  calls ++ (if canceled1 (fst tw) && canceled2 (fst tw)
            then [createArrayFromList [reason1 (fst tw); reason2 (fst tw)]]
            else []).

(** The variables of the cancel algorithms. *)
Definition cancelFields (t t' : TeeState) : Prop :=
  stream t' = stream t /\ cancelPromise t' = cancelPromise t /\
  canceled1 t' = canceled1 t /\ canceled2 t' = canceled2 t /\
  reason1 t' = reason1 t /\ reason2 t' = reason2 t.

(** The tee keeps the variables of the cancel algorithms that [t0] has, and
    the calls of [ReadableStreamCancel] on its source are [calls]. *)
Definition cancelSnapshot (t0 : TeeState) (calls : list JSValue) (tw : TeeWorld) : Prop :=
  cancelFields t0 (fst tw) /\ cancelCalls (stream t0) (trace (snd tw)) = calls.

Definition cancelFree (evs : list TeeEvent) : bool :=
  forallb (fun ev => negb (isCancel1 ev) && negb (isCancel2 ev)) evs.

(** The state in which a sequence of events leaves a tee. *)
Definition teeAfter (evs : list TeeEvent) (tw : TeeWorld) : TeeWorld :=
  snd (teeRun evs tw).

(** The second (first) branch of the tee of [s] is not canceled, the calls
    of [ReadableStreamCancel] on [s] are [calls] and those of the cancel steps
    of its controller are [steps]. *)
Definition notCanceled2 (s : streamRef) (calls steps : list JSValue) (tw : TeeWorld) : Prop :=
  canceled2 (fst tw) = false /\ stream (fst tw) = s /\
  cancelCalls s (trace (snd tw)) = calls /\
  cancelStepsCalls s (trace (snd tw)) = steps.

Definition notCanceled1 (s : streamRef) (calls steps : list JSValue) (tw : TeeWorld) : Prop :=
  canceled1 (fst tw) = false /\ stream (fst tw) = s /\
  cancelCalls s (trace (snd tw)) = calls /\
  cancelStepsCalls s (trace (snd tw)) = steps.

(** ** A sample store

    Stream 7 is readable and locked by the default reader 3, which holds two
    pending read requests (promises 1 and 2) and the closed promise 0;
    stream 8 is readable and locked by the zero-copy reader 4 with one pending
    read-into request (promise 6) and the closed promise 5; stream 9 is
    readable and not locked; stream 10 is closed; stream 11 is errored; the
    writable stream 1 has a writer, the writable stream 2 has none. *)
Definition sampleDefaultReader : ReadableStreamReader :=
  ReadableStreamDefaultReader 7 0
    [{| readRequestPromise := 1 |}; {| readRequestPromise := 2 |}] true.

Definition sampleBYOBReader : ReadableStreamReader :=
  ReadableStreamBYOBReader 8 5 [{| readIntoRequestPromise := 6 |}].

Definition sampleStream (r : option readerRef) : ReadableStream :=
  {| _state := readable; _reader := r; _storedError := VUndefined; _disturbed := false |}.

Definition sampleWorld : World :=
  {| promises := [Pending; Pending; Pending; Pending; Pending; Pending; Pending];
     streams := {[ 7 := sampleStream (Some 3); 8 := sampleStream (Some 4);
                   9 := sampleStream None;
                   10 := set_state closed (sampleStream None);
                   11 := set_storedError (VString "broken")
                           (set_state errored (sampleStream None)) ]};
     readers := {[ 3 := sampleDefaultReader; 4 := sampleBYOBReader ]};
     writables := {[ 1 := {| _writer := Some 0 |}; 2 := {| _writer := None |} ]};
     trace := [] |}.

(** A tee of stream 7 through its reader 3, with branches 20 and 21 and the
    cancel promise 4; nothing has happened yet. *)
Definition sampleTee : TeeState :=
  {| stream := 7; reader := 3; reading := false;
     canceled1 := false; canceled2 := false;
     reason1 := VUndefined; reason2 := VUndefined;
     branch1 := 20; branch2 := 21; cancelPromise := 4;
     readReactions := []; closedReaction := true |}.

(** ** The data blocks *)

(** The kind of error that a completion throws, if it throws one. *)
Definition thrown {A} (c : Completion A) : option ErrorName :=
  match c with
  | Throw (VError name _) => Some name
  | _ => None
  end.

Definition errorNameOf (e : JSValue) : option ErrorName :=
  match e with
  | VError name _ => Some name
  | _ => None
  end.

(** The bytes seen through a view, as long as its buffer is not detached. *)
Definition viewedBytes (h : BufferStore) (O : Uint8Array) : option (list Byte.byte) :=
  match h !! ViewedArrayBuffer O with
  | Some B =>
      if isDetached B then None
      else Some (take (ByteLength O) (drop (ByteOffset O) (dataBlock B)))
  | None => None
  end.

(** The [n] bytes from [offset] on lie in the buffer. *)
Definition inBounds (offset n : Z) (B : ArrayBufferLike) : bool :=
  (0 <=? offset)%Z && (0 <=? n)%Z && (offset + n <=? Z.of_nat (byteLength B))%Z.

(** Buffer 1 holds "abcd", buffer 2 holds "12", buffer 3 was transferred
    away; the view looks at "bc" in buffer 1. *)
Definition sampleBuffers : BufferStore :=
  {[ 1 := newArrayBuffer [Byte.x61; Byte.x62; Byte.x63; Byte.x64];
     2 := newArrayBuffer [Byte.x31; Byte.x32];
     3 := detachArrayBuffer (newArrayBuffer [Byte.x61]) ]}.

Definition sampleView : Uint8Array :=
  {| ViewedArrayBuffer := 1; ByteOffset := 1; ByteLength := 2 |}.

(** ** Calls of the operations and methods, in sequence *)

Inductive StreamCall : Type :=
| CallReadableStreamClose (s : streamRef)
| CallReadableStreamError (s : streamRef) (e : JSValue)
| CallReadableStreamCancel (s : streamRef) (reason : JSValue)
| CallCreateReadableStream (highWaterMark : spec_float) (sizeAlgorithm : SizeAlgorithm)
| CallLocked (this : JSValue)
| CallCancel (this : JSValue) (reason : JSValue)
| CallPipeThrough (this : JSValue) (transform : ReadableWritablePair)
    (options : OptionsArgument)
| CallPipeTo (this : JSValue) (dest : JSValue) (options : OptionsArgument).

(** The store after a call, whether the call returns or throws. *)
Definition afterCall (c : StreamCall) (w : World) : World :=
  match c with
  | CallReadableStreamClose s => snd (ReadableStreamClose s w)
  | CallReadableStreamError s e => snd (ReadableStreamError s e w)
  | CallReadableStreamCancel s reason => snd (ReadableStreamCancel s reason w)
  | CallCreateReadableStream highWaterMark sizeAlgorithm =>
      snd (CreateReadableStream highWaterMark sizeAlgorithm w)
  | CallLocked this => snd (locked this w)
  | CallCancel this reason => snd (cancel this reason w)
  | CallPipeThrough this transform options => snd (pipeThrough this transform options w)
  | CallPipeTo this dest options => snd (pipeTo this dest options w)
  end.

Definition afterCalls (cs : list StreamCall) (w : World) : World :=
  foldl (fun w c => afterCall c w) w cs.

(** How a stream object may differ after a call: it keeps its reader, stays
    disturbed once it is, and keeps its state and stored error once it is
    closed or errored. *)
Definition evolves (st st' : ReadableStream) : Prop :=
  _reader st' = _reader st /\
  (_disturbed st = true -> _disturbed st' = true) /\
  (_state st <> readable -> _state st' = _state st /\ _storedError st' = _storedError st).

Definition streamsEvolve (m m' : gmap nat ReadableStream) : Prop :=
  forall s st, m !! s = Some st -> exists st', m' !! s = Some st' /\ evolves st st'.

(** A computation that does not write to the streams. *)
Definition keepsStreams {A} (m : M World A) : Prop :=
  forall w, streams (snd (m w)) = streams w.

(** The streams after [ReadableStreamClose], [ReadableStreamError] and
    [ReadableStreamCancel]. *)
Definition closeEffect (s : streamRef) (m : gmap nat ReadableStream) : gmap nat ReadableStream :=
  match m !! s with
  | Some st =>
      if ReadableStreamState_eqb (_state st) readable then <[s := set_state closed st]> m
      else m
  | None => m
  end.

Definition errorEffect (s : streamRef) (e : JSValue) (m : gmap nat ReadableStream)
  : gmap nat ReadableStream :=
  match m !! s with
  | Some st =>
      if ReadableStreamState_eqb (_state st) readable
      then <[s := set_storedError e (set_state errored st)]> m
      else m
  | None => m
  end.

Definition cancelEffect (s : streamRef) (m : gmap nat ReadableStream) : gmap nat ReadableStream :=
  match m !! s with
  | Some st => closeEffect s (<[s := set_disturbed true st]> m)
  | None => m
  end.

(** The error of [cancel] on a stream that has a reader. *)
Definition cancelLockedError : JSValue :=
  VError TypeError "Cannot cancel a stream that already has a reader".


(** ** What a tee does, step by step *)

(** What the tee hands to the controller of branch [b], oldest first: the
    chunks it enqueues ([Some chunk]) and the close ([None]). *)
Definition deliveries (b : streamRef) (tr : list Event) : list (option JSValue) :=
  omap (fun ev =>
          match ev with
          | EvControllerEnqueue b' chunk => if Nat.eqb b' b then Some (Some chunk) else None
          | EvControllerClose b' => if Nat.eqb b' b then Some None else None
          | _ => None
          end) tr.

Definition isPullStepsEvent (ev : Event) : bool :=
  match ev with EvPullSteps _ => true | _ => false end.

Definition isControllerError (ev : Event) : bool :=
  match ev with EvControllerError _ _ => true | _ => false end.

(** The reads handed to a controller, of whatever stream. *)
Definition readsIssued (tr : list Event) : nat :=
  length (List.filter isPullStepsEvent tr).

Definition isPullCalled (ev : TeeEvent) : bool :=
  match ev with PullCalled => true | _ => false end.

Definition isReadReactionJob (ev : TeeEvent) : bool :=
  match ev with ReadReactionJob _ => true | _ => false end.

Definition isClosedReactionJob (ev : TeeEvent) : bool :=
  match ev with ClosedReactionJob => true | _ => false end.


(** The trace [tr] is [tr0] followed by events that are all [allowed]. *)
Definition extends (allowed : Event -> bool) (tr0 tr : list Event) : Prop :=
  exists log, tr = tr0 ++ log /\ forallb allowed log = true.

(** The events that one step of a tee may add to the trace, given the
    variables [t] before the step. *)
Definition teeStepLog (ev : TeeEvent) (t : TeeState) (log : list Event) : Prop :=
  match ev with
  | PullCalled => log = [] \/ (reading t = false /\ exists s, log = [EvPullSteps s])
  | Cancel1Called _ =>
      log = [] \/
      (canceled2 t = true /\ forallb (fun e => isCancelCall e || isSettleEvent e) log = true)
  | Cancel2Called _ =>
      log = [] \/
      (canceled1 t = true /\ forallb (fun e => isCancelCall e || isSettleEvent e) log = true)
  | PromiseResolved _ _ | PromiseRejected _ _ | SourceClosed | SourceErrored _ =>
      forallb isSettleEvent log = true
  | ReadReactionJob p =>
      log = [] \/
      (In p (readReactions t) /\
       ((exists chunk, log = fanOut t (fun b => EvControllerEnqueue b chunk)) \/
        log = fanOut t EvControllerClose))
  | ClosedReactionJob =>
      log = [] \/
      (closedReaction t = true /\
       exists r, log = [EvControllerError (branch1 t) r; EvControllerError (branch2 t) r])
  end.

(** The variables that one step of a tee leaves as they are. *)
Definition teeStepKeeps (ev : TeeEvent) (t t' : TeeState) : Prop :=
  stream t' = stream t /\ reader t' = reader t /\
  branch1 t' = branch1 t /\ branch2 t' = branch2 t /\
  cancelPromise t' = cancelPromise t /\
  (isCancel1 ev = false -> canceled1 t' = canceled1 t /\ reason1 t' = reason1 t) /\
  (isCancel2 ev = false -> canceled2 t' = canceled2 t /\ reason2 t' = reason2 t) /\
  (canceled1 t = true -> canceled1 t' = true) /\
  (canceled2 t = true -> canceled2 t' = true) /\
  (isPullCalled ev || isReadReactionJob ev = false ->
   reading t' = reading t /\ readReactions t' = readReactions t) /\
  (isClosedReactionJob ev = false -> closedReaction t' = closedReaction t) /\
  (closedReaction t = false -> closedReaction t' = false).

(** What one step of a tee does: the variables it keeps, the events it
    adds, and what it leaves of the reads in flight. *)
Definition teeStepFacts (ev : TeeEvent) (t t' : TeeState) (log : list Event) : Prop :=
  teeStepKeeps ev t t' /\ teeStepLog ev t log /\
  match ev with
  | PullCalled => reading t' = true /\ (reading t = true -> t' = t)
  | ReadReactionJob p => existsb (Nat.eqb p) (readReactions t) = false -> t' = t
  | ClosedReactionJob => log <> [] -> closedReaction t' = false
  | _ => True
  end.

(** The promise [cp] is pending and no reader of the store holds it, as
    closed promise or as the promise of a request. *)
Definition heldApart (cp : promise) (w : World) : Prop :=
  promises w !! cp = Some Pending /\
  forall r rd, readers w !! r = Some rd ->
               cp <> closedPromiseOf rd /\ ~ In cp (pendingRequestsOf rd).

(** The cancel promise of the tee is [cp], held apart in the store. *)
Definition keptApart (cp : promise) (tw : TeeWorld) : Prop :=
  cancelPromise (fst tw) = cp /\ heldApart cp (snd tw).

(** A read result that carries the chunk ['a']. *)
Definition chunkA : JSValue := VReadResult (VString "a") false true.

(* ===================================================================== *)
(** * Properties *)
(* ===================================================================== *)

(** ** Numbers and buffers *)

(** C8, as the code has it.  [IsNonNegativeNumber] accepts exactly the
    numbers that are not NaN and not less than zero; positive infinity is
    among them.  It rejects NaN, every number less than zero and every value
    that is not a number. *)
Theorem IsNonNegativeNumber_spec :
  (forall v : JSValue,
      IsNonNegativeNumber v = true <->
      exists n, v = VNumber n /\ NumberIsNaN n = false /\ numberLt n posZero = false) /\
  IsNonNegativeNumber (VNumber posInfinity) = true /\
  IsNonNegativeNumber (VNumber S754_nan) = false /\
  (forall n, numberLt n posZero = true -> IsNonNegativeNumber (VNumber n) = false) /\
  (forall v, typeIsNumber v = false -> IsNonNegativeNumber v = false).
Proof.
  split; [| split; [reflexivity | split; [reflexivity | split]]].
  - intros v; split.
    + destruct v as [| | |n| | | | | | | | | |]; simpl; try discriminate.
      intros H. exists n.
      destruct (NumberIsNaN n); [discriminate |].
      destruct (numberLt n posZero); [discriminate |]. auto.
    + intros (n & -> & Hnan & Hlt). simpl. now rewrite Hnan, Hlt.
  - intros n Hlt. simpl. rewrite Hlt. now destruct (NumberIsNaN n).
  - intros v Hv. destruct v; simpl in *; congruence.
Qed.

Lemma IsNonNegativeNumber_spec_witness :
  IsNonNegativeNumber (VNumber numberOne) = true /\
  (exists n, VNumber posZero = VNumber n /\ NumberIsNaN n = false /\
             numberLt n posZero = false) /\
  IsNonNegativeNumber (VNumber (SFopp numberOne)) = false /\
  IsNonNegativeNumber (VString "1") = false.
Proof.
  destruct IsNonNegativeNumber_spec as (Hiff & _ & _ & Hneg & Hother).
  split; [| split; [| split]].
  - apply (proj2 (Hiff (VNumber numberOne))).
    exists numberOne. repeat split; reflexivity.
  - apply (proj1 (Hiff (VNumber posZero))). reflexivity.
  - apply (Hneg (SFopp numberOne)). reflexivity.
  - apply (Hother (VString "1")). reflexivity.
Defined.

(** C8, as claimed, fails at positive infinity: the predicate returns true
    for a number that is not finite. *)
Lemma IsNonNegativeNumber_accepts_infinity :
  ~ (IsNonNegativeNumber (VNumber posInfinity) = true <->
     typeIsNumber (VNumber posInfinity) = true /\
     NumberIsNaN posInfinity = false /\
     numberLt posInfinity posZero = false /\
     isFiniteNumber posInfinity = true).
Proof.
  intros [H _]. specialize (H eq_refl). destruct H as (_ & _ & _ & H). discriminate H.
Qed.

(** C10.  A buffer of byte length zero is classified as detached and as not
    transferable; so is the empty buffer that was never transferred, which
    the two tests cannot tell from a buffer that was transferred away. *)
Theorem empty_buffer_is_detached :
  (forall O : ArrayBufferLike,
      byteLength O = 0 ->
      IsDetachedBuffer O = true /\ CanTransferArrayBuffer O = false) /\
  (forall O : ArrayBufferLike,
      isDetached O = false -> dataBlock O = [] ->
      IsDetachedBuffer O = true /\ CanTransferArrayBuffer O = false) /\
  (forall O : ArrayBufferLike,
      IsDetachedBuffer (newArrayBuffer []) = IsDetachedBuffer (snd (TransferArrayBuffer true O)) /\
      CanTransferArrayBuffer (newArrayBuffer []) =
      CanTransferArrayBuffer (snd (TransferArrayBuffer true O))).
Proof.
  split; [| split].
  - intros O H. unfold CanTransferArrayBuffer, IsDetachedBuffer. now rewrite H.
  - intros O Hd Hb. unfold CanTransferArrayBuffer, IsDetachedBuffer, byteLength.
    now rewrite Hd, Hb.
  - intros O. unfold TransferArrayBuffer, CanTransferArrayBuffer, IsDetachedBuffer, byteLength.
    destruct (isDetached O) eqn:E; simpl; rewrite ?E; split; reflexivity.
Qed.

Lemma empty_buffer_is_detached_witness :
  (IsDetachedBuffer (newArrayBuffer []) = true /\
   CanTransferArrayBuffer (newArrayBuffer []) = false) /\
  (IsDetachedBuffer (detachArrayBuffer (newArrayBuffer [Byte.x61])) = true /\
   CanTransferArrayBuffer (detachArrayBuffer (newArrayBuffer [Byte.x61])) = false).
Proof.
  destruct empty_buffer_is_detached as (Hzero & Hempty & _).
  split.
  - apply (Hempty (newArrayBuffer [])); reflexivity.
  - apply (Hzero (detachArrayBuffer (newArrayBuffer [Byte.x61]))). reflexivity.
Defined.

(** ** The store *)

Ltac mcbn :=
  cbn [fst snd promises streams readers writables trace
       withPromises withStreams withReaders withTrace
       _state _reader _storedError _disturbed set_state set_storedError set_disturbed
       ReadableStreamState_eqb closedPromiseOf ownerOf pendingRequestsOf
       readRequestPromise readIntoRequestPromise negb andb orb].

Lemma World_eta (w : World) :
  {| promises := promises w; streams := streams w; readers := readers w;
     writables := writables w; trace := trace w |} = w.
Proof. now destruct w. Qed.

Lemma settleCell_length p c h : length (settleCell p c h) = length h.
Proof.
  unfold settleCell. destruct (h !! p) as [[]|]; auto. apply length_insert.
Qed.

Lemma settleCell_pending p c h :
  h !! p = Some Pending -> settleCell p c h !! p = Some c.
Proof.
  intros H. unfold settleCell. rewrite H.
  apply list_lookup_insert_eq. now apply lookup_lt_Some in H.
Qed.

Lemma settleCell_other p q c h :
  p <> q -> settleCell p c h !! q = h !! q.
Proof.
  intros H. unfold settleCell. destruct (h !! p) as [[]|]; auto.
  now apply list_lookup_insert_ne.
Qed.

Lemma settleCell_settled p q c h :
  h !! q <> Some Pending -> settleCell p c h !! q = h !! q.
Proof.
  intros H. destruct (decide (p = q)) as [->|Hne].
  - unfold settleCell. destruct (h !! q) as [[]|] eqn:E; congruence.
  - now apply settleCell_other.
Qed.

Lemma settleAll_length ps c h : length (settleAll ps c h) = length h.
Proof.
  revert h. induction ps as [|p ps IH]; intros h; simpl; auto.
  unfold settleAll in *. simpl. rewrite IH. apply settleCell_length.
Qed.

Lemma settleAll_settled ps q c h :
  h !! q <> Some Pending -> settleAll ps c h !! q = h !! q.
Proof.
  revert h. induction ps as [|p ps IH]; intros h H; auto.
  unfold settleAll in *. simpl. rewrite IH.
  - now apply settleCell_settled.
  - now rewrite settleCell_settled.
Qed.

Lemma settleAll_notin ps q c h :
  existsb (Nat.eqb q) ps = false -> settleAll ps c h !! q = h !! q.
Proof.
  revert h. induction ps as [|p ps IH]; intros h H; auto.
  simpl in H. apply orb_false_iff in H as [Hp Hps].
  unfold settleAll in *. simpl. rewrite IH by assumption.
  apply settleCell_other. apply Nat.eqb_neq in Hp. congruence.
Qed.

(** Every pending promise of the list ends up in the cell it is settled
    with, whatever else the list contains. *)
Lemma settleAll_keeps ps q c h :
  h !! q = Some c -> settleAll ps c h !! q = Some c.
Proof.
  revert h. induction ps as [|p ps IH]; intros h H; auto.
  unfold settleAll in *. simpl. apply IH.
  destruct (decide (p = q)) as [->|Hne].
  - unfold settleCell. rewrite H. destruct c; auto.
    apply list_lookup_insert_eq. now apply lookup_lt_Some in H.
  - now rewrite settleCell_other.
Qed.

Lemma settleAll_pending ps q c h :
  In q ps -> h !! q = Some Pending -> settleAll ps c h !! q = Some c.
Proof.
  revert h. induction ps as [|p ps IH]; intros h Hin H; [destruct Hin |].
  unfold settleAll in *. simpl.
  destruct (decide (p = q)) as [->|Hne].
  - apply settleAll_keeps. now apply settleCell_pending.
  - apply IH.
    + destruct Hin; [congruence | assumption].
    + now rewrite settleCell_other.
Qed.

Lemma promiseState_fulfilled w p v :
  promises w !! p = Some (Fulfilled v) -> promiseState w p = SFulfilled v.
Proof. intros H. unfold promiseState. simpl. now rewrite H. Qed.

Lemma promiseState_rejected w p e :
  promises w !! p = Some (Rejected e) -> promiseState w p = SRejected e.
Proof. intros H. unfold promiseState. simpl. now rewrite H. Qed.

Lemma isPendingCell_true h p : isPendingCell h p = true -> h !! p = Some Pending.
Proof. unfold isPendingCell. destruct (h !! p) as [[]|]; congruence. Qed.

Lemma lookup_alloc (h : list PromiseCell) (c : PromiseCell) :
  (h ++ [c]) !! length h = Some c.
Proof. rewrite lookup_app_r by lia. now rewrite Nat.sub_diag. Qed.

(** ** Evaluation of the loops over the pending requests *)

Lemma forEach_resolve (reqs : list ReadRequest) (v : JSValue) (w : World) :
  forEach reqs (fun readRequest => ReadRequest_resolve readRequest v) w =
  (Normal tt,
   withTrace (trace w ++ map (fun rq => EvResolve (readRequestPromise rq) v) reqs)
     (withPromises
        (settleAll (map readRequestPromise reqs) (resolutionOf v) (promises w)) w)).
Proof.
  revert w. induction reqs as [|rq reqs IH]; intros w.
  - simpl. unfold ret, withTrace, withPromises, settleAll. simpl.
    rewrite app_nil_r. now rewrite World_eta.
  - simpl. unfold bind at 1. unfold ReadRequest_resolve at 1, resolvePromise.
    rewrite IH. mcbn. unfold withTrace, withPromises. simpl.
    now rewrite <- app_assoc.
Qed.

Lemma forEach_reject (reqs : list ReadRequest) (e : JSValue) (w : World) :
  forEach reqs (fun readRequest => ReadRequest_reject readRequest e) w =
  (Normal tt,
   withTrace (trace w ++ map (fun rq => EvReject (readRequestPromise rq) e) reqs)
     (withPromises
        (settleAll (map readRequestPromise reqs) (Rejected e) (promises w)) w)).
Proof.
  revert w. induction reqs as [|rq reqs IH]; intros w.
  - simpl. unfold ret, withTrace, withPromises, settleAll. simpl.
    rewrite app_nil_r. now rewrite World_eta.
  - simpl. unfold bind at 1. unfold ReadRequest_reject at 1, rejectPromise.
    rewrite IH. mcbn. unfold withTrace, withPromises. simpl.
    now rewrite <- app_assoc.
Qed.

Lemma forEach_rejectInto (reqs : list ReadIntoRequest) (e : JSValue) (w : World) :
  forEach reqs (fun readIntoRequest => ReadIntoRequest_reject readIntoRequest e) w =
  (Normal tt,
   withTrace (trace w ++ map (fun rq => EvReject (readIntoRequestPromise rq) e) reqs)
     (withPromises
        (settleAll (map readIntoRequestPromise reqs) (Rejected e) (promises w)) w)).
Proof.
  revert w. induction reqs as [|rq reqs IH]; intros w.
  - simpl. unfold ret, withTrace, withPromises, settleAll. simpl.
    rewrite app_nil_r. now rewrite World_eta.
  - simpl. unfold bind at 1. unfold ReadIntoRequest_reject at 1, rejectPromise.
    rewrite IH. mcbn. unfold withTrace, withPromises. simpl.
    now rewrite <- app_assoc.
Qed.

(** ** Evaluation of [ReadableStreamClose] and [ReadableStreamError] *)

Lemma getStream_eq w s st :
  streams w !! s = Some st -> getStream s w = (Normal st, w).
Proof. intros H. unfold getStream. now rewrite H. Qed.

Lemma updateStream_eq w s st f :
  streams w !! s = Some st ->
  updateStream s f w = (Normal tt, withStreams (<[s := f st]> (streams w)) w).
Proof. intros H. unfold updateStream, bind. now rewrite (getStream_eq _ _ _ H). Qed.

Lemma getReader_eq w r rd :
  readers w !! r = Some rd -> getReader r w = (Normal rd, w).
Proof. intros H. unfold getReader. now rewrite H. Qed.

Ltac mstep :=
  mcbn;
  first
    [ rewrite lookup_insert_eq
    | erewrite getStream_eq by (mcbn; rewrite ?lookup_insert_eq; eauto)
    | erewrite updateStream_eq by (mcbn; rewrite ?lookup_insert_eq; eauto)
    | erewrite getReader_eq by (mcbn; rewrite ?lookup_insert_eq; eauto)
    | rewrite forEach_resolve
    | rewrite forEach_reject
    | rewrite forEach_rejectInto
    | rewrite insert_insert_eq ].

Lemma ReadableStreamClose_default w s st r owner closedPromise readRequests forAuthorCode :
  streams w !! s = Some st ->
  _state st = readable ->
  _reader st = Some r ->
  readers w !! r =
    Some (ReadableStreamDefaultReader owner closedPromise readRequests forAuthorCode) ->
  ReadableStreamClose s w =
  (Normal tt,
   {| promises :=
        settleCell closedPromise (Fulfilled VUndefined)
          (settleAll (map readRequestPromise readRequests)
             (Fulfilled (VReadResult VUndefined true forAuthorCode)) (promises w));
      streams := <[s := set_state closed st]> (streams w);
      readers := <[r := ReadableStreamDefaultReader owner closedPromise [] forAuthorCode]>
                   (readers w);
      writables := writables w;
      trace := trace w
               ++ map (fun rq => EvResolve (readRequestPromise rq)
                                   (VReadResult VUndefined true forAuthorCode)) readRequests
               ++ [EvResolve closedPromise VUndefined] |}).
Proof.
  intros Hs Hst Hr Hrd.
  unfold ReadableStreamClose, bind, assert, ret.
  rewrite (getStream_eq _ _ _ Hs), Hst. mcbn.
  rewrite (updateStream_eq _ _ _ _ Hs), Hr.
  rewrite (getReader_eq _ r _) by exact Hrd.
  cbv beta iota. rewrite forEach_resolve.
  unfold setReader, defaultReaderClosedPromiseResolve, bind, getReader, resolvePromise,
    ReadableStreamCreateReadResult.
  mcbn. rewrite lookup_insert_eq. mcbn.
  unfold withTrace, withPromises, withStreams, withReaders. mcbn.
  now rewrite <- app_assoc.
Qed.

Lemma ReadableStreamClose_unlocked w s st :
  streams w !! s = Some st ->
  _state st = readable ->
  _reader st = None ->
  ReadableStreamClose s w =
  (Normal tt, withStreams (<[s := set_state closed st]> (streams w)) w).
Proof.
  intros Hs Hst Hr.
  unfold ReadableStreamClose, bind, assert, ret.
  rewrite (getStream_eq _ _ _ Hs), Hst. mcbn.
  now rewrite (updateStream_eq _ _ _ _ Hs), Hr.
Qed.

Lemma ReadableStreamClose_byob w s st r owner closedPromise readIntoRequests :
  streams w !! s = Some st ->
  _state st = readable ->
  _reader st = Some r ->
  readers w !! r = Some (ReadableStreamBYOBReader owner closedPromise readIntoRequests) ->
  ReadableStreamClose s w =
  (Normal tt,
   withTrace (trace w ++ [EvResolve closedPromise VUndefined])
     (withPromises (settleCell closedPromise (Fulfilled VUndefined) (promises w))
        (withStreams (<[s := set_state closed st]> (streams w)) w))).
Proof.
  intros Hs Hst Hr Hrd.
  unfold ReadableStreamClose, bind, assert, ret.
  rewrite (getStream_eq _ _ _ Hs), Hst. mcbn.
  rewrite (updateStream_eq _ _ _ _ Hs), Hr.
  rewrite (getReader_eq _ r _) by exact Hrd.
  cbv beta iota.
  unfold defaultReaderClosedPromiseResolve, bind.
  rewrite (getReader_eq _ r _) by exact Hrd.
  reflexivity.
Qed.

Lemma ReadableStreamError_default w s st e r owner closedPromise readRequests forAuthorCode :
  streams w !! s = Some st ->
  _state st = readable ->
  _reader st = Some r ->
  readers w !! r =
    Some (ReadableStreamDefaultReader owner closedPromise readRequests forAuthorCode) ->
  ReadableStreamError s e w =
  (Normal tt,
   {| promises :=
        settleCell closedPromise (Rejected e)
          (settleAll (map readRequestPromise readRequests) (Rejected e) (promises w));
      streams := <[s := set_storedError e (set_state errored st)]> (streams w);
      readers := <[r := ReadableStreamDefaultReader owner closedPromise [] forAuthorCode]>
                   (readers w);
      writables := writables w;
      trace := trace w
               ++ map (fun rq => EvReject (readRequestPromise rq) e) readRequests
               ++ [EvReject closedPromise e] |}).
Proof.
  intros Hs Hst Hr Hrd.
  unfold ReadableStreamError, bind, assert, ret.
  rewrite (getStream_eq _ _ _ Hs), Hst. mcbn.
  rewrite (updateStream_eq _ _ _ _ Hs).
  erewrite updateStream_eq by (mcbn; apply lookup_insert_eq).
  rewrite Hr.
  rewrite (getReader_eq _ r _) by exact Hrd.
  cbv beta iota. rewrite forEach_reject.
  unfold setReader, defaultReaderClosedPromiseReject, bind, getReader, rejectPromise.
  mcbn. rewrite lookup_insert_eq. mcbn. rewrite insert_insert_eq.
  unfold withTrace, withPromises, withStreams, withReaders. mcbn.
  now rewrite <- app_assoc.
Qed.

Lemma ReadableStreamError_byob w s st e r owner closedPromise readIntoRequests :
  streams w !! s = Some st ->
  _state st = readable ->
  _reader st = Some r ->
  readers w !! r = Some (ReadableStreamBYOBReader owner closedPromise readIntoRequests) ->
  ReadableStreamError s e w =
  (Normal tt,
   {| promises :=
        settleCell closedPromise (Rejected e)
          (settleAll (map readIntoRequestPromise readIntoRequests) (Rejected e)
             (promises w));
      streams := <[s := set_storedError e (set_state errored st)]> (streams w);
      readers := <[r := ReadableStreamBYOBReader owner closedPromise []]> (readers w);
      writables := writables w;
      trace := trace w
               ++ map (fun rq => EvReject (readIntoRequestPromise rq) e) readIntoRequests
               ++ [EvReject closedPromise e] |}).
Proof.
  intros Hs Hst Hr Hrd.
  unfold ReadableStreamError, bind, assert, ret.
  rewrite (getStream_eq _ _ _ Hs), Hst. mcbn.
  rewrite (updateStream_eq _ _ _ _ Hs).
  erewrite updateStream_eq by (mcbn; apply lookup_insert_eq).
  rewrite Hr.
  rewrite (getReader_eq _ r _) by exact Hrd.
  cbv beta iota. rewrite forEach_rejectInto.
  unfold setReader, defaultReaderClosedPromiseReject, bind, getReader, rejectPromise.
  mcbn. rewrite lookup_insert_eq. mcbn. rewrite insert_insert_eq.
  unfold withTrace, withPromises, withStreams, withReaders. mcbn.
  now rewrite <- app_assoc.
Qed.

Lemma ReadableStreamError_unlocked w s st e :
  streams w !! s = Some st ->
  _state st = readable ->
  _reader st = None ->
  ReadableStreamError s e w =
  (Normal tt,
   withStreams (<[s := set_storedError e (set_state errored st)]> (streams w)) w).
Proof.
  intros Hs Hst Hr.
  unfold ReadableStreamError, bind, assert, ret.
  rewrite (getStream_eq _ _ _ Hs), Hst. mcbn.
  rewrite (updateStream_eq _ _ _ _ Hs).
  erewrite updateStream_eq by (mcbn; apply lookup_insert_eq).
  rewrite Hr. unfold withStreams. mcbn. now rewrite insert_insert_eq.
Qed.

Lemma readerUnsettled_spec w rd :
  readerUnsettled w rd = true ->
  (forall p, In p (pendingRequestsOf rd) -> promises w !! p = Some Pending) /\
  promises w !! closedPromiseOf rd = Some Pending /\
  existsb (Nat.eqb (closedPromiseOf rd)) (pendingRequestsOf rd) = false.
Proof.
  unfold readerUnsettled. intros H.
  apply andb_true_iff in H as [H Hn]. apply andb_true_iff in H as [Hall Hc].
  split; [| split].
  - intros p Hp. apply isPendingCell_true.
    rewrite forallb_forall in Hall. now apply Hall.
  - now apply isPendingCell_true.
  - now apply negb_true_iff.
Qed.

(** ** Closing and erroring a stream *)

(** C3.  Closing a readable stream whose default reader holds pending read
    requests resolves each of them, oldest first, with
    [{ value: undefined, done: true }], then resolves the reader's closed
    promise; the requests end up fulfilled with that result, the queue of
    requests is empty, the closed promise is fulfilled, and a read issued
    afterwards returns a promise fulfilled with the same result without a call
    to the controller's pull steps. *)
Theorem ReadableStreamClose_fulfills_requests
  (w : World) (s : streamRef) (st : ReadableStream) (r : readerRef)
  (closedPromise : promise) (readRequests : list ReadRequest) (forAuthorCode : bool) :
  let rd := ReadableStreamDefaultReader s closedPromise readRequests forAuthorCode in
  let endOfSequence := VReadResult VUndefined true forAuthorCode in
  streams w !! s = Some st ->
  _state st = readable ->
  _reader st = Some r ->
  readers w !! r = Some rd ->
  readerUnsettled w rd = true ->
  exists w',
    ReadableStreamClose s w = (Normal tt, w') /\
    streams w' !! s = Some (set_state closed st) /\
    trace w' = trace w
               ++ map (fun rq => EvResolve (readRequestPromise rq) endOfSequence) readRequests
               ++ [EvResolve closedPromise VUndefined] /\
    Forall (fun rq => promiseState w' (readRequestPromise rq) = SFulfilled endOfSequence)
      readRequests /\
    readers w' !! r = Some (ReadableStreamDefaultReader s closedPromise [] forAuthorCode) /\
    promiseState w' closedPromise = SFulfilled VUndefined /\
    exists p w'',
      ReadableStreamDefaultReaderRead r w' = (Normal p, w'') /\
      promiseState w'' p = SFulfilled endOfSequence /\
      trace w'' = trace w' /\
      pullStepsCalls s (trace w'') = pullStepsCalls s (trace w).
Proof.
  intros rd eos Hs Hst Hr Hrd Hun.
  apply readerUnsettled_spec in Hun as (Hreq & Hcp & Hnotin). simpl in Hreq, Hcp, Hnotin.
  eexists. split; [now apply (ReadableStreamClose_default _ _ _ _ _ _ _ _ Hs Hst Hr Hrd) |].
  mcbn.
  assert (Hcell : forall rq, In rq readRequests ->
            settleCell closedPromise (Fulfilled VUndefined)
              (settleAll (map readRequestPromise readRequests) (Fulfilled eos) (promises w))
            !! readRequestPromise rq = Some (Fulfilled eos)).
  { intros rq Hin.
    assert (H1 : settleAll (map readRequestPromise readRequests) (Fulfilled eos) (promises w)
                 !! readRequestPromise rq = Some (Fulfilled eos)).
    { apply settleAll_pending; [now apply in_map | apply Hreq; now apply in_map]. }
    rewrite settleCell_settled; [exact H1 | rewrite H1; discriminate]. }
  split; [apply lookup_insert_eq |].
  split; [reflexivity |].
  split.
  { apply Forall_forall. intros rq Hin. apply promiseState_fulfilled. mcbn.
    apply Hcell. now apply list_elem_of_In. }
  split; [apply lookup_insert_eq |].
  split.
  { apply promiseState_fulfilled. mcbn. apply settleCell_pending.
    now rewrite settleAll_notin. }
  unfold ReadableStreamDefaultReaderRead, bind.
  erewrite getReader_eq by (mcbn; apply lookup_insert_eq).
  mcbn. erewrite updateStream_eq by (mcbn; apply lookup_insert_eq).
  erewrite getStream_eq by (mcbn; apply lookup_insert_eq).
  mcbn. unfold promiseResolvedWith, allocPromise, ReadableStreamCreateReadResult. mcbn.
  do 2 eexists. split; [reflexivity |]. mcbn.
  split; [| split; [reflexivity |]].
  - apply promiseState_fulfilled. mcbn. apply lookup_alloc.
  - unfold pullStepsCalls. rewrite !List.filter_app, !length_app.
    replace (length (List.filter _ [EvResolve closedPromise VUndefined])) with 0
      by reflexivity.
    replace (length (List.filter _ (map _ readRequests))) with 0; [lia |].
    clear. induction readRequests; simpl; auto.
Qed.

Lemma ReadableStreamClose_fulfills_requests_witness :
  exists w',
    ReadableStreamClose 7 sampleWorld = (Normal tt, w') /\
    promiseState w' 1 = SFulfilled (VReadResult VUndefined true true) /\
    promiseState w' 2 = SFulfilled (VReadResult VUndefined true true) /\
    promiseState w' 0 = SFulfilled VUndefined.
Proof.
  destruct (ReadableStreamClose_fulfills_requests sampleWorld 7 (sampleStream (Some 3)) 3 0
              [{| readRequestPromise := 1 |}; {| readRequestPromise := 2 |}] true)
    as (w' & Hrun & _ & _ & Hall & _ & Hclosed & _); try reflexivity.
  exists w'. split; [exact Hrun |].
  inversion Hall as [|rq1 l1 H1 Hrest]; subst.
  inversion Hrest as [|rq2 l2 H2 _]; subst.
  auto.
Defined.

(** C4.  Erroring a readable stream with [e] sets its state to errored and
    its stored error to [e].  When a reader holds the lock, every pending
    read request (default reader) or read-into request (zero-copy reader) is
    rejected with [e], oldest first, the queue of requests is emptied and the
    reader's closed promise is rejected with [e]: every request ends up
    rejected with [e], none stays pending and none has another outcome. *)
Theorem ReadableStreamError_rejects_requests
  (w : World) (s : streamRef) (st : ReadableStream) (e : JSValue) :
  streams w !! s = Some st ->
  _state st = readable ->
  (_reader st = None ->
   exists w',
     ReadableStreamError s e w = (Normal tt, w') /\
     streams w' !! s = Some (set_storedError e (set_state errored st)) /\
     trace w' = trace w) /\
  (forall r rd,
      _reader st = Some r ->
      readers w !! r = Some rd ->
      readerUnsettled w rd = true ->
      exists w' rd',
        ReadableStreamError s e w = (Normal tt, w') /\
        streams w' !! s = Some (set_storedError e (set_state errored st)) /\
        trace w' = trace w
                   ++ map (fun p => EvReject p e) (pendingRequestsOf rd)
                   ++ [EvReject (closedPromiseOf rd) e] /\
        Forall (fun p => promiseState w' p = SRejected e) (pendingRequestsOf rd) /\
        readers w' !! r = Some rd' /\
        pendingRequestsOf rd' = [] /\
        closedPromiseOf rd' = closedPromiseOf rd /\
        promiseState w' (closedPromiseOf rd) = SRejected e).
Proof.
  intros Hs Hst. split.
  { intros Hr. eexists. split; [exact (ReadableStreamError_unlocked _ _ _ _ Hs Hst Hr) |].
    mcbn. split; [apply lookup_insert_eq | reflexivity]. }
  intros r rd Hr Hrd Hun.
  apply readerUnsettled_spec in Hun as (Hreq & Hcp & _).
  assert (Hcell : forall h ps c, (forall p, In p ps -> h !! p = Some Pending) ->
            forall p, In p ps ->
            settleCell c (Rejected e) (settleAll ps (Rejected e) h) !! p = Some (Rejected e)).
  { intros h ps c Hp p Hin.
    assert (H1 : settleAll ps (Rejected e) h !! p = Some (Rejected e))
      by (apply settleAll_pending; auto).
    rewrite settleCell_settled; [exact H1 | rewrite H1; discriminate]. }
  assert (Hclosed : forall h ps c, h !! c = Some Pending ->
            settleCell c (Rejected e) (settleAll ps (Rejected e) h) !! c = Some (Rejected e)).
  { intros h ps c Hc.
    destruct (existsb (Nat.eqb c) ps) eqn:Hin.
    - apply existsb_exists in Hin as (x & Hin & Hx). apply Nat.eqb_eq in Hx. subst x.
      pose proof (settleAll_pending ps c (Rejected e) h Hin Hc) as E.
      rewrite settleCell_settled; [exact E | rewrite E; discriminate].
    - apply settleCell_pending. now rewrite settleAll_notin. }
  destruct rd as [owner closedPromise readRequests forAuthorCode
                 | owner closedPromise readIntoRequests]; simpl in Hreq, Hcp.
  - eexists. eexists.
    split; [now apply (ReadableStreamError_default _ _ _ _ _ _ _ _ _ Hs Hst Hr Hrd) |].
    mcbn. split; [apply lookup_insert_eq |].
    split; [now rewrite map_map |].
    split; [| split; [apply lookup_insert_eq | repeat split]].
    + apply Forall_forall. intros p Hin. apply promiseState_rejected. mcbn.
      apply Hcell; auto. now apply list_elem_of_In.
    + apply promiseState_rejected. mcbn. now apply Hclosed.
  - eexists. eexists.
    split; [now apply (ReadableStreamError_byob _ _ _ _ _ _ _ _ Hs Hst Hr Hrd) |].
    mcbn. split; [apply lookup_insert_eq |].
    split; [now rewrite map_map |].
    split; [| split; [apply lookup_insert_eq | repeat split]].
    + apply Forall_forall. intros p Hin. apply promiseState_rejected. mcbn.
      apply Hcell; auto. now apply list_elem_of_In.
    + apply promiseState_rejected. mcbn. now apply Hclosed.
Qed.

Lemma ReadableStreamError_rejects_requests_witness :
  (exists w',
      ReadableStreamError 9 (VString "boom") sampleWorld = (Normal tt, w') /\
      streams w' !! 9 =
        Some (set_storedError (VString "boom") (set_state errored (sampleStream None)))) /\
  (exists w',
      ReadableStreamError 7 (VString "boom") sampleWorld = (Normal tt, w') /\
      promiseState w' 1 = SRejected (VString "boom") /\
      promiseState w' 2 = SRejected (VString "boom") /\
      promiseState w' 0 = SRejected (VString "boom")) /\
  (exists w',
      ReadableStreamError 8 (VString "boom") sampleWorld = (Normal tt, w') /\
      promiseState w' 6 = SRejected (VString "boom") /\
      promiseState w' 5 = SRejected (VString "boom")).
Proof.
  split; [| split].
  - destruct (ReadableStreamError_rejects_requests sampleWorld 9 (sampleStream None)
                (VString "boom") eq_refl eq_refl) as [Hunlocked _].
    destruct (Hunlocked eq_refl) as (w' & Hrun & Hst & _).
    exists w'. auto.
  - destruct (ReadableStreamError_rejects_requests sampleWorld 7 (sampleStream (Some 3))
                (VString "boom") eq_refl eq_refl) as [_ Hlocked].
    destruct (Hlocked 3 sampleDefaultReader eq_refl eq_refl eq_refl)
      as (w' & rd' & Hrun & _ & _ & Hall & _ & _ & _ & Hclosed).
    exists w'. split; [exact Hrun |].
    inversion Hall as [|p1 l1 H1 Hrest]; subst.
    inversion Hrest as [|p2 l2 H2 _]; subst.
    auto.
  - destruct (ReadableStreamError_rejects_requests sampleWorld 8 (sampleStream (Some 4))
                (VString "boom") eq_refl eq_refl) as [_ Hlocked].
    destruct (Hlocked 4 sampleBYOBReader eq_refl eq_refl eq_refl)
      as (w' & rd' & Hrun & _ & _ & Hall & _ & _ & _ & Hclosed).
    exists w'. split; [exact Hrun |].
    inversion Hall as [|p1 l1 H1 _]; subst.
    auto.
Defined.

(** ** What a computation keeps *)

Section Preservation.
Context {S : Type} (P : S -> Prop).

Lemma preserves_ret {A} (a : A) : preserves P (ret a).
Proof. intros s H. exact H. Qed.

Lemma preserves_throw {A} (e : JSValue) : preserves P (@throw S A e).
Proof. intros s H. exact H. Qed.

Lemma preserves_bind {A B} (m : M S A) (k : A -> M S B) :
  preserves P m -> (forall a, preserves P (k a)) -> preserves P (bind m k).
Proof.
  intros Hm Hk s H. unfold bind. specialize (Hm s H).
  destruct (m s) as [[a|e] s']; simpl in *; auto. now apply Hk.
Qed.

Lemma preserves_assert (b : bool) : preserves P (assert b).
Proof. destruct b; intros s H; exact H. Qed.

Lemma preserves_when (b : bool) (m : M S unit) :
  preserves P m -> preserves P (when b m).
Proof. destruct b; simpl; auto. intros _. apply preserves_ret. Qed.

Lemma preserves_forEach {A} (l : list A) (f : A -> M S unit) :
  (forall x, preserves P (f x)) -> preserves P (forEach l f).
Proof.
  intros Hf. induction l as [|x l IH]; simpl.
  - apply preserves_ret.
  - apply preserves_bind; auto.
Qed.

Lemma preserves_liftCompletion {A} (c : Completion A) : preserves P (liftCompletion c).
Proof. intros s H. exact H. Qed.

Lemma preserves_unchanged {A} (m : M S A) :
  (forall s, snd (m s) = s) -> preserves P m.
Proof. intros Hm s H. now rewrite Hm. Qed.
End Preservation.

Ltac pres_step :=
  lazymatch goal with
  | |- preserves _ (bind _ _) => apply preserves_bind; [| intros ?]
  | |- preserves _ (ret _) => apply preserves_ret
  | |- preserves _ (throw _) => apply preserves_throw
  | |- preserves _ (assert _) => apply preserves_assert
  | |- preserves _ (when _ _) => apply preserves_when
  | |- preserves _ (forEach _ _) => apply preserves_forEach; intros ?
  | |- preserves _ (liftCompletion _) => apply preserves_liftCompletion
  | |- preserves _ (if ?b then _ else _) => destruct b
  | |- preserves _ (match ?x with _ => _ end) => destruct x
  end.

Lemma getStream_unchanged s w : snd (getStream s w) = w.
Proof. unfold getStream. now destruct (streams w !! s). Qed.

Lemma getReader_unchanged r w : snd (getReader r w) = w.
Proof. unfold getReader. now destruct (readers w !! r). Qed.

Lemma getWritable_unchanged d w : snd (getWritable d w) = w.
Proof. unfold getWritable. now destruct (writables w !! d). Qed.

Lemma preserves_getStream P s : preserves P (getStream s).
Proof. apply preserves_unchanged, getStream_unchanged. Qed.

Lemma preserves_getReader P r : preserves P (getReader r).
Proof. apply preserves_unchanged, getReader_unchanged. Qed.

Lemma preserves_getWritable P d : preserves P (getWritable d).
Proof. apply preserves_unchanged, getWritable_unchanged. Qed.

Lemma preserves_newStreamObject P : preserves P newStreamObject.
Proof. now apply preserves_unchanged. Qed.

Create HintDb pres discriminated.
#[local] Hint Resolve preserves_getStream preserves_getReader preserves_getWritable
  preserves_newStreamObject : pres.

(** *** Properties of the trace *)

Section TraceProperties.
Variable Q : list Event -> Prop.

Lemma onTrace_updateStream s f : preserves (onTrace Q) (updateStream s f).
Proof.
  intros w H. unfold updateStream, bind, getStream.
  destruct (streams w !! s); exact H.
Qed.

Lemma onTrace_setReader r rd : preserves (onTrace Q) (setReader r rd).
Proof. intros w H. exact H. Qed.

Lemma onTrace_allocPromise c : preserves (onTrace Q) (allocPromise c).
Proof. intros w H. exact H. Qed.

Lemma onTrace_InitializeReadableStream s : preserves (onTrace Q) (InitializeReadableStream s).
Proof. intros w H. exact H. Qed.

Lemma onTrace_logEvent ev : stable Q ev -> preserves (onTrace Q) (logEvent ev).
Proof. intros Hev w H. now apply Hev. Qed.

Lemma onTrace_resolvePromise p v :
  stable Q (EvResolve p v) -> preserves (onTrace Q) (resolvePromise p v).
Proof. intros Hev w H. now apply Hev. Qed.

Lemma onTrace_rejectPromise p e :
  stable Q (EvReject p e) -> preserves (onTrace Q) (rejectPromise p e).
Proof. intros Hev w H. now apply Hev. Qed.

Hypothesis Hquiet : quiet Q.

Lemma quiet_stable ev : isCancelCall ev = false -> stable Q ev.
Proof. apply Hquiet. Qed.

Ltac quiet_prim :=
  first
    [ apply onTrace_updateStream | apply onTrace_setReader | apply onTrace_allocPromise
    | apply onTrace_InitializeReadableStream
    | apply onTrace_logEvent; apply quiet_stable; reflexivity
    | apply onTrace_resolvePromise; apply quiet_stable; reflexivity
    | apply onTrace_rejectPromise; apply quiet_stable; reflexivity
    | solve [auto with pres] ].

Ltac quiet_auto := repeat first [pres_step | quiet_prim].

Lemma quiet_ReadableStreamClose s : preserves (onTrace Q) (ReadableStreamClose s).
Proof.
  unfold ReadableStreamClose, defaultReaderClosedPromiseResolve, ReadRequest_resolve.
  quiet_auto.
Qed.

Lemma quiet_ReadableStreamError s e : preserves (onTrace Q) (ReadableStreamError s e).
Proof.
  unfold ReadableStreamError, defaultReaderClosedPromiseReject, ReadRequest_reject,
    ReadIntoRequest_reject.
  quiet_auto.
Qed.

Lemma quiet_ReadableStreamDefaultReaderRead r :
  preserves (onTrace Q) (ReadableStreamDefaultReaderRead r).
Proof.
  unfold ReadableStreamDefaultReaderRead, promiseResolvedWith, promiseRejectedWith,
    PullSteps, newPromise.
  quiet_auto.
Qed.

Lemma quiet_afterCancelCall s reason :
  (forall s' r, stable Q (EvCancelSteps s' r)) ->
  preserves (onTrace Q)
    (updateStream s (set_disturbed true) ;;
     stream <- getStream s ;;
     if ReadableStreamState_eqb (_state stream) closed then
       promiseResolvedWith VUndefined
     else if ReadableStreamState_eqb (_state stream) errored then
       promiseRejectedWith (_storedError stream)
     else
       ReadableStreamClose s ;;
       sourceCancelPromise <- CancelSteps s reason ;;
       transformPromiseWith sourceCancelPromise noop).
Proof.
  intros Hsteps.
  unfold promiseResolvedWith, promiseRejectedWith, CancelSteps, newPromise,
    transformPromiseWith.
  repeat first [apply quiet_ReadableStreamClose | pres_step | quiet_prim
               | apply onTrace_logEvent; apply Hsteps].
Qed.
End TraceProperties.

(** *** Properties of the streams *)

Lemma disturbedAt_frame {A} s (m : M World A) :
  (forall w, streams (snd (m w)) = streams w) -> preserves (disturbedAt s) m.
Proof. intros Hm w (st & H1 & H2). exists st. now rewrite Hm. Qed.

Lemma disturbedAt_updateStream s s' f :
  (forall st, _disturbed st = true -> _disturbed (f st) = true) ->
  preserves (disturbedAt s) (updateStream s' f).
Proof.
  intros Hf w (st & H1 & H2). unfold updateStream, bind, getStream.
  destruct (streams w !! s') as [st'|] eqn:E; unfold disturbedAt; mcbn; [| now exists st].
  destruct (decide (s' = s)) as [->|Hne].
  - exists (f st'). rewrite lookup_insert_eq. split; auto. apply Hf. congruence.
  - exists st. now rewrite lookup_insert_ne.
Qed.

Ltac disturbed_prim :=
  first
    [ apply disturbedAt_updateStream; intros ? ?; assumption
    | apply disturbedAt_frame; intros ?; reflexivity
    | solve [auto with pres] ].

Lemma disturbedAt_ReadableStreamClose s s' :
  preserves (disturbedAt s) (ReadableStreamClose s').
Proof.
  unfold ReadableStreamClose, defaultReaderClosedPromiseResolve, ReadRequest_resolve.
  repeat first [pres_step | disturbed_prim].
Qed.

(** ** Cancelling a stream *)

Lemma cancelStepsCalls_settle s tr evs :
  forallb isSettleEvent evs = true ->
  cancelStepsCalls s (tr ++ evs) = cancelStepsCalls s tr.
Proof.
  intros H. unfold cancelStepsCalls. rewrite omap_app.
  replace (omap _ evs) with (@nil JSValue); [now rewrite app_nil_r |].
  induction evs as [|ev evs IH]; auto.
  simpl in H. apply andb_true_iff in H as [Hev H].
  destruct ev; try discriminate; simpl; auto.
Qed.

Lemma forallb_settle_resolve {A} (f : A -> promise) (v : JSValue) (l : list A) :
  forallb isSettleEvent (map (fun x => EvResolve (f x) v) l) = true.
Proof. induction l; simpl; auto. Qed.

(** Closing a readable stream whose reader, if it has one, is in the store:
    the stream becomes closed and only promises are settled. *)
Lemma ReadableStreamClose_ok w s st :
  streams w !! s = Some st ->
  _state st = readable ->
  readerInStore w st = true ->
  exists w1 evs,
    ReadableStreamClose s w = (Normal tt, w1) /\
    streams w1 = <[s := set_state closed st]> (streams w) /\
    trace w1 = trace w ++ evs /\
    forallb isSettleEvent evs = true /\
    length (promises w1) = length (promises w).
Proof.
  intros Hs Hst Hin. unfold readerInStore in Hin.
  destruct (_reader st) as [r|] eqn:Hr.
  - destruct (readers w !! r) as [rd|] eqn:Hrd; [| discriminate].
    destruct rd as [owner cp reqs fac | owner cp reqs].
    + eexists. eexists. split; [exact (ReadableStreamClose_default _ _ _ _ _ _ _ _ Hs Hst Hr Hrd) |].
      mcbn. split; [reflexivity |]. split; [reflexivity |]. split.
      * rewrite forallb_app, forallb_settle_resolve. reflexivity.
      * now rewrite settleCell_length, settleAll_length.
    + eexists. exists [EvResolve cp VUndefined].
      split; [exact (ReadableStreamClose_byob _ _ _ _ _ _ _ Hs Hst Hr Hrd) |].
      mcbn. repeat split. now rewrite settleCell_length.
  - eexists. exists []. split; [exact (ReadableStreamClose_unlocked _ _ _ Hs Hst Hr) |].
    mcbn. repeat split. now rewrite app_nil_r.
Qed.

Lemma Settles_fulfilled_then w p q f v :
  promises w !! q = Some (ThenOf p f) ->
  Settles w p (SFulfilled v) -> Settles w q (SFulfilled (f v)).
Proof.
  intros Hq (_ & fuel & H). split; [discriminate |].
  exists (S fuel). simpl. now rewrite Hq, H.
Qed.

Lemma Settles_rejected_then w p q f e :
  promises w !! q = Some (ThenOf p f) ->
  Settles w p (SRejected e) -> Settles w q (SRejected e).
Proof.
  intros Hq (_ & fuel & H). split; [discriminate |].
  exists (S fuel). simpl. now rewrite Hq, H.
Qed.

Lemma Settles_then_inv w p q f o :
  promises w !! q = Some (ThenOf p f) ->
  Settles w q o ->
  (exists v, Settles w p (SFulfilled v) /\ o = SFulfilled (f v)) \/
  (exists e, Settles w p (SRejected e) /\ o = SRejected e).
Proof.
  intros Hq (Ho & fuel & H). destruct fuel as [|fuel]; simpl in H; [congruence |].
  rewrite Hq in H.
  destruct (promiseStateAux fuel (promises w) p) as [|v|e] eqn:E; [congruence | |].
  - left. exists v. split; [| congruence]. split; [discriminate | now exists fuel].
  - right. exists e. split; [| congruence]. split; [discriminate | now exists fuel].
Qed.

Lemma disturbedAt_afterDisturb s s' reason :
  preserves (disturbedAt s)
    (stream <- getStream s' ;;
     if ReadableStreamState_eqb (_state stream) closed then
       promiseResolvedWith VUndefined
     else if ReadableStreamState_eqb (_state stream) errored then
       promiseRejectedWith (_storedError stream)
     else
       ReadableStreamClose s' ;;
       sourceCancelPromise <- CancelSteps s' reason ;;
       transformPromiseWith sourceCancelPromise noop).
Proof.
  unfold promiseResolvedWith, promiseRejectedWith, CancelSteps, newPromise,
    transformPromiseWith.
  repeat first [apply disturbedAt_ReadableStreamClose | pres_step | disturbed_prim].
Qed.

(** The world in which [ReadableStreamCancel] looks at the state of the
    stream: the call is recorded and the stream is disturbed. *)
Lemma ReadableStreamCancel_unfold w s st reason :
  streams w !! s = Some st ->
  ReadableStreamCancel s reason w =
  (stream <- getStream s ;;
   if ReadableStreamState_eqb (_state stream) closed then
     promiseResolvedWith VUndefined
   else if ReadableStreamState_eqb (_state stream) errored then
     promiseRejectedWith (_storedError stream)
   else
     ReadableStreamClose s ;;
     sourceCancelPromise <- CancelSteps s reason ;;
     transformPromiseWith sourceCancelPromise noop)
    (withStreams (<[s := set_disturbed true st]> (streams w))
       (withTrace (trace w ++ [EvReadableStreamCancel s reason]) w)).
Proof.
  intros Hs. unfold ReadableStreamCancel.
  unfold bind at 1. unfold logEvent at 1. cbv beta iota.
  unfold bind at 1. erewrite updateStream_eq by (mcbn; exact Hs).
  reflexivity.
Qed.

(** C9.  [ReadableStreamCancel] leaves the stream disturbed in every case,
    whatever the flag was before and whatever the state of the stream; on a
    stream that is closed or errored it returns at once, with a promise
    fulfilled with [undefined] or rejected with the stored error, and the
    cancel steps of the controller are not called. *)
Theorem ReadableStreamCancel_disturbs
  (w : World) (s : streamRef) (st : ReadableStream) (reason : JSValue) :
  streams w !! s = Some st ->
  disturbedAt s (snd (ReadableStreamCancel s reason w)) /\
  (_state st <> readable ->
   exists p w',
     ReadableStreamCancel s reason w = (Normal p, w') /\
     streams w' !! s = Some (set_disturbed true st) /\
     trace w' = trace w ++ [EvReadableStreamCancel s reason] /\
     (forall s', cancelStepsCalls s' (trace w') = cancelStepsCalls s' (trace w)) /\
     promiseState w' p =
       match _state st with
       | closed => SFulfilled VUndefined
       | _ => SRejected (_storedError st)
       end).
Proof.
  intros Hs. rewrite (ReadableStreamCancel_unfold _ _ _ _ Hs). split.
  - apply disturbedAt_afterDisturb. exists (set_disturbed true st). mcbn.
    split; [apply lookup_insert_eq | reflexivity].
  - intros Hst. unfold bind.
    erewrite getStream_eq by (mcbn; apply lookup_insert_eq). mcbn.
    assert (Hcalls : forall s', cancelStepsCalls s' (trace w ++ [EvReadableStreamCancel s reason])
                                = cancelStepsCalls s' (trace w)).
    { intros s'. unfold cancelStepsCalls. rewrite omap_app. simpl. apply app_nil_r. }
    destruct (_state st) eqn:E; [congruence | |]; mcbn;
      unfold promiseResolvedWith, promiseRejectedWith, allocPromise; mcbn;
      do 2 eexists; (split; [reflexivity |]); mcbn;
      (split; [apply lookup_insert_eq |]); (split; [reflexivity |]); (split; [exact Hcalls |]).
    + apply promiseState_fulfilled. mcbn. apply lookup_alloc.
    + apply promiseState_rejected. mcbn. apply lookup_alloc.
Qed.

Lemma ReadableStreamCancel_disturbs_witness :
  disturbedAt 10 (snd (ReadableStreamCancel 10 (VString "x") sampleWorld)) /\
  disturbedAt 11 (snd (ReadableStreamCancel 11 (VString "x") sampleWorld)) /\
  disturbedAt 9 (snd (ReadableStreamCancel 9 (VString "x") sampleWorld)) /\
  (exists p w',
      ReadableStreamCancel 10 (VString "x") sampleWorld = (Normal p, w') /\
      cancelStepsCalls 10 (trace w') = [] /\
      promiseState w' p = SFulfilled VUndefined) /\
  (exists p w',
      ReadableStreamCancel 11 (VString "x") sampleWorld = (Normal p, w') /\
      cancelStepsCalls 11 (trace w') = [] /\
      promiseState w' p = SRejected (VString "broken")).
Proof.
  pose proof (ReadableStreamCancel_disturbs sampleWorld 10
                (set_state closed (sampleStream None)) (VString "x") eq_refl) as [H10 K10].
  pose proof (ReadableStreamCancel_disturbs sampleWorld 11
                (set_storedError (VString "broken") (set_state errored (sampleStream None)))
                (VString "x") eq_refl) as [H11 K11].
  pose proof (ReadableStreamCancel_disturbs sampleWorld 9 (sampleStream None)
                (VString "x") eq_refl) as [H9 _].
  repeat split; try assumption.
  - destruct K10 as (p & w' & Hrun & _ & _ & Hcalls & Hp); [simpl; discriminate |].
    exists p, w'. repeat split; auto; now rewrite Hcalls.
  - destruct K11 as (p & w' & Hrun & _ & _ & Hcalls & Hp); [simpl; discriminate |].
    exists p, w'. repeat split; auto; now rewrite Hcalls.
Defined.

(** C5.  Cancelling a readable stream first closes it, then passes the
    reason to the cancel steps of its controller, and returns the promise
    derived from the promise of the cancel steps by [noop]: the returned
    promise is fulfilled with [undefined] once the other is fulfilled,
    whatever its value, is rejected with the same reason once the other is
    rejected, and does not settle before.  On a stream without reader the
    method [cancel] is this operation. *)
Theorem ReadableStreamCancel_readable
  (w : World) (s : streamRef) (st : ReadableStream) (reason : JSValue) :
  streams w !! s = Some st ->
  _state st = readable ->
  readerInStore w st = true ->
  let w0 := withStreams (<[s := set_disturbed true st]> (streams w))
              (withTrace (trace w ++ [EvReadableStreamCancel s reason]) w) in
  exists w1 p w2 q w',
    ReadableStreamClose s w0 = (Normal tt, w1) /\
    streams w1 !! s = Some (set_state closed (set_disturbed true st)) /\
    CancelSteps s reason w1 = (Normal p, w2) /\
    transformPromiseWith p noop w2 = (Normal q, w') /\
    ReadableStreamCancel s reason w = (Normal q, w') /\
    streams w' !! s = Some (set_state closed (set_disturbed true st)) /\
    cancelStepsCalls s (trace w') = cancelStepsCalls s (trace w) ++ [reason] /\
    promises w' !! p = Some Pending /\
    promises w' !! q = Some (ThenOf p noop) /\
    (forall w'',
        promises w'' !! q = Some (ThenOf p noop) ->
        (forall v, Settles w'' p (SFulfilled v) -> Settles w'' q (SFulfilled VUndefined)) /\
        (forall e, Settles w'' p (SRejected e) -> Settles w'' q (SRejected e)) /\
        (forall o, Settles w'' q o ->
                   (exists v, Settles w'' p (SFulfilled v) /\ o = SFulfilled VUndefined) \/
                   (exists e, Settles w'' p (SRejected e) /\ o = SRejected e))) /\
    (_reader st = None ->
     cancel (VReadableStream s) reason w = ReadableStreamCancel s reason w).
Proof.
  intros Hs Hst Hin w0.
  assert (Hs0 : streams w0 !! s = Some (set_disturbed true st))
    by (subst w0; mcbn; apply lookup_insert_eq).
  destruct (ReadableStreamClose_ok w0 s (set_disturbed true st) Hs0 Hst)
    as (w1 & evs & Hclose & Hstreams & Htrace & Hevs & Hlen).
  { subst w0. unfold readerInStore in *. mcbn. exact Hin. }
  assert (Hs1 : streams w1 !! s = Some (set_state closed (set_disturbed true st)))
    by (rewrite Hstreams; apply lookup_insert_eq).
  set (p := length (promises w1)).
  set (w2 := withPromises (promises w1 ++ [Pending])
               (withTrace (trace w1 ++ [EvCancelSteps s reason]) w1)).
  set (q := S p).
  set (w' := withPromises (promises w2 ++ [ThenOf p noop]) w2).
  assert (Hq : length (promises w2) = q).
  { subst w2 q p. mcbn. rewrite length_app. simpl. lia. }
  exists w1, p, w2, q, w'.
  split; [exact Hclose |]. split; [exact Hs1 |].
  split; [reflexivity |].
  split.
  { unfold transformPromiseWith, allocPromise. now rewrite Hq. }
  split.
  { rewrite (ReadableStreamCancel_unfold _ _ _ _ Hs). fold w0.
    unfold bind at 1. rewrite (getStream_eq _ _ _ Hs0). mcbn. rewrite Hst. mcbn.
    unfold bind at 1. rewrite Hclose. unfold bind at 1.
    replace (CancelSteps s reason w1) with (Normal p, w2) by reflexivity.
    unfold transformPromiseWith, allocPromise. now rewrite Hq. }
  subst w' w2. mcbn. split; [exact Hs1 |].
  split.
  { rewrite Htrace. subst w0. mcbn. unfold cancelStepsCalls at 1.
    rewrite omap_app. fold (cancelStepsCalls s ((trace w ++ [EvReadableStreamCancel s reason]) ++ evs)).
    rewrite cancelStepsCalls_settle by exact Hevs.
    unfold cancelStepsCalls at 1. rewrite omap_app. simpl.
    rewrite Nat.eqb_refl. now rewrite app_nil_r. }
  split.
  { rewrite lookup_app_l by (rewrite length_app; simpl; lia). apply lookup_alloc. }
  split.
  { subst q p.
    replace (S (length (promises w1))) with (length (promises w1 ++ [Pending]))
      by (rewrite length_app; simpl; lia).
    apply lookup_alloc. }
  split.
  { intros w'' Hq'. split; [| split].
    - intros v Hp. exact (Settles_fulfilled_then _ _ _ _ _ Hq' Hp).
    - intros e Hp. exact (Settles_rejected_then _ _ _ _ _ Hq' Hp).
    - intros o Ho. exact (Settles_then_inv _ _ _ _ _ Hq' Ho). }
  intros Hr. unfold cancel, IsReadableStreamLocked, bind.
  rewrite (getStream_eq _ _ _ Hs), Hr. reflexivity.
Qed.

Lemma ReadableStreamCancel_readable_witness :
  exists p q w',
    ReadableStreamCancel 7 (VString "x") sampleWorld = (Normal q, w') /\
    cancelStepsCalls 7 (trace w') = [VString "x"] /\
    promises w' !! q = Some (ThenOf p noop) /\
    (forall v, Settles w' p (SFulfilled v) -> Settles w' q (SFulfilled VUndefined)).
Proof.
  destruct (ReadableStreamCancel_readable sampleWorld 7 (sampleStream (Some 3)) (VString "x")
              eq_refl eq_refl eq_refl)
    as (w1 & p & w2 & q & w' & _ & _ & _ & _ & Hrun & _ & Hcalls & _ & Hq & Hsettle & _).
  exists p, q, w'. split; [exact Hrun |]. split; [exact Hcalls |]. split; [exact Hq |].
  exact (proj1 (Hsettle w' Hq)).
Defined.

(** ** The pipe methods on a locked stream *)

Lemma IsReadableStreamLocked_eq w s st :
  streams w !! s = Some st ->
  IsReadableStreamLocked s w = (Normal (hasReader st), w).
Proof.
  intros H. unfold IsReadableStreamLocked, bind, hasReader.
  rewrite (getStream_eq _ _ _ H). now destruct (_reader st).
Qed.

Lemma IsWritableStreamLocked_eq w d ws :
  writables w !! d = Some ws ->
  IsWritableStreamLocked d w = (Normal (hasWriter ws), w).
Proof.
  intros H. unfold IsWritableStreamLocked, bind, getWritable, hasWriter.
  rewrite H. now destruct (_writer ws).
Qed.

(** C7, as the code has it.  On a readable stream that is locked, or with a
    destination that is locked, [pipeThrough] throws, and with arguments valid
    otherwise what it throws is the locked-stream error; [pipeTo] does not
    throw: it returns a new promise that is already rejected, with the
    locked-stream error when the arguments are valid otherwise.  In both
    cases the store is otherwise unchanged: the piping algorithm is not
    started.  [pipeTo] never throws on streams of the store, and on streams
    that are not locked it returns the promise of the piping algorithm. *)
Theorem pipe_on_locked_stream
  (w : World) (s : streamRef) (st : ReadableStream) (d : writableRef) (ws : WritableStream)
  (transform : ReadableWritablePair) (options : OptionsArgument) :
  streams w !! s = Some st ->
  writables w !! d = Some ws ->
  pair_writable transform = VWritableStream d ->
  (hasReader st || hasWriter ws = true ->
   (exists e, pipeThrough (VReadableStream s) transform options w = (Throw e, w)) /\
   (IsReadableStream (pair_readable transform) = true ->
    validOptions options = true ->
    pipeThrough (VReadableStream s) transform options w =
    (Throw (lockedError "pipeThrough" (hasReader st)), w)) /\
   (exists e,
       pipeTo (VReadableStream s) (VWritableStream d) options w =
       (Normal (length (promises w)), withPromises (promises w ++ [Rejected e]) w)) /\
   (validOptions options = true ->
    pipeTo (VReadableStream s) (VWritableStream d) options w =
    (Normal (length (promises w)),
     withPromises (promises w ++ [Rejected (lockedError "pipeTo" (hasReader st))]) w))) /\
  (exists p w', pipeTo (VReadableStream s) (VWritableStream d) options w = (Normal p, w')) /\
  (hasReader st || hasWriter ws = false ->
   forall o, destructure options = Normal o ->
   validOptions options = true ->
   pipeTo (VReadableStream s) (VWritableStream d) options w =
   ReadableStreamPipeTo s d (JS_Boolean (preventClose o)) (JS_Boolean (preventAbort o))
     (JS_Boolean (preventCancel o)) (signal o) w).
Proof.
  intros Hs Hd Hw.
  assert (HpipeTo : forall b,
    (thisLocked <- IsReadableStreamLocked s ;;
     if thisLocked then
       promiseRejectedWith (VError TypeError
         "ReadableStream.prototype.pipeTo cannot be used on a locked ReadableStream")
     else
       destLocked <- IsWritableStreamLocked d ;;
       if destLocked then
         promiseRejectedWith (VError TypeError
           "ReadableStream.prototype.pipeTo cannot be used on a locked WritableStream")
       else b) w =
    if hasReader st || hasWriter ws then
      (Normal (length (promises w)),
       withPromises (promises w ++ [Rejected (lockedError "pipeTo" (hasReader st))]) w)
    else b w).
  { intros b. unfold bind. rewrite (IsReadableStreamLocked_eq _ _ _ Hs).
    destruct (hasReader st); [reflexivity |].
    rewrite (IsWritableStreamLocked_eq _ _ _ Hd).
    destruct (hasWriter ws); reflexivity. }
  assert (HpipeThrough : forall b,
    (thisLocked <- IsReadableStreamLocked s ;;
     if thisLocked then
       throw (VError TypeError
         "ReadableStream.prototype.pipeThrough cannot be used on a locked ReadableStream")
     else
       writableLocked <- IsWritableStreamLocked d ;;
       if writableLocked then
         throw (VError TypeError
           "ReadableStream.prototype.pipeThrough cannot be used on a locked WritableStream")
       else b) w =
    if hasReader st || hasWriter ws then
      (Throw (lockedError "pipeThrough" (hasReader st)) : Completion JSValue, w)
    else b w).
  { intros b. unfold bind. rewrite (IsReadableStreamLocked_eq _ _ _ Hs).
    destruct (hasReader st); [reflexivity |].
    rewrite (IsWritableStreamLocked_eq _ _ _ Hd).
    destruct (hasWriter ws); reflexivity. }
  split; [| split].
  - intros Hlocked. repeat split.
    + unfold pipeThrough. rewrite Hw.
      destruct (IsReadableStream (pair_readable transform)); mcbn; [| eexists; reflexivity].
      unfold bind at 1, liftCompletion.
      destruct (destructure options) as [o|e]; [| eexists; reflexivity].
      destruct (negb (isUndefined (signal o)) && negb (isAbortSignal (signal o)));
        [eexists; reflexivity |].
      rewrite HpipeThrough, Hlocked. eexists; reflexivity.
    + intros Hr Hv. unfold pipeThrough. rewrite Hw, Hr. mcbn.
      unfold validOptions in Hv. unfold bind at 1, liftCompletion.
      destruct (destructure options) as [o|e]; [| discriminate].
      replace (negb (isUndefined (signal o)) && negb (isAbortSignal (signal o))) with false
        by (destruct (isUndefined (signal o)), (isAbortSignal (signal o)); simpl in *; congruence).
      now rewrite HpipeThrough, Hlocked.
    + unfold pipeTo.
      destruct (destructure options) as [o|e]; [| eexists; reflexivity].
      destruct (negb (isUndefined (signal o)) && negb (isAbortSignal (signal o)));
        [eexists; reflexivity |].
      rewrite HpipeTo, Hlocked. eexists; reflexivity.
    + intros Hv. unfold pipeTo. unfold validOptions in Hv.
      destruct (destructure options) as [o|e]; [| discriminate].
      replace (negb (isUndefined (signal o)) && negb (isAbortSignal (signal o))) with false
        by (destruct (isUndefined (signal o)), (isAbortSignal (signal o)); simpl in *; congruence).
      now rewrite HpipeTo, Hlocked.
  - unfold pipeTo.
    destruct (destructure options) as [o|e]; [| do 2 eexists; reflexivity].
    destruct (negb (isUndefined (signal o)) && negb (isAbortSignal (signal o)));
      [do 2 eexists; reflexivity |].
    rewrite HpipeTo. destruct (hasReader st || hasWriter ws); do 2 eexists; reflexivity.
  - intros Hfree o Ho Hv. unfold pipeTo. unfold validOptions in Hv. rewrite Ho in *.
    replace (negb (isUndefined (signal o)) && negb (isAbortSignal (signal o))) with false
      by (destruct (isUndefined (signal o)), (isAbortSignal (signal o)); simpl in *; congruence).
    now rewrite HpipeTo, Hfree.
Qed.

Lemma pipe_on_locked_stream_witness :
  pipeThrough (VReadableStream 7)
    {| pair_readable := VReadableStream 9; pair_writable := VWritableStream 2 |}
    OptionsOmitted sampleWorld =
  (Throw (lockedError "pipeThrough" true), sampleWorld) /\
  pipeTo (VReadableStream 9) (VWritableStream 1) OptionsOmitted sampleWorld =
  (Normal 7,
   withPromises (promises sampleWorld ++ [Rejected (lockedError "pipeTo" false)]) sampleWorld) /\
  pipeTo (VReadableStream 9) (VWritableStream 2) OptionsOmitted sampleWorld =
  ReadableStreamPipeTo 9 2 false false false VUndefined sampleWorld.
Proof.
  split; [| split].
  - destruct (pipe_on_locked_stream sampleWorld 7 (sampleStream (Some 3)) 2
                {| _writer := None |}
                {| pair_readable := VReadableStream 9; pair_writable := VWritableStream 2 |}
                OptionsOmitted eq_refl eq_refl eq_refl) as (Hlocked & _ & _).
    destruct (Hlocked eq_refl) as (_ & Hthrow & _).
    exact (Hthrow eq_refl eq_refl).
  - destruct (pipe_on_locked_stream sampleWorld 9 (sampleStream None) 1
                {| _writer := Some 0 |}
                {| pair_readable := VReadableStream 9; pair_writable := VWritableStream 1 |}
                OptionsOmitted eq_refl eq_refl eq_refl) as (Hlocked & _ & _).
    destruct (Hlocked eq_refl) as (_ & _ & _ & Hreject).
    exact (Hreject eq_refl).
  - destruct (pipe_on_locked_stream sampleWorld 9 (sampleStream None) 2
                {| _writer := None |}
                {| pair_readable := VReadableStream 9; pair_writable := VWritableStream 2 |}
                OptionsOmitted eq_refl eq_refl eq_refl) as (_ & _ & Hfree).
    exact (Hfree eq_refl emptyOptions eq_refl eq_refl).
Defined.

(** C7, as claimed, fails for [pipeTo]: on the locked stream 7 the call does
    not throw; it returns a promise, rejected with the locked-stream error. *)
Lemma pipeTo_locked_does_not_throw :
  (~ exists e w',
       pipeTo (VReadableStream 7) (VWritableStream 2) OptionsOmitted sampleWorld
       = (Throw e, w')) /\
  exists w',
    pipeTo (VReadableStream 7) (VWritableStream 2) OptionsOmitted sampleWorld
    = (Normal 7, w') /\
    promiseState w' 7 = SRejected (lockedError "pipeTo" true) /\
    trace w' = trace sampleWorld.
Proof.
  split.
  - intros (e & w' & H). vm_compute in H. discriminate H.
  - eexists. split; [vm_compute; reflexivity |]. split; reflexivity.
Qed.

(** ** The constructor *)

Section Constructor.
Variable NumberToString : spec_float -> string.

Lemma ReadableStream_constructor_unfold this underlyingSource strategy w typeString :
  JS_String NumberToString (type underlyingSource) = Normal typeString ->
  ReadableStream_constructor NumberToString this underlyingSource strategy w =
  (if String.eqb typeString "bytes" then
     if negb (isUndefined (strategy_size strategy)) then
       throw (VError RangeError "The strategy for a byte stream cannot have a size function")
     else
       highWaterMark <- ValidateAndNormalizeHighWaterMark
                          (match strategy_highWaterMark strategy with
                           | None => posZero
                           | Some h => h
                           end) ;;
       SetUpReadableByteStreamControllerFromUnderlyingSource this highWaterMark
   else if isUndefined (type underlyingSource) then
     sizeAlgorithm <- MakeSizeAlgorithmFromSizeFunction (strategy_size strategy) ;;
     highWaterMark <- ValidateAndNormalizeHighWaterMark
                        (match strategy_highWaterMark strategy with
                         | None => numberOne
                         | Some h => h
                         end) ;;
     SetUpReadableStreamDefaultControllerFromUnderlyingSource this highWaterMark
       sizeAlgorithm
   else
     throw (VError TypeError "Invalid type is specified")) (initialized this w).
Proof.
  intros H. unfold ReadableStream_constructor.
  unfold bind at 1. unfold InitializeReadableStream at 1. cbv beta iota zeta.
  unfold bind at 1, liftCompletion. rewrite H. reflexivity.
Qed.

(** C6, as the code has it.  The type of the source is read through its
    conversion to a string.  When the conversion is ['bytes'], a strategy
    with a size is refused with a RangeError, and an omitted high water
    mark is 0.  When the type is [undefined], an omitted high water mark is
    1 and an omitted size is the constant 1.  A type that is not
    [undefined] and whose conversion is not ['bytes'] is refused with a
    TypeError.  Both errors are thrown by the constructor, before any
    controller is set up. *)
Theorem ReadableStream_constructor_configuration
  (this : streamRef) (underlyingSource : UnderlyingSource) (strategy : QueuingStrategy)
  (w : World) :
  JS_String NumberToString (VString "bytes") = Normal "bytes" /\
  (JS_String NumberToString (type underlyingSource) = Normal "bytes" ->
   (strategy_size strategy <> VUndefined ->
    ReadableStream_constructor NumberToString this underlyingSource strategy w =
    (Throw (VError RangeError "The strategy for a byte stream cannot have a size function"),
     initialized this w)) /\
   (strategy_size strategy = VUndefined ->
    strategy_highWaterMark strategy = None ->
    ReadableStream_constructor NumberToString this underlyingSource strategy w =
    (Normal tt,
     withTrace (trace w ++ [EvSetUpByteController this posZero]) (initialized this w)))) /\
  (type underlyingSource = VUndefined ->
   (strategy_highWaterMark strategy = None ->
    forall sizeAlgorithm,
      MakeSizeAlgorithmFromSizeFunction (strategy_size strategy) (initialized this w)
      = (Normal sizeAlgorithm, initialized this w) ->
      ReadableStream_constructor NumberToString this underlyingSource strategy w =
      (Normal tt,
       withTrace (trace w ++ [EvSetUpDefaultController this numberOne sizeAlgorithm])
         (initialized this w))) /\
   (strategy_size strategy = VUndefined ->
    forall highWaterMark,
      strategy_highWaterMark strategy = Some highWaterMark ->
      IsNonNegativeNumber (VNumber highWaterMark) = true ->
      ReadableStream_constructor NumberToString this underlyingSource strategy w =
      (Normal tt,
       withTrace (trace w ++ [EvSetUpDefaultController this highWaterMark ConstantOne])
         (initialized this w))) /\
   (strategy_size strategy = VUndefined ->
    strategy_highWaterMark strategy = None ->
    ReadableStream_constructor NumberToString this underlyingSource strategy w =
    (Normal tt,
     withTrace (trace w ++ [EvSetUpDefaultController this numberOne ConstantOne])
       (initialized this w)))) /\
  (forall typeString,
      JS_String NumberToString (type underlyingSource) = Normal typeString ->
      typeString <> "bytes" ->
      type underlyingSource <> VUndefined ->
      ReadableStream_constructor NumberToString this underlyingSource strategy w =
      (Throw (VError TypeError "Invalid type is specified"), initialized this w)).
Proof.
  split; [reflexivity |]. split; [| split].
  - intros Hty. rewrite (ReadableStream_constructor_unfold _ _ _ _ _ Hty).
    change (String.eqb "bytes" "bytes") with true. cbv iota. split.
    + intros Hsize. destruct (strategy_size strategy); try congruence; reflexivity.
    + intros -> ->. reflexivity.
  - intros Hty.
    assert (Hstr : JS_String NumberToString (type underlyingSource) = Normal "undefined")
      by now rewrite Hty.
    rewrite (ReadableStream_constructor_unfold _ _ _ _ _ Hstr), Hty.
    change (String.eqb "undefined" "bytes") with false.
    change (isUndefined VUndefined) with true. cbv iota.
    split; [| split].
    + intros -> sizeAlgorithm Hsize. unfold bind at 1. rewrite Hsize. reflexivity.
    + intros -> highWaterMark -> Hh. simpl MakeSizeAlgorithmFromSizeFunction.
      unfold bind at 1, ret at 1. unfold ValidateAndNormalizeHighWaterMark.
      simpl in Hh.
      destruct (NumberIsNaN highWaterMark); [discriminate |].
      destruct (numberLt highWaterMark posZero); [discriminate |]. reflexivity.
    + intros -> ->. reflexivity.
  - intros typeString Hstr Hne Hty.
    rewrite (ReadableStream_constructor_unfold _ _ _ _ _ Hstr).
    apply String.eqb_neq in Hne. rewrite Hne.
    destruct (type underlyingSource); try congruence; reflexivity.
Qed.
End Constructor.

Lemma ReadableStream_constructor_configuration_witness :
  ReadableStream_constructor sampleNumberToString 12 {| type := VString "bytes" |}
    {| strategy_size := VFunction 0 "chunk => chunk.length"; strategy_highWaterMark := None |}
    sampleWorld =
  (Throw (VError RangeError "The strategy for a byte stream cannot have a size function"),
   initialized 12 sampleWorld) /\
  ReadableStream_constructor sampleNumberToString 12 {| type := VString "bytes" |}
    {| strategy_size := VUndefined; strategy_highWaterMark := None |} sampleWorld =
  (Normal tt,
   withTrace [EvSetUpByteController 12 posZero] (initialized 12 sampleWorld)) /\
  ReadableStream_constructor sampleNumberToString 12 {| type := VUndefined |}
    {| strategy_size := VUndefined; strategy_highWaterMark := None |} sampleWorld =
  (Normal tt,
   withTrace [EvSetUpDefaultController 12 numberOne ConstantOne] (initialized 12 sampleWorld)) /\
  ReadableStream_constructor sampleNumberToString 12 {| type := VString "text" |}
    {| strategy_size := VUndefined; strategy_highWaterMark := None |} sampleWorld =
  (Throw (VError TypeError "Invalid type is specified"), initialized 12 sampleWorld) /\
  ReadableStream_constructor sampleNumberToString 12 {| type := VUndefined |}
    {| strategy_size := VFunction 0 "chunk => chunk.length"; strategy_highWaterMark := None |}
    sampleWorld =
  (Normal tt,
   withTrace [EvSetUpDefaultController 12 numberOne (SizeFunction 0)]
     (initialized 12 sampleWorld)) /\
  ReadableStream_constructor sampleNumberToString 12 {| type := VUndefined |}
    {| strategy_size := VUndefined; strategy_highWaterMark := Some posInfinity |} sampleWorld =
  (Normal tt,
   withTrace [EvSetUpDefaultController 12 posInfinity ConstantOne]
     (initialized 12 sampleWorld)).
Proof.
  split; [| split; [| split; [| split; [| split]]]].
  - destruct (ReadableStream_constructor_configuration sampleNumberToString 12
                {| type := VString "bytes" |}
                {| strategy_size := VFunction 0 "chunk => chunk.length";
                   strategy_highWaterMark := None |} sampleWorld) as (_ & Hbytes & _).
    destruct (Hbytes eq_refl) as [Hsize _]. apply Hsize. discriminate.
  - destruct (ReadableStream_constructor_configuration sampleNumberToString 12
                {| type := VString "bytes" |}
                {| strategy_size := VUndefined; strategy_highWaterMark := None |}
                sampleWorld) as (_ & Hbytes & _).
    destruct (Hbytes eq_refl) as [_ Hdefault]. exact (Hdefault eq_refl eq_refl).
  - destruct (ReadableStream_constructor_configuration sampleNumberToString 12
                {| type := VUndefined |}
                {| strategy_size := VUndefined; strategy_highWaterMark := None |}
                sampleWorld) as (_ & _ & Hdefault & _).
    destruct (Hdefault eq_refl) as (_ & _ & Hboth). exact (Hboth eq_refl eq_refl).
  - destruct (ReadableStream_constructor_configuration sampleNumberToString 12
                {| type := VString "text" |}
                {| strategy_size := VUndefined; strategy_highWaterMark := None |}
                sampleWorld) as (_ & _ & _ & Hother).
    apply (Hother "text"); [reflexivity | discriminate | discriminate].
  - destruct (ReadableStream_constructor_configuration sampleNumberToString 12
                {| type := VUndefined |}
                {| strategy_size := VFunction 0 "chunk => chunk.length";
                   strategy_highWaterMark := None |} sampleWorld) as (_ & _ & Hdefault & _).
    destruct (Hdefault eq_refl) as (Hmark & _ & _).
    exact (Hmark eq_refl (SizeFunction 0) eq_refl).
  - destruct (ReadableStream_constructor_configuration sampleNumberToString 12
                {| type := VUndefined |}
                {| strategy_size := VUndefined; strategy_highWaterMark := Some posInfinity |}
                sampleWorld) as (_ & _ & Hdefault & _).
    destruct (Hdefault eq_refl) as (_ & Hsize & _).
    exact (Hsize eq_refl posInfinity eq_refl eq_refl).
Defined.

(** C6, as claimed, fails for a type that is neither ['bytes'] nor
    [undefined] but converts to the string ['bytes'], such as the array
    [['bytes']]: the constructor sets up a byte stream. *)
Lemma ReadableStream_constructor_accepts_array_type :
  VArray [VString "bytes"] <> VString "bytes" /\
  VArray [VString "bytes"] <> VUndefined /\
  ReadableStream_constructor sampleNumberToString 12 {| type := VArray [VString "bytes"] |}
    {| strategy_size := VUndefined; strategy_highWaterMark := None |} sampleWorld =
  (Normal tt,
   withTrace [EvSetUpByteController 12 posZero] (initialized 12 sampleWorld)) /\
  ~ (exists e w',
        ReadableStream_constructor sampleNumberToString 12
          {| type := VArray [VString "bytes"] |}
          {| strategy_size := VUndefined; strategy_highWaterMark := None |} sampleWorld =
        (Throw e, w')).
Proof.
  split; [discriminate |]. split; [discriminate |]. split; [reflexivity |].
  intros (e & w' & H). discriminate H.
Qed.


(** ** The teeing algorithm: reads *)

Lemma preserves_liftW_fst {A} (P : TeeState -> Prop) (m : M World A) :
  preserves (fun tw : TeeWorld => P (fst tw)) (liftW m).
Proof. intros [t w] H. unfold liftW. simpl. now destruct (m w). Qed.

Lemma preserves_getTee (P : TeeWorld -> Prop) : preserves P getTee.
Proof. intros tw H. exact H. Qed.

Lemma preserves_updateTee_fst (P : TeeState -> Prop) (f : TeeState -> TeeState) :
  (forall t, P t -> P (f t)) ->
  preserves (fun tw : TeeWorld => P (fst tw)) (updateTee f).
Proof. intros Hf [t w] H. simpl. now apply Hf. Qed.

Lemma preserves_asValue {S} (P : S -> Prop) (m : M S promise) :
  preserves P m -> preserves P (asValue m).
Proof. intros H. unfold asValue. apply preserves_bind; auto. intros a. apply preserves_ret. Qed.

Lemma preserves_asUndefined {S} (P : S -> Prop) (m : M S unit) :
  preserves P m -> preserves P (asUndefined m).
Proof.
  intros H. unfold asUndefined. apply preserves_bind; auto. intros a. apply preserves_ret.
Qed.

Ltac tee_prim P :=
  first
    [ apply (preserves_liftW_fst P)
    | apply preserves_getTee
    | apply (preserves_updateTee_fst P); intros ? ?; assumption
    | apply preserves_asValue
    | apply preserves_asUndefined ].

Lemma singleRead_readFulfilled result :
  preserves (fun tw : TeeWorld => readReactions (fst tw) = []) (readFulfilled result).
Proof.
  unfold readFulfilled.
  repeat first [pres_step | tee_prim (fun t => readReactions t = [])].
Qed.

Lemma removeReaction_single p l :
  length l <= 1 -> existsb (Nat.eqb p) l = true -> removeReaction p l = [].
Proof.
  destruct l as [|q [|q' l]]; simpl; try lia; try discriminate.
  intros _ H. rewrite orb_false_r in H. apply Nat.eqb_eq in H. subst q.
  now rewrite Nat.eqb_refl.
Qed.

Lemma singleRead_of_none t : readReactions t = [] -> singleRead t.
Proof. intros H. unfold singleRead. rewrite H. simpl. split; [lia | congruence]. Qed.

Lemma singleRead_pullAlgorithm :
  preserves (fun tw : TeeWorld => singleRead (fst tw)) pullAlgorithm.
Proof.
  intros [t w] H. change (singleRead t) in H.
  unfold pullAlgorithm. unfold bind at 1, getTee at 1. cbv beta iota.
  change (fst (t, w)) with t.
  destruct (reading t) eqn:Hreading.
  - now apply (preserves_liftW_fst singleRead).
  - assert (Hnone : readReactions t = []).
    { destruct H as [_ H]. destruct (readReactions t); auto.
      assert (false = true) by (rewrite <- Hreading; apply H; discriminate). discriminate. }
    unfold bind at 1, updateTee at 1. cbv beta iota. change (fst (t, w)) with t.
    change (snd (t, w)) with w.
    unfold bind at 1, liftW at 1. mcbn.
    destruct (ReadableStreamDefaultReaderRead (reader t) w) as [[readPromise|e] w1].
    + unfold bind at 1, updateTee at 1. cbv beta iota. mcbn.
      apply (preserves_liftW_fst singleRead). simpl. rewrite Hnone. simpl.
      split; simpl; [lia | reflexivity].
    + simpl. apply singleRead_of_none. exact Hnone.
Qed.

Lemma singleRead_readReactionJob p :
  preserves (fun tw : TeeWorld => singleRead (fst tw)) (readReactionJob p).
Proof.
  intros [t w] H. change (singleRead t) in H.
  unfold readReactionJob. unfold bind at 1, getTee at 1. cbv beta iota.
  change (fst (t, w)) with t.
  destruct (existsb (Nat.eqb p) (readReactions t)) eqn:Hin; [| exact H].
  pose proof (removeReaction_single p _ (proj1 H) Hin) as Hnone.
  change (snd (t, w)) with w.
  destruct (promiseState w p) as [|result|e]; [exact H | |].
  - apply singleRead_of_none. unfold bind, updateTee. cbv beta iota.
    apply (singleRead_readFulfilled result). exact Hnone.
  - apply singleRead_of_none. exact Hnone.
Qed.

Lemma singleRead_teeStep ev :
  preserves (fun tw : TeeWorld => singleRead (fst tw)) (teeStep ev).
Proof.
  destruct ev; unfold teeStep.
  - apply preserves_asValue, singleRead_pullAlgorithm.
  - unfold cancel1Algorithm. repeat first [pres_step | tee_prim singleRead].
  - unfold cancel2Algorithm. repeat first [pres_step | tee_prim singleRead].
  - repeat first [pres_step | tee_prim singleRead].
  - repeat first [pres_step | tee_prim singleRead].
  - repeat first [pres_step | tee_prim singleRead].
  - repeat first [pres_step | tee_prim singleRead].
  - apply preserves_asUndefined, singleRead_readReactionJob.
  - unfold closedReactionJob, closedRejected.
    apply preserves_asUndefined. apply preserves_bind; [apply preserves_getTee | intros t].
    destruct (closedReaction t); [| apply preserves_ret].
    apply preserves_bind; [apply (preserves_liftW_fst singleRead) | intros rd].
    intros tw H.
    destruct (promiseState (snd tw) (closedPromiseOf rd)); [exact H | |].
    + revert tw H. tee_prim singleRead.
    + revert tw H. repeat first [pres_step | tee_prim singleRead].
Qed.

Lemma teeRun_preserves (P : TeeWorld -> Prop) :
  (forall ev, preserves P (teeStep ev)) ->
  forall evs tw, P tw -> P (snd (teeRun evs tw)).
Proof.
  intros Hstep evs. induction evs as [|ev evs IH]; intros tw H; [exact H |].
  simpl. specialize (Hstep ev tw H).
  destruct (teeStep ev tw) as [c tw']. simpl in Hstep.
  specialize (IH tw' Hstep). destruct (teeRun evs tw') as [cs tw'']. exact IH.
Qed.

Lemma CreateReadableStream_default w :
  CreateReadableStream numberOne ConstantOne w =
  (Normal (fresh (dom (streams w))),
   withTrace (trace w ++ [EvSetUpDefaultController (fresh (dom (streams w))) numberOne
                            ConstantOne])
     (snd (InitializeReadableStream (fresh (dom (streams w))) w))).
Proof. reflexivity. Qed.

Lemma ReadableStreamTee_initial s cloneForBranch2 r w :
  exists t w',
    ReadableStreamTee s cloneForBranch2 r w = (Normal t, w') /\
    stream t = s /\ reader t = r /\
    reading t = false /\ canceled1 t = false /\ canceled2 t = false /\
    readReactions t = [] /\
    cancelPromise t = length (promises w) /\
    promises w' !! cancelPromise t = Some Pending /\
    trace w' = trace w
               ++ [EvSetUpDefaultController (branch1 t) numberOne ConstantOne;
                   EvSetUpDefaultController (branch2 t) numberOne ConstantOne].
Proof.
  unfold ReadableStreamTee. unfold bind at 1. unfold newPromise, allocPromise.
  cbv beta iota. unfold bind at 1. rewrite CreateReadableStream_default.
  cbv beta iota. unfold bind at 1. rewrite CreateReadableStream_default.
  cbv beta iota. unfold ret. do 2 eexists. split; [reflexivity |].
  mcbn. cbn [stream reader reading canceled1 canceled2 readReactions cancelPromise
             branch1 branch2 InitializeReadableStream].
  mcbn. repeat split; auto.
  - apply lookup_alloc.
  - now rewrite <- app_assoc.
Qed.

Lemma readFulfilled_fanOut t w value done forAuthorCode :
  readFulfilled (VReadResult value done forAuthorCode) (t, w) =
  (Normal tt,
   (set_reading false t,
    withTrace
      (trace w ++ fanOut t (fun b => if done then EvControllerClose b
                                     else EvControllerEnqueue b value)) w)).
Proof.
  unfold readFulfilled, fanOut, bind, updateTee, assert, typeIsObject, getTee, when, liftW,
    ReadableStreamDefaultControllerClose, ReadableStreamDefaultControllerEnqueue, logEvent,
    ret.
  destruct done; simpl; destruct (canceled1 t); simpl; destruct (canceled2 t); simpl;
    unfold withTrace; simpl; rewrite ?app_nil_r, <- ?app_assoc; simpl;
    rewrite ?World_eta; reflexivity.
Qed.

(** C2.  A tee starts without outstanding read, and whatever happens to it
    at most one read of the source is outstanding, during which it is
    [reading].  While it is [reading], [pullAlgorithm] only returns a
    resolved promise: nothing else changes and no read is issued.  Otherwise
    it issues one read and registers its handler.  When the read promise is
    fulfilled the handler runs on the result: a chunk is enqueued, the same
    value, in the controller of each branch that is not canceled, first
    branch first; the end of the sequence closes the controller of each
    branch that is not canceled. *)
Theorem tee_single_read_fans_out :
  (forall s cloneForBranch2 r w,
      exists t w',
        ReadableStreamTee s cloneForBranch2 r w = (Normal t, w') /\
        reading t = false /\ singleRead t) /\
  (forall evs tw, singleRead (fst tw) -> singleRead (fst (snd (teeRun evs tw)))) /\
  (forall t w,
      reading t = true ->
      pullAlgorithm (t, w) =
      (Normal (length (promises w)),
       (t, withPromises (promises w ++ [Fulfilled VUndefined]) w))) /\
  (forall t w readPromise w1,
      reading t = false ->
      singleRead t ->
      ReadableStreamDefaultReaderRead (reader t) w = (Normal readPromise, w1) ->
      pullAlgorithm (t, w) =
      (Normal (length (promises w1)),
       (set_readReactions [readPromise] (set_reading true t),
        withPromises (promises w1 ++ [Fulfilled VUndefined]) w1))) /\
  (forall t w p result,
      readReactions t = [p] ->
      promiseState w p = SFulfilled result ->
      readReactionJob p (t, w) = readFulfilled result (set_readReactions [] t, w)) /\
  (forall t w value forAuthorCode,
      readFulfilled (VReadResult value false forAuthorCode) (t, w) =
      (Normal tt,
       (set_reading false t,
        withTrace (trace w ++ fanOut t (fun b => EvControllerEnqueue b value)) w))) /\
  (forall t w value forAuthorCode,
      readFulfilled (VReadResult value true forAuthorCode) (t, w) =
      (Normal tt,
       (set_reading false t, withTrace (trace w ++ fanOut t EvControllerClose) w))).
Proof.
  split; [| split; [| split; [| split; [| split; [| split]]]]].
  - intros s c r w.
    destruct (ReadableStreamTee_initial s c r w)
      as (t & w' & Hrun & _ & _ & Hreading & _ & _ & Hnone & _).
    exists t, w'. split; [exact Hrun |]. split; [exact Hreading |].
    now apply singleRead_of_none.
  - intros evs tw. apply (teeRun_preserves (fun tw => singleRead (fst tw))).
    exact singleRead_teeStep.
  - intros t w Hreading. unfold pullAlgorithm, bind, getTee.
    change (fst (t, w)) with t. now rewrite Hreading.
  - intros t w readPromise w1 Hreading [_ Hinv] Hread.
    assert (Hnone : readReactions t = []).
    { destruct (readReactions t); auto.
      assert (false = true) by (rewrite <- Hreading; apply Hinv; discriminate).
      discriminate. }
    unfold pullAlgorithm, bind, getTee, updateTee, liftW. mcbn.
    change (fst (t, w)) with t. rewrite Hreading. mcbn.
    rewrite Hread. unfold promiseResolvedWith, allocPromise. mcbn.
    unfold set_readReactions at 2. simpl. now rewrite Hnone.
  - intros t w p result Ht Hp. unfold readReactionJob, bind, getTee.
    change (fst (t, w)) with t. rewrite Ht.
    replace (existsb (Nat.eqb p) [p]) with true by (simpl; now rewrite Nat.eqb_refl).
    cbv iota beta. mcbn. rewrite Hp. unfold updateTee. mcbn.
    rewrite Ht. unfold removeReaction. simpl. rewrite Nat.eqb_refl. reflexivity.
  - intros t w value fac. exact (readFulfilled_fanOut t w value false fac).
  - intros t w value fac. exact (readFulfilled_fanOut t w value true fac).
Qed.

(** ** The teeing algorithm: cancellation *)

Lemma cancelCalls_snoc s tr ev :
  isCancelCall ev = false -> cancelCalls s (tr ++ [ev]) = cancelCalls s tr.
Proof.
  intros H. unfold cancelCalls. rewrite omap_app.
  destruct ev; try discriminate; simpl; apply app_nil_r.
Qed.

Lemma quiet_cancelCalls s calls : quiet (fun tr => cancelCalls s tr = calls).
Proof. intros ev Hev tr H. now rewrite cancelCalls_snoc. Qed.

Lemma cancelCalls_snoc_steps s tr s' r :
  cancelCalls s (tr ++ [EvCancelSteps s' r]) = cancelCalls s tr.
Proof. unfold cancelCalls. rewrite omap_app. apply app_nil_r. Qed.

Lemma cancelStepsCalls_snoc s tr ev :
  isCancelCall ev = false -> cancelStepsCalls s (tr ++ [ev]) = cancelStepsCalls s tr.
Proof.
  intros H. unfold cancelStepsCalls. rewrite omap_app.
  destruct ev; try discriminate; simpl; apply app_nil_r.
Qed.

Lemma quiet_cancelStepsCalls s steps : quiet (fun tr => cancelStepsCalls s tr = steps).
Proof. intros ev Hev tr H. now rewrite cancelStepsCalls_snoc. Qed.

(** One call of [ReadableStreamCancel] is one recorded call, whatever the
    state of the stream. *)
Lemma cancelCalls_ReadableStreamCancel s reason w :
  cancelCalls s (trace (snd (ReadableStreamCancel s reason w))) =
  cancelCalls s (trace w) ++ [reason].
Proof.
  unfold ReadableStreamCancel. unfold bind at 1. unfold logEvent at 1. cbv beta iota.
  apply (quiet_afterCancelCall _ (quiet_cancelCalls s (cancelCalls s (trace w) ++ [reason]))).
  { intros s' r tr H. now rewrite cancelCalls_snoc_steps. }
  unfold onTrace. mcbn. unfold cancelCalls. rewrite omap_app. simpl.
  now rewrite Nat.eqb_refl.
Qed.

Lemma cancelCalls_ReadableStreamCancel_other s s' reason w :
  s' <> s ->
  cancelCalls s (trace (snd (ReadableStreamCancel s' reason w))) = cancelCalls s (trace w).
Proof.
  intros Hne. unfold ReadableStreamCancel. unfold bind at 1. unfold logEvent at 1.
  cbv beta iota.
  apply (quiet_afterCancelCall _ (quiet_cancelCalls s (cancelCalls s (trace w)))).
  { intros s0 r tr H. now rewrite cancelCalls_snoc_steps. }
  unfold onTrace. mcbn. unfold cancelCalls. rewrite omap_app. simpl.
  apply Nat.eqb_neq in Hne. rewrite Hne. apply app_nil_r.
Qed.

Section TeeFrame.
Variable P : TeeWorld -> Prop.
Hypothesis HP : teeFrame P.

Lemma frame_liftW {A} (m : M World A) :
  (forall Q, quiet Q -> preserves (onTrace Q) m) -> preserves P (liftW m).
Proof.
  intros Hm [t w] H. unfold liftW. simpl.
  destruct HP as (_ & _ & _ & Hworld).
  specialize (Hworld t A m Hm w H). now destruct (m w).
Qed.

Lemma frame_set_reading v : preserves P (updateTee (set_reading v)).
Proof. intros [t w] H. simpl. now apply HP. Qed.

Lemma frame_set_readReactions f :
  preserves P (updateTee (fun t => set_readReactions (f t) t)).
Proof. intros [t w] H. simpl. now apply HP. Qed.

Lemma frame_set_closedReaction v : preserves P (updateTee (set_closedReaction v)).
Proof. intros [t w] H. simpl. now apply HP. Qed.

Lemma quiet_promiseResolvedWith v Q :
  quiet Q -> preserves (onTrace Q) (promiseResolvedWith v).
Proof. intros _. apply onTrace_allocPromise. Qed.

Lemma quiet_getReader r Q : quiet Q -> preserves (onTrace Q) (getReader r).
Proof. intros _. apply preserves_getReader. Qed.

Lemma quiet_logEvent ev Q :
  isCancelCall ev = false -> quiet Q -> preserves (onTrace Q) (logEvent ev).
Proof. intros Hev HQ. apply onTrace_logEvent. now apply HQ. Qed.

Lemma quiet_resolvePromise p v Q : quiet Q -> preserves (onTrace Q) (resolvePromise p v).
Proof. intros HQ. apply onTrace_resolvePromise. now apply HQ. Qed.

Lemma quiet_rejectPromise p e Q : quiet Q -> preserves (onTrace Q) (rejectPromise p e).
Proof. intros HQ. apply onTrace_rejectPromise. now apply HQ. Qed.

Ltac frame_prim :=
  first
    [ apply preserves_getTee
    | apply frame_set_reading
    | apply frame_set_readReactions
    | apply frame_set_closedReaction
    | apply preserves_asValue
    | apply preserves_asUndefined
    | apply frame_liftW; intros ? ?;
      first [ apply quiet_promiseResolvedWith; assumption
            | apply quiet_getReader; assumption
            | apply quiet_ReadableStreamDefaultReaderRead; assumption
            | apply quiet_ReadableStreamClose; assumption
            | apply quiet_ReadableStreamError; assumption
            | apply quiet_resolvePromise; assumption
            | apply quiet_rejectPromise; assumption
            | apply quiet_logEvent; [reflexivity | assumption] ] ].

Lemma frame_readFulfilled result : preserves P (readFulfilled result).
Proof.
  unfold readFulfilled, ReadableStreamDefaultControllerClose,
    ReadableStreamDefaultControllerEnqueue.
  repeat first [pres_step | frame_prim].
Qed.

Lemma frame_pullAlgorithm : preserves P pullAlgorithm.
Proof. unfold pullAlgorithm. repeat first [pres_step | frame_prim]. Qed.

Lemma frame_readReactionJob p : preserves P (readReactionJob p).
Proof.
  unfold readReactionJob.
  apply preserves_bind; [apply preserves_getTee | intros t].
  destruct (existsb (Nat.eqb p) (readReactions t)); [| apply preserves_ret].
  intros tw H. destruct (promiseState (snd tw) p); [exact H | |].
  - revert tw H. apply preserves_bind; [apply frame_set_readReactions | intros _].
    apply frame_readFulfilled.
  - revert tw H. apply frame_set_readReactions.
Qed.

Lemma frame_closedReactionJob : preserves P closedReactionJob.
Proof.
  unfold closedReactionJob, closedRejected, ReadableStreamDefaultControllerError.
  apply preserves_bind; [apply preserves_getTee | intros t].
  destruct (closedReaction t); [| apply preserves_ret].
  apply preserves_bind; [frame_prim | intros rd].
  intros tw H. destruct (promiseState (snd tw) (closedPromiseOf rd)); [exact H | |].
  - revert tw H. apply frame_set_closedReaction.
  - revert tw H. apply preserves_bind; [apply frame_set_closedReaction | intros _].
    repeat first [pres_step | frame_prim].
Qed.

(** Every event but the calls of the cancel algorithms keeps [P]. *)
Lemma frame_teeStep ev :
  isCancel1 ev = false -> isCancel2 ev = false -> preserves P (teeStep ev).
Proof.
  intros H1 H2. destruct ev; try discriminate; unfold teeStep.
  - apply preserves_asValue, frame_pullAlgorithm.
  - repeat first [pres_step | frame_prim].
  - repeat first [pres_step | frame_prim].
  - repeat first [pres_step | frame_prim].
  - repeat first [pres_step | frame_prim].
  - apply preserves_asUndefined, frame_readReactionJob.
  - apply preserves_asUndefined, frame_closedReactionJob.
Qed.
End TeeFrame.

Lemma teeFrame_cancelSnapshot t0 calls : teeFrame (cancelSnapshot t0 calls).
Proof.
  unfold teeFrame, cancelSnapshot.
  split; [| split; [| split]].
  - intros t w v H. exact H.
  - intros t w v H. exact H.
  - intros t w v H. exact H.
  - intros t A m Hm w [Hf Hc]. split; [exact Hf |].
    exact (Hm _ (quiet_cancelCalls (stream t0) calls) w Hc).
Qed.

Lemma snd_asValue {S} (m : M S promise) s : snd (asValue m s) = snd (m s).
Proof. unfold asValue, bind, ret. now destruct (m s) as [[a|e] s']. Qed.

Lemma teeAfter_app evs1 evs2 tw :
  teeAfter (evs1 ++ evs2) tw = teeAfter evs2 (teeAfter evs1 tw).
Proof.
  unfold teeAfter. revert tw. induction evs1 as [|ev evs1 IH]; intros tw; [reflexivity |].
  simpl. destruct (teeStep ev tw) as [c tw']. specialize (IH tw').
  destruct (teeRun (evs1 ++ evs2) tw') as [cs tw2]. simpl in IH.
  destruct (teeRun evs1 tw') as [cs1 tw1]. simpl in *. exact IH.
Qed.

Lemma teeAfter_cons ev evs tw :
  teeAfter (ev :: evs) tw = teeAfter evs (snd (teeStep ev tw)).
Proof.
  unfold teeAfter. cbn [teeRun]. destruct (teeStep ev tw) as [c tw'].
  cbn [snd]. now destruct (teeRun evs tw').
Qed.

Lemma teeAfter_cancel1 x tw :
  teeAfter [Cancel1Called x] tw = snd (cancel1Algorithm x tw).
Proof.
  rewrite teeAfter_cons. unfold teeAfter. cbn [teeRun snd teeStep]. apply snd_asValue.
Qed.

Lemma teeAfter_cancel2 y tw :
  teeAfter [Cancel2Called y] tw = snd (cancel2Algorithm y tw).
Proof.
  rewrite teeAfter_cons. unfold teeAfter. cbn [teeRun snd teeStep]. apply snd_asValue.
Qed.

Lemma teeAfter_cancelFree P evs tw :
  teeFrame P -> cancelFree evs = true -> P tw -> P (teeAfter evs tw).
Proof.
  intros HP. revert tw. induction evs as [|ev evs IH]; intros tw Hfree H; [exact H |].
  simpl in Hfree. apply andb_true_iff in Hfree as [Hev Hfree].
  apply andb_true_iff in Hev as [H1 H2].
  apply negb_true_iff in H1. apply negb_true_iff in H2.
  rewrite teeAfter_cons. apply IH; [exact Hfree |].
  now apply frame_teeStep.
Qed.

(** *** The two cancel algorithms, evaluated *)

Lemma cancel1Algorithm_eval x t w :
  cancel1Algorithm x (t, w) =
  if canceled2 t then
    match ReadableStreamCancel (stream t) (createArrayFromList [x; reason2 t]) w with
    | (Normal r, w1) =>
        (Normal (cancelPromise t),
         (set_reason1 x (set_canceled1 true t),
          snd (resolvePromise (cancelPromise t) (VPromise r) w1)))
    | (Throw e, w1) => (Throw e, (set_reason1 x (set_canceled1 true t), w1))
    end
  else (Normal (cancelPromise t), (set_reason1 x (set_canceled1 true t), w)).
Proof.
  unfold cancel1Algorithm, bind, updateTee, getTee, when, liftW, ret.
  cbn [fst snd canceled2 set_reason1 set_canceled1 stream reason1 reason2 cancelPromise].
  destruct (canceled2 t); [| reflexivity].
  cbn [fst snd].
  now destruct (ReadableStreamCancel (stream t) (createArrayFromList [x; reason2 t]) w)
    as [[r|e] w1].
Qed.

Lemma cancel2Algorithm_eval y t w :
  cancel2Algorithm y (t, w) =
  if canceled1 t then
    match ReadableStreamCancel (stream t) (createArrayFromList [reason1 t; y]) w with
    | (Normal r, w1) =>
        (Normal (cancelPromise t),
         (set_reason2 y (set_canceled2 true t),
          snd (resolvePromise (cancelPromise t) (VPromise r) w1)))
    | (Throw e, w1) => (Throw e, (set_reason2 y (set_canceled2 true t), w1))
    end
  else (Normal (cancelPromise t), (set_reason2 y (set_canceled2 true t), w)).
Proof.
  unfold cancel2Algorithm, bind, updateTee, getTee, when, liftW, ret.
  cbn [fst snd canceled1 set_reason2 set_canceled2 stream reason1 reason2 cancelPromise].
  destruct (canceled1 t); [| reflexivity].
  cbn [fst snd].
  now destruct (ReadableStreamCancel (stream t) (createArrayFromList [reason1 t; y]) w)
    as [[r|e] w1].
Qed.

(** What a call of a cancel algorithm does to the variables and to the calls
    on the source. *)
Lemma cancel1Algorithm_effect x t w :
  let tw' := snd (cancel1Algorithm x (t, w)) in
  fst tw' = set_reason1 x (set_canceled1 true t) /\
  cancelCalls (stream t) (trace (snd tw')) =
  cancelCalls (stream t) (trace w)
  ++ (if canceled2 t then [createArrayFromList [x; reason2 t]] else []).
Proof.
  rewrite cancel1Algorithm_eval. destruct (canceled2 t).
  - pose proof (cancelCalls_ReadableStreamCancel (stream t)
                  (createArrayFromList [x; reason2 t]) w) as H.
    destruct (ReadableStreamCancel (stream t) (createArrayFromList [x; reason2 t]) w)
      as [[r|e] w1]; simpl in *; split; auto.
    now rewrite cancelCalls_snoc.
  - simpl. split; auto. now rewrite app_nil_r.
Qed.

Lemma cancel2Algorithm_effect y t w :
  let tw' := snd (cancel2Algorithm y (t, w)) in
  fst tw' = set_reason2 y (set_canceled2 true t) /\
  cancelCalls (stream t) (trace (snd tw')) =
  cancelCalls (stream t) (trace w)
  ++ (if canceled1 t then [createArrayFromList [reason1 t; y]] else []).
Proof.
  rewrite cancel2Algorithm_eval. destruct (canceled1 t).
  - pose proof (cancelCalls_ReadableStreamCancel (stream t)
                  (createArrayFromList [reason1 t; y]) w) as H.
    destruct (ReadableStreamCancel (stream t) (createArrayFromList [reason1 t; y]) w)
      as [[r|e] w1]; simpl in *; split; auto.
    now rewrite cancelCalls_snoc.
  - simpl. split; auto. now rewrite app_nil_r.
Qed.

Lemma cancelFields_refl t : cancelFields t t.
Proof. unfold cancelFields. repeat split. Qed.

(** A cancel-free run from a state with the variables of [t0] and the calls
    [calls], followed by a call of the first cancel algorithm. *)
Lemma cancelSnapshot_cancel1 t0 calls evs x tw :
  cancelFree evs = true ->
  cancelSnapshot t0 calls tw ->
  cancelSnapshot (set_reason1 x (set_canceled1 true t0))
    (calls ++ (if canceled2 t0 then [createArrayFromList [x; reason2 t0]] else []))
    (teeAfter (evs ++ [Cancel1Called x]) tw).
Proof.
  intros Hfree H.
  rewrite teeAfter_app.
  pose proof (teeAfter_cancelFree _ evs tw (teeFrame_cancelSnapshot t0 calls) Hfree H) as H1.
  destruct (teeAfter evs tw) as [t w].
  rewrite teeAfter_cancel1.
  pose proof (cancel1Algorithm_effect x t w) as Heff. cbv zeta in Heff. destruct Heff as [Hf Hc].
  destruct H1 as [(Hs & Hp & H1 & H2 & Hr1 & Hr2) Hcalls]. cbn [fst snd] in *.
  split.
  - rewrite Hf. unfold cancelFields. simpl. repeat split; assumption.
  - cbn [stream set_reason1 set_canceled1 set_reason2 set_canceled2].
    rewrite <- Hs in Hcalls |- *. rewrite Hc, Hcalls, H2, Hr2. reflexivity.
Qed.

Lemma cancelSnapshot_cancel2 t0 calls evs y tw :
  cancelFree evs = true ->
  cancelSnapshot t0 calls tw ->
  cancelSnapshot (set_reason2 y (set_canceled2 true t0))
    (calls ++ (if canceled1 t0 then [createArrayFromList [reason1 t0; y]] else []))
    (teeAfter (evs ++ [Cancel2Called y]) tw).
Proof.
  intros Hfree H.
  rewrite teeAfter_app.
  pose proof (teeAfter_cancelFree _ evs tw (teeFrame_cancelSnapshot t0 calls) Hfree H) as H1.
  destruct (teeAfter evs tw) as [t w].
  rewrite teeAfter_cancel2.
  pose proof (cancel2Algorithm_effect y t w) as Heff. cbv zeta in Heff. destruct Heff as [Hf Hc].
  destruct H1 as [(Hs & Hp & H1 & H2 & Hr1 & Hr2) Hcalls]. cbn [fst snd] in *.
  split.
  - rewrite Hf. unfold cancelFields. simpl. repeat split; assumption.
  - cbn [stream set_reason1 set_canceled1 set_reason2 set_canceled2].
    rewrite <- Hs in Hcalls |- *. rewrite Hc, Hcalls, H1, Hr1. reflexivity.
Qed.

Lemma teeFrame_notCanceled2 s calls steps : teeFrame (notCanceled2 s calls steps).
Proof.
  unfold teeFrame, notCanceled2.
  split; [| split; [| split]].
  - intros t w v H. exact H.
  - intros t w v H. exact H.
  - intros t w v H. exact H.
  - intros t A m Hm w (H1 & H2 & H3 & H4). split; [exact H1 |]. split; [exact H2 |].
    split.
    + exact (Hm _ (quiet_cancelCalls s calls) w H3).
    + exact (Hm _ (quiet_cancelStepsCalls s steps) w H4).
Qed.

Lemma teeFrame_notCanceled1 s calls steps : teeFrame (notCanceled1 s calls steps).
Proof.
  unfold teeFrame, notCanceled1.
  split; [| split; [| split]].
  - intros t w v H. exact H.
  - intros t w v H. exact H.
  - intros t w v H. exact H.
  - intros t A m Hm w (H1 & H2 & H3 & H4). split; [exact H1 |]. split; [exact H2 |].
    split.
    + exact (Hm _ (quiet_cancelCalls s calls) w H3).
    + exact (Hm _ (quiet_cancelStepsCalls s steps) w H4).
Qed.

(** While the second branch is not canceled, no event but its cancellation
    makes the tee call [ReadableStreamCancel] on the source. *)
Lemma teeAfter_notCanceled2 s calls steps evs tw :
  forallb (fun ev => negb (isCancel2 ev)) evs = true ->
  notCanceled2 s calls steps tw -> notCanceled2 s calls steps (teeAfter evs tw).
Proof.
  revert tw. induction evs as [|ev evs IH]; intros tw Hevs H; [exact H |].
  simpl in Hevs. apply andb_true_iff in Hevs as [Hev Hevs].
  apply negb_true_iff in Hev.
  rewrite teeAfter_cons. apply IH; [exact Hevs |].
  destruct (isCancel1 ev) eqn:H1.
  - destruct ev; try discriminate. destruct tw as [t w].
    change (snd (teeStep (Cancel1Called reason) (t, w)))
      with (snd (asValue (cancel1Algorithm reason) (t, w))).
    rewrite snd_asValue.
    pose proof (cancel1Algorithm_effect reason t w) as Heff. cbv zeta in Heff.
    destruct Heff as [Hf Hc]. destruct H as (Hc2 & Hs & Hcalls & Hsteps). cbn [fst snd] in *.
    unfold notCanceled2. rewrite Hf. cbn [canceled2 stream set_reason1 set_canceled1].
    split; [exact Hc2 |]. split; [exact Hs |].
    rewrite <- Hs in *. split.
    + rewrite Hc, Hc2. now rewrite app_nil_r.
    + rewrite cancel1Algorithm_eval, Hc2. exact Hsteps.
  - apply frame_teeStep; [apply teeFrame_notCanceled2 | assumption ..].
Qed.

Lemma teeAfter_notCanceled1 s calls steps evs tw :
  forallb (fun ev => negb (isCancel1 ev)) evs = true ->
  notCanceled1 s calls steps tw -> notCanceled1 s calls steps (teeAfter evs tw).
Proof.
  revert tw. induction evs as [|ev evs IH]; intros tw Hevs H; [exact H |].
  simpl in Hevs. apply andb_true_iff in Hevs as [Hev Hevs].
  apply negb_true_iff in Hev.
  rewrite teeAfter_cons. apply IH; [exact Hevs |].
  destruct (isCancel2 ev) eqn:H2.
  - destruct ev; try discriminate. destruct tw as [t w].
    change (snd (teeStep (Cancel2Called reason) (t, w)))
      with (snd (asValue (cancel2Algorithm reason) (t, w))).
    rewrite snd_asValue.
    pose proof (cancel2Algorithm_effect reason t w) as Heff. cbv zeta in Heff.
    destruct Heff as [Hf Hc]. destruct H as (Hc1 & Hs & Hcalls & Hsteps). cbn [fst snd] in *.
    unfold notCanceled1. rewrite Hf. cbn [canceled1 stream set_reason2 set_canceled2].
    split; [exact Hc1 |]. split; [exact Hs |].
    rewrite <- Hs in *. split.
    + rewrite Hc, Hc1. now rewrite app_nil_r.
    + rewrite cancel2Algorithm_eval, Hc1. exact Hsteps.
  - apply frame_teeStep; [apply teeFrame_notCanceled1 | assumption ..].
Qed.

(** Both branches canceled, the first one first. *)
Lemma teeAfter_cancel_1_2 pre mid post x y t w :
  canceled1 t = false -> canceled2 t = false ->
  cancelFree pre = true -> cancelFree mid = true -> cancelFree post = true ->
  cancelCalls (stream t)
    (trace (snd (teeAfter (pre ++ [Cancel1Called x] ++ mid ++ [Cancel2Called y] ++ post)
                   (t, w)))) =
  cancelCalls (stream t) (trace w) ++ [createArrayFromList [x; y]].
Proof.
  intros H1 H2 Hpre Hmid Hpost.
  replace (pre ++ [Cancel1Called x] ++ mid ++ [Cancel2Called y] ++ post)
    with ((pre ++ [Cancel1Called x]) ++ (mid ++ [Cancel2Called y]) ++ post)
    by (now rewrite <- !app_assoc).
  rewrite (teeAfter_app (pre ++ [Cancel1Called x])), (teeAfter_app (mid ++ [Cancel2Called y])).
  assert (H0 : cancelSnapshot t (cancelCalls (stream t) (trace w)) (t, w))
    by (split; [apply cancelFields_refl | reflexivity]).
  pose proof (cancelSnapshot_cancel1 _ _ pre x _ Hpre H0) as Ha. rewrite H2 in Ha.
  pose proof (cancelSnapshot_cancel2 _ _ mid y _ Hmid Ha) as Hb.
  cbn [canceled1 reason1 set_reason1 set_canceled1] in Hb.
  pose proof (teeAfter_cancelFree _ post _ (teeFrame_cancelSnapshot _ _) Hpost Hb) as [_ Hc].
  cbn [stream set_reason1 set_canceled1 set_reason2 set_canceled2] in Hc.
  rewrite Hc. now rewrite app_nil_r.
Qed.

(** Both branches canceled, the second one first. *)
Lemma teeAfter_cancel_2_1 pre mid post x y t w :
  canceled1 t = false -> canceled2 t = false ->
  cancelFree pre = true -> cancelFree mid = true -> cancelFree post = true ->
  cancelCalls (stream t)
    (trace (snd (teeAfter (pre ++ [Cancel2Called y] ++ mid ++ [Cancel1Called x] ++ post)
                   (t, w)))) =
  cancelCalls (stream t) (trace w) ++ [createArrayFromList [x; y]].
Proof.
  intros H1 H2 Hpre Hmid Hpost.
  replace (pre ++ [Cancel2Called y] ++ mid ++ [Cancel1Called x] ++ post)
    with ((pre ++ [Cancel2Called y]) ++ (mid ++ [Cancel1Called x]) ++ post)
    by (now rewrite <- !app_assoc).
  rewrite (teeAfter_app (pre ++ [Cancel2Called y])), (teeAfter_app (mid ++ [Cancel1Called x])).
  assert (H0 : cancelSnapshot t (cancelCalls (stream t) (trace w)) (t, w))
    by (split; [apply cancelFields_refl | reflexivity]).
  pose proof (cancelSnapshot_cancel2 _ _ pre y _ Hpre H0) as Ha. rewrite H1 in Ha.
  pose proof (cancelSnapshot_cancel1 _ _ mid x _ Hmid Ha) as Hb.
  cbn [canceled2 reason2 set_reason2 set_canceled2] in Hb.
  pose proof (teeAfter_cancelFree _ post _ (teeFrame_cancelSnapshot _ _) Hpost Hb) as [_ Hc].
  cbn [stream set_reason1 set_canceled1 set_reason2 set_canceled2] in Hc.
  rewrite Hc. now rewrite app_nil_r.
Qed.

Lemma Settles_resolvedWith w p r o :
  promises w !! p = Some (ResolvedWith r) -> Settles w r o -> Settles w p o.
Proof.
  intros Hp (Ho & fuel & H). split; [exact Ho |].
  exists (S fuel). simpl. now rewrite Hp.
Qed.

Lemma resolvePromise_pending w p r :
  promises w !! p = Some Pending ->
  promises (snd (resolvePromise p (VPromise r) w)) !! p = Some (ResolvedWith r).
Proof. intros H. unfold resolvePromise. mcbn. now apply settleCell_pending. Qed.

(** On a stream of the store, [ReadableStreamCancel] returns a promise. *)
Lemma ReadableStreamCancel_returns w s st reason :
  streams w !! s = Some st ->
  readerInStore w st = true ->
  exists r w1, ReadableStreamCancel s reason w = (Normal r, w1).
Proof.
  intros Hs Hin. rewrite (ReadableStreamCancel_unfold _ _ _ _ Hs).
  set (w0 := withStreams _ _).
  assert (Hs0 : streams w0 !! s = Some (set_disturbed true st))
    by (subst w0; mcbn; apply lookup_insert_eq).
  unfold bind at 1. rewrite (getStream_eq _ _ _ Hs0). mcbn.
  destruct (_state st) eqn:Hst; mcbn.
  - destruct (ReadableStreamClose_ok w0 s (set_disturbed true st) Hs0 Hst)
      as (w1 & evs & Hclose & _).
    { subst w0. unfold readerInStore in *. mcbn. exact Hin. }
    unfold bind at 1. rewrite Hclose. do 2 eexists. reflexivity.
  - do 2 eexists. reflexivity.
  - do 2 eexists. reflexivity.
Qed.

(** On a readable source the one call of [ReadableStreamCancel] passes its
    reason to the cancel steps of the controller, once. *)
Lemma cancelStepsCalls_ReadableStreamCancel_readable w s st reason :
  streams w !! s = Some st ->
  _state st = readable ->
  readerInStore w st = true ->
  cancelStepsCalls s (trace (snd (ReadableStreamCancel s reason w))) =
  cancelStepsCalls s (trace w) ++ [reason].
Proof.
  intros Hs Hst Hin. rewrite (ReadableStreamCancel_unfold _ _ _ _ Hs).
  set (w0 := withStreams _ _).
  assert (Hs0 : streams w0 !! s = Some (set_disturbed true st))
    by (subst w0; mcbn; apply lookup_insert_eq).
  destruct (ReadableStreamClose_ok w0 s (set_disturbed true st) Hs0 Hst)
    as (w1 & evs & Hclose & _ & Htrace & Hevs & _).
  { subst w0. unfold readerInStore in *. mcbn. exact Hin. }
  unfold bind at 1. rewrite (getStream_eq _ _ _ Hs0). mcbn. rewrite Hst. mcbn.
  unfold bind at 1. rewrite Hclose.
  unfold CancelSteps, logEvent, newPromise, transformPromiseWith, allocPromise.
  unfold bind. mcbn.
  rewrite Htrace. subst w0. mcbn.
  unfold cancelStepsCalls at 1. rewrite omap_app.
  fold (cancelStepsCalls s ((trace w ++ [EvReadableStreamCancel s reason]) ++ evs)).
  rewrite cancelStepsCalls_settle by exact Hevs.
  unfold cancelStepsCalls at 1. rewrite omap_app. simpl.
  rewrite Nat.eqb_refl. now rewrite app_nil_r.
Qed.

Lemma cancelStepsCalls_resolvePromise s p v w :
  cancelStepsCalls s (trace (snd (resolvePromise p v w))) = cancelStepsCalls s (trace w).
Proof. unfold resolvePromise. mcbn. now apply cancelStepsCalls_snoc. Qed.

(** C1.  A tee starts with both branches not canceled and a pending cancel
    promise.  Whatever else happens, as long as one of the branches is not
    canceled there is no call of [ReadableStreamCancel] on the source and no
    call of the cancel steps of its controller.  When each branch is canceled
    once, in either order, [ReadableStreamCancel] is called on the source
    exactly once, with the array of the reason of the first branch followed
    by the reason of the second; on a source that is still readable this one
    call passes the array to the cancel steps of its controller, once.  Both
    cancel algorithms return the cancel
    promise of the tee, which the second cancellation resolves with the
    promise that [ReadableStreamCancel] returns: however that promise
    settles, so does the cancel promise. *)
Theorem tee_cancel_composite :
  (forall s cloneForBranch2 r w,
      exists t w',
        ReadableStreamTee s cloneForBranch2 r w = (Normal t, w') /\
        stream t = s /\ canceled1 t = false /\ canceled2 t = false /\
        promises w' !! cancelPromise t = Some Pending) /\
  (forall evs t w,
      canceled2 t = false ->
      forallb (fun ev => negb (isCancel2 ev)) evs = true ->
      cancelCalls (stream t) (trace (snd (teeAfter evs (t, w)))) =
      cancelCalls (stream t) (trace w) /\
      cancelStepsCalls (stream t) (trace (snd (teeAfter evs (t, w)))) =
      cancelStepsCalls (stream t) (trace w)) /\
  (forall evs t w,
      canceled1 t = false ->
      forallb (fun ev => negb (isCancel1 ev)) evs = true ->
      cancelCalls (stream t) (trace (snd (teeAfter evs (t, w)))) =
      cancelCalls (stream t) (trace w) /\
      cancelStepsCalls (stream t) (trace (snd (teeAfter evs (t, w)))) =
      cancelStepsCalls (stream t) (trace w)) /\
  (forall pre mid post x y t w,
      canceled1 t = false -> canceled2 t = false ->
      cancelFree pre = true -> cancelFree mid = true -> cancelFree post = true ->
      cancelCalls (stream t)
        (trace (snd (teeAfter
                       (pre ++ [Cancel1Called x] ++ mid ++ [Cancel2Called y] ++ post)
                       (t, w)))) =
      cancelCalls (stream t) (trace w) ++ [VArray [x; y]] /\
      cancelCalls (stream t)
        (trace (snd (teeAfter
                       (pre ++ [Cancel2Called y] ++ mid ++ [Cancel1Called x] ++ post)
                       (t, w)))) =
      cancelCalls (stream t) (trace w) ++ [VArray [x; y]]) /\
  (forall t w x,
      canceled2 t = false ->
      cancel1Algorithm x (t, w) =
      (Normal (cancelPromise t), (set_reason1 x (set_canceled1 true t), w))) /\
  (forall t w y,
      canceled1 t = false ->
      cancel2Algorithm y (t, w) =
      (Normal (cancelPromise t), (set_reason2 y (set_canceled2 true t), w))) /\
  (forall t w x r w1,
      canceled2 t = true ->
      ReadableStreamCancel (stream t) (VArray [x; reason2 t]) w = (Normal r, w1) ->
      promises w1 !! cancelPromise t = Some Pending ->
      let w' := snd (resolvePromise (cancelPromise t) (VPromise r) w1) in
      cancel1Algorithm x (t, w) =
      (Normal (cancelPromise t), (set_reason1 x (set_canceled1 true t), w')) /\
      promises w' !! cancelPromise t = Some (ResolvedWith r) /\
      (forall o, Settles w' r o -> Settles w' (cancelPromise t) o)) /\
  (forall t w y r w1,
      canceled1 t = true ->
      ReadableStreamCancel (stream t) (VArray [reason1 t; y]) w = (Normal r, w1) ->
      promises w1 !! cancelPromise t = Some Pending ->
      let w' := snd (resolvePromise (cancelPromise t) (VPromise r) w1) in
      cancel2Algorithm y (t, w) =
      (Normal (cancelPromise t), (set_reason2 y (set_canceled2 true t), w')) /\
      promises w' !! cancelPromise t = Some (ResolvedWith r) /\
      (forall o, Settles w' r o -> Settles w' (cancelPromise t) o)) /\
  (forall w s st reason,
      streams w !! s = Some st ->
      readerInStore w st = true ->
      exists r w1, ReadableStreamCancel s reason w = (Normal r, w1)) /\
  (forall t w x y st,
      streams w !! stream t = Some st ->
      _state st = readable ->
      readerInStore w st = true ->
      (canceled2 t = true -> reason2 t = y ->
       cancelStepsCalls (stream t) (trace (snd (snd (cancel1Algorithm x (t, w))))) =
       cancelStepsCalls (stream t) (trace w) ++ [VArray [x; y]]) /\
      (canceled1 t = true -> reason1 t = x ->
       cancelStepsCalls (stream t) (trace (snd (snd (cancel2Algorithm y (t, w))))) =
       cancelStepsCalls (stream t) (trace w) ++ [VArray [x; y]])).
Proof.
  split; [| split; [| split; [| split; [| split; [| split; [| split; [| split; [| split]]]]]]]].
  - intros s c r w.
    destruct (ReadableStreamTee_initial s c r w)
      as (t & w' & Hrun & Hs & _ & _ & H1 & H2 & _ & _ & Hp & _).
    exists t, w'. auto.
  - intros evs t w H2 Hevs.
    destruct (teeAfter_notCanceled2 (stream t) (cancelCalls (stream t) (trace w))
                (cancelStepsCalls (stream t) (trace w)) evs (t, w) Hevs)
      as (_ & _ & H); [| exact H].
    repeat split. exact H2.
  - intros evs t w H1 Hevs.
    destruct (teeAfter_notCanceled1 (stream t) (cancelCalls (stream t) (trace w))
                (cancelStepsCalls (stream t) (trace w)) evs (t, w) Hevs)
      as (_ & _ & H); [| exact H].
    repeat split. exact H1.
  - intros pre mid post x y t w H1 H2 Hpre Hmid Hpost. split.
    + exact (teeAfter_cancel_1_2 pre mid post x y t w H1 H2 Hpre Hmid Hpost).
    + exact (teeAfter_cancel_2_1 pre mid post x y t w H1 H2 Hpre Hmid Hpost).
  - intros t w x H2. rewrite cancel1Algorithm_eval. now rewrite H2.
  - intros t w y H1. rewrite cancel2Algorithm_eval. now rewrite H1.
  - intros t w x r w1 H2 Hrun Hp w'. rewrite cancel1Algorithm_eval, H2.
    change (createArrayFromList [x; reason2 t]) with (VArray [x; reason2 t]).
    rewrite Hrun. split; [reflexivity |].
    pose proof (resolvePromise_pending _ _ r Hp) as Hcell.
    split; [exact Hcell |]. intros o. now apply Settles_resolvedWith.
  - intros t w y r w1 H1 Hrun Hp w'. rewrite cancel2Algorithm_eval, H1.
    change (createArrayFromList [reason1 t; y]) with (VArray [reason1 t; y]).
    rewrite Hrun. split; [reflexivity |].
    pose proof (resolvePromise_pending _ _ r Hp) as Hcell.
    split; [exact Hcell |]. intros o. now apply Settles_resolvedWith.
  - exact ReadableStreamCancel_returns.
  - intros t w x y st Hs Hst Hin. split.
    + intros H2 <-. rewrite cancel1Algorithm_eval, H2.
      pose proof (cancelStepsCalls_ReadableStreamCancel_readable w (stream t) st
                    (createArrayFromList [x; reason2 t]) Hs Hst Hin) as H.
      destruct (ReadableStreamCancel (stream t) (createArrayFromList [x; reason2 t]) w)
        as [[r|e] w1]; cbn [fst snd] in *; [| exact H].
      now rewrite cancelStepsCalls_resolvePromise.
    + intros H1 <-. rewrite cancel2Algorithm_eval, H1.
      pose proof (cancelStepsCalls_ReadableStreamCancel_readable w (stream t) st
                    (createArrayFromList [reason1 t; y]) Hs Hst Hin) as H.
      destruct (ReadableStreamCancel (stream t) (createArrayFromList [reason1 t; y]) w)
        as [[r|e] w1]; cbn [fst snd] in *; [| exact H].
      now rewrite cancelStepsCalls_resolvePromise.
Qed.

Lemma tee_cancel_composite_witness :
  cancelCalls 7 (trace (snd (teeAfter [PullCalled; Cancel1Called (VString "x"); PullCalled]
                               (sampleTee, sampleWorld)))) = [] /\
  cancelCalls 7
    (trace (snd (teeAfter ([PullCalled] ++ [Cancel1Called (VString "x")] ++ [SourceClosed]
                           ++ [Cancel2Called (VString "y")] ++ [ClosedReactionJob])
                   (sampleTee, sampleWorld)))) = [VArray [VString "x"; VString "y"]] /\
  cancelCalls 7
    (trace (snd (teeAfter ([PullCalled] ++ [Cancel2Called (VString "y")] ++ [SourceClosed]
                           ++ [Cancel1Called (VString "x")] ++ [ClosedReactionJob])
                   (sampleTee, sampleWorld)))) = [VArray [VString "x"; VString "y"]] /\
  cancel1Algorithm (VString "x") (sampleTee, sampleWorld) =
  (Normal 4, (set_reason1 (VString "x") (set_canceled1 true sampleTee), sampleWorld)) /\
  (exists tw',
      cancel2Algorithm (VString "y")
        (set_reason1 (VString "x") (set_canceled1 true sampleTee), sampleWorld) =
      (Normal 4, tw') /\
      promises (snd tw') !! 4 = Some (ResolvedWith 8)) /\
  cancelCalls 7 (trace (snd (teeAfter [Cancel2Called (VString "y"); PullCalled]
                               (sampleTee, sampleWorld)))) = [] /\
  cancel2Algorithm (VString "y") (sampleTee, sampleWorld) =
  (Normal 4, (set_reason2 (VString "y") (set_canceled2 true sampleTee), sampleWorld)) /\
  (exists tw',
      cancel1Algorithm (VString "x")
        (set_reason2 (VString "y") (set_canceled2 true sampleTee), sampleWorld) =
      (Normal 4, tw') /\
      promises (snd tw') !! 4 = Some (ResolvedWith 8)) /\
  (exists r w1, ReadableStreamCancel 7 VNull sampleWorld = (Normal r, w1)) /\
  cancelStepsCalls 7
    (trace (snd (snd (cancel1Algorithm (VString "x")
                        (set_reason2 (VString "y") (set_canceled2 true sampleTee),
                         sampleWorld))))) = [VArray [VString "x"; VString "y"]] /\
  cancelStepsCalls 7
    (trace (snd (snd (cancel2Algorithm (VString "y")
                        (set_reason1 (VString "x") (set_canceled1 true sampleTee),
                         sampleWorld))))) = [VArray [VString "x"; VString "y"]].
Proof.
  destruct tee_cancel_composite
    as (_ & Halone & Halone1 & Hboth & Hfirst & Hfirst2 & Hshare1 & Hsecond & Hreturns
        & Hsteps).
  split; [| split; [| split; [| split; [| split; [| split; [| split; [| split;
    [| split; [| split]]]]]]]]]; cycle 5.
  { exact (proj1 (Halone1 [Cancel2Called (VString "y"); PullCalled] sampleTee sampleWorld
                    eq_refl eq_refl)). }
  { exact (Hfirst2 sampleTee sampleWorld (VString "y") eq_refl). }
  { destruct (Hshare1 (set_reason2 (VString "y") (set_canceled2 true sampleTee)) sampleWorld
                (VString "x") 8
                (snd (ReadableStreamCancel 7 (VArray [VString "x"; VString "y"]) sampleWorld))
                eq_refl eq_refl eq_refl) as (Hrun & Hcell & _).
    eexists. split; [exact Hrun | exact Hcell]. }
  { exact (Hreturns sampleWorld 7 (sampleStream (Some 3)) VNull eq_refl eq_refl). }
  { exact (proj1 (Hsteps (set_reason2 (VString "y") (set_canceled2 true sampleTee))
                    sampleWorld (VString "x") (VString "y") (sampleStream (Some 3))
                    eq_refl eq_refl eq_refl) eq_refl eq_refl). }
  { exact (proj2 (Hsteps (set_reason1 (VString "x") (set_canceled1 true sampleTee))
                    sampleWorld (VString "x") (VString "y") (sampleStream (Some 3))
                    eq_refl eq_refl eq_refl) eq_refl eq_refl). }
  - exact (proj1 (Halone [PullCalled; Cancel1Called (VString "x"); PullCalled] sampleTee
                    sampleWorld eq_refl eq_refl)).
  - exact (proj1 (Hboth [PullCalled] [SourceClosed] [ClosedReactionJob]
                    (VString "x") (VString "y") sampleTee sampleWorld
                    eq_refl eq_refl eq_refl eq_refl eq_refl)).
  - exact (proj2 (Hboth [PullCalled] [SourceClosed] [ClosedReactionJob]
                    (VString "x") (VString "y") sampleTee sampleWorld
                    eq_refl eq_refl eq_refl eq_refl eq_refl)).
  - exact (Hfirst sampleTee sampleWorld (VString "x") eq_refl).
  - destruct (Hsecond (set_reason1 (VString "x") (set_canceled1 true sampleTee)) sampleWorld
                (VString "y") 8
                (snd (ReadableStreamCancel 7 (VArray [VString "x"; VString "y"]) sampleWorld))
                eq_refl eq_refl eq_refl) as (Hrun & Hcell & _).
    eexists. split; [exact Hrun | exact Hcell].
Defined.

Lemma tee_single_read_fans_out_witness :
  singleRead (fst (snd (teeRun [PullCalled; PullCalled; Cancel1Called VNull; PullCalled]
                          (sampleTee, sampleWorld)))) /\
  pullAlgorithm (set_reading true sampleTee, sampleWorld) =
  (Normal 7,
   (set_reading true sampleTee,
    withPromises (promises sampleWorld ++ [Fulfilled VUndefined]) sampleWorld)) /\
  (exists w1,
      ReadableStreamDefaultReaderRead 3 sampleWorld = (Normal 7, w1) /\
      pullAlgorithm (sampleTee, sampleWorld) =
      (Normal 8,
       (set_readReactions [7] (set_reading true sampleTee),
        withPromises (promises w1 ++ [Fulfilled VUndefined]) w1))) /\
  readReactionJob 7
    (set_readReactions [7] (set_reading true sampleTee),
     withPromises (promises sampleWorld ++ [Fulfilled (VReadResult (VString "a") false true)])
       sampleWorld) =
  (Normal tt,
   (sampleTee,
    withTrace [EvControllerEnqueue 20 (VString "a"); EvControllerEnqueue 21 (VString "a")]
      (withPromises
         (promises sampleWorld ++ [Fulfilled (VReadResult (VString "a") false true)])
         sampleWorld))).
Proof.
  destruct tee_single_read_fans_out as (_ & Hinv & Hbusy & Hidle & Hjob & Hchunk & _).
  assert (H0 : singleRead sampleTee) by (split; [simpl; lia | intros H; now destruct H]).
  split; [| split; [| split]]; cycle 3.
  { rewrite (Hjob (set_readReactions [7] (set_reading true sampleTee))
               (withPromises
                  (promises sampleWorld ++ [Fulfilled (VReadResult (VString "a") false true)])
                  sampleWorld)
               7 (VReadResult (VString "a") false true) eq_refl eq_refl).
    exact (Hchunk _ _ (VString "a") true). }
  - exact (Hinv [PullCalled; PullCalled; Cancel1Called VNull; PullCalled]
             (sampleTee, sampleWorld) H0).
  - exact (Hbusy (set_reading true sampleTee) sampleWorld eq_refl).
  - exists (snd (ReadableStreamDefaultReaderRead 3 sampleWorld)).
    split; [reflexivity |].
    exact (Hidle sampleTee sampleWorld 7 _ eq_refl H0 eq_refl).
Defined.

(* ===================================================================== *)
(** * Further properties of the operations *)
(* ===================================================================== *)

(** ** The data blocks *)

Lemma overwrite_length offset bytes data :
  offset + length bytes <= length data ->
  length (overwrite offset bytes data) = length data.
Proof.
  intros H. unfold overwrite.
  rewrite !length_app, length_take, length_drop. lia.
Qed.

Lemma overwrite_lookup_in offset bytes data i :
  offset <= length data ->
  i < length bytes ->
  overwrite offset bytes data !! (offset + i) = bytes !! i.
Proof.
  intros Ho Hi. unfold overwrite.
  rewrite lookup_app_r by (rewrite length_take; lia).
  rewrite length_take, Nat.min_l by lia.
  replace (offset + i - offset) with i by lia.
  now rewrite lookup_app_l.
Qed.

Lemma overwrite_lookup_out offset bytes data j :
  offset + length bytes <= length data ->
  j < offset \/ offset + length bytes <= j ->
  overwrite offset bytes data !! j = data !! j.
Proof.
  intros Hlen [Hj|Hj]; unfold overwrite.
  - rewrite lookup_app_l by (rewrite length_take; lia).
    now rewrite lookup_take_lt.
  - rewrite lookup_app_r by (rewrite length_take; lia).
    rewrite length_take, Nat.min_l by lia.
    rewrite lookup_app_r by lia.
    rewrite lookup_drop. f_equal. lia.
Qed.

Lemma window_length (n k : nat) (l : list Byte.byte) :
  k + n <= length l -> length (take n (drop k l)) = n.
Proof. intros H. rewrite length_take, length_drop. lia. Qed.

Lemma window_lookup (n k i : nat) (l : list Byte.byte) :
  i < n -> take n (drop k l) !! i = l !! (k + i).
Proof. intros H. rewrite lookup_take_lt by assumption. apply lookup_drop. Qed.

Lemma getBuffer_eq h b B : h !! b = Some B -> getBuffer b h = (Normal B, h).
Proof. intros H. unfold getBuffer. now rewrite H. Qed.

Lemma CopyDataBlockBytes_eval h dest src D B destOffset srcOffset n :
  h !! dest = Some D -> h !! src = Some B ->
  isDetached D = false -> isDetached B = false ->
  (0 <= srcOffset)%Z -> (0 <= n)%Z ->
  (srcOffset + n <= Z.of_nat (length (dataBlock B)))%Z ->
  (0 <= destOffset)%Z ->
  (destOffset + n <= Z.of_nat (length (dataBlock D)))%Z ->
  CopyDataBlockBytes dest destOffset src srcOffset n h =
  (Normal tt,
   <[dest := {| dataBlock :=
                  overwrite (Z.to_nat destOffset)
                    (take (Z.to_nat n) (drop (Z.to_nat srcOffset) (dataBlock B)))
                    (dataBlock D);
                isDetached := false |}]> h).
Proof.
  intros HD HB HdD HdB Hs Hn Hsn Hd Hdn.
  unfold CopyDataBlockBytes, new_Uint8Array, new_Uint8Array_range, TypedArray_set, bind, ret.
  rewrite (getBuffer_eq _ _ _ HD), HdD.
  destruct (Z.ltb_spec srcOffset 0) as [?|_]; [lia |].
  destruct (Z.ltb_spec n 0) as [?|_]; [lia |].
  rewrite (getBuffer_eq _ _ _ HB), HdB.
  unfold byteLength. rewrite HdB, HdD.
  destruct (Z.ltb_spec (Z.of_nat (length (dataBlock B))) (srcOffset + n)) as [?|_]; [lia |].
  destruct (Z.ltb_spec destOffset 0) as [?|_]; [lia |].
  cbn [ViewedArrayBuffer ByteOffset ByteLength].
  rewrite (getBuffer_eq _ _ _ HD), HdD, (getBuffer_eq _ _ _ HB), HdB.
  destruct (Z.ltb_spec (Z.of_nat (length (dataBlock D))) (Z.of_nat (Z.to_nat n) + destOffset))
    as [?|_]; [lia |].
  reflexivity.
Qed.

Lemma CopyDataBlockBytes_unchanged dest destOffset src srcOffset n h e :
  fst (CopyDataBlockBytes dest destOffset src srcOffset n h) = Throw e ->
  snd (CopyDataBlockBytes dest destOffset src srcOffset n h) = h.
Proof.
  unfold CopyDataBlockBytes, new_Uint8Array, new_Uint8Array_range, TypedArray_set, bind, ret,
    throw, getBuffer.
  destruct (h !! dest) as [D|]; [| reflexivity].
  destruct (isDetached D); [reflexivity |].
  destruct (srcOffset <? 0)%Z; [reflexivity |].
  destruct (n <? 0)%Z; [reflexivity |].
  destruct (h !! src) as [B|]; [| reflexivity].
  destruct (isDetached B) eqn:HdB; [reflexivity |].
  destruct (Z.of_nat (byteLength B) <? srcOffset + n)%Z; [reflexivity |].
  destruct (destOffset <? 0)%Z; [reflexivity |].
  cbn [ViewedArrayBuffer ByteOffset ByteLength].
  destruct (h !! dest) as [D'|]; [| reflexivity].
  destruct (isDetached D'); [reflexivity |].
  destruct (h !! src) as [B'|]; [| reflexivity].
  destruct (isDetached B'); [reflexivity |].
  destruct (_ <? _)%Z; [reflexivity |].
  discriminate.
Qed.

(** X2.  When both ranges lie in their buffers and neither buffer is
    detached, [CopyDataBlockBytes] returns and changes the destination only:
    its length stays, the [n] bytes from [destOffset] on are the [n] bytes of
    the source from [srcOffset] on, as they were before the call, and every
    other byte of the destination stays.  This holds as well when source and
    destination are one buffer and the ranges overlap. *)
Theorem CopyDataBlockBytes_copies
  (h : BufferStore) (dest src : bufferRef) (D B : ArrayBufferLike)
  (destOffset srcOffset n : nat) :
  h !! dest = Some D -> h !! src = Some B ->
  isDetached D = false -> isDetached B = false ->
  srcOffset + n <= length (dataBlock B) ->
  destOffset + n <= length (dataBlock D) ->
  exists D',
    CopyDataBlockBytes dest (Z.of_nat destOffset) src (Z.of_nat srcOffset) (Z.of_nat n) h =
    (Normal tt, <[dest := D']> h) /\
    isDetached D' = false /\
    length (dataBlock D') = length (dataBlock D) /\
    (forall i, i < n -> dataBlock D' !! (destOffset + i) = dataBlock B !! (srcOffset + i)) /\
    (forall j, j < destOffset \/ destOffset + n <= j -> dataBlock D' !! j = dataBlock D !! j).
Proof.
  intros HD HB HdD HdB Hs Hd.
  eexists. split.
  - apply (CopyDataBlockBytes_eval h dest src D B); auto; lia.
  - cbn [dataBlock isDetached]. rewrite !Nat2Z.id.
    assert (Hw : length (take n (drop srcOffset (dataBlock B))) = n)
      by now apply window_length.
    split; [reflexivity |]. split; [| split].
    + apply overwrite_length. lia.
    + intros i Hi. rewrite overwrite_lookup_in by lia. now apply window_lookup.
    + intros j Hj. apply overwrite_lookup_out; lia.
Qed.

Lemma CopyDataBlockBytes_copies_witness :
  exists D',
    CopyDataBlockBytes 1 1 2 0 2 sampleBuffers = (Normal tt, <[1 := D']> sampleBuffers) /\
    dataBlock D' !! 0 = Some Byte.x61 /\
    dataBlock D' !! 1 = Some Byte.x31 /\
    dataBlock D' !! 2 = Some Byte.x32 /\
    dataBlock D' !! 3 = Some Byte.x64.
Proof.
  destruct (CopyDataBlockBytes_copies sampleBuffers 1 2
              (newArrayBuffer [Byte.x61; Byte.x62; Byte.x63; Byte.x64])
              (newArrayBuffer [Byte.x31; Byte.x32]) 1 0 2
              eq_refl eq_refl eq_refl eq_refl)
    as (D' & Hrun & _ & _ & Hin & Hout); [simpl; lia | simpl; lia |].
  exists D'. split; [exact Hrun |].
  split; [apply (Hout 0); lia |]. split; [apply (Hin 0); lia |].
  split; [apply (Hin 1); lia | apply (Hout 3); lia].
Defined.

Lemma inBounds_spec offset n B :
  inBounds offset n B = true <->
  (0 <= offset /\ 0 <= n /\ offset + n <= Z.of_nat (byteLength B))%Z.
Proof. unfold inBounds. rewrite !andb_true_iff, !Z.leb_le. tauto. Qed.

Lemma CopyDataBlockBytes_run h dest src D B destOffset srcOffset n :
  h !! dest = Some D -> h !! src = Some B ->
  CopyDataBlockBytes dest destOffset src srcOffset n h =
    if isDetached D then
      (Throw (VError TypeError "Cannot perform Construct on a detached ArrayBuffer"), h)
    else if (srcOffset <? 0)%Z then
      (Throw (VError RangeError "Start offset is outside the bounds of the buffer"), h)
    else if (n <? 0)%Z then
      (Throw (VError RangeError "Invalid typed array length"), h)
    else if isDetached B then
      (Throw (VError TypeError "Cannot perform Construct on a detached ArrayBuffer"), h)
    else if (Z.of_nat (byteLength B) <? srcOffset + n)%Z then
      (Throw (VError RangeError "Invalid typed array length"), h)
    else if (destOffset <? 0)%Z then
      (Throw (VError RangeError "offset is out of bounds"), h)
    else if (Z.of_nat (byteLength D) <? Z.of_nat (Z.to_nat n) + destOffset)%Z then
      (Throw (VError RangeError "offset is out of bounds"), h)
    else
      (Normal tt,
       <[dest := {| dataBlock :=
                      overwrite (Z.to_nat destOffset)
                        (take (Z.to_nat n) (drop (Z.to_nat srcOffset) (dataBlock B)))
                        (dataBlock D);
                    isDetached := false |}]> h).
Proof.
  intros HD HB.
  unfold CopyDataBlockBytes, new_Uint8Array, new_Uint8Array_range, TypedArray_set, bind, ret,
    throw.
  rewrite (getBuffer_eq _ _ _ HD).
  destruct (isDetached D) eqn:HdD; [reflexivity |].
  destruct (srcOffset <? 0)%Z; [reflexivity |].
  destruct (n <? 0)%Z; [reflexivity |].
  rewrite (getBuffer_eq _ _ _ HB).
  destruct (isDetached B) eqn:HdB; [reflexivity |].
  destruct (Z.of_nat (byteLength B) <? srcOffset + n)%Z; [reflexivity |].
  destruct (destOffset <? 0)%Z; [reflexivity |].
  cbn [ViewedArrayBuffer ByteOffset ByteLength].
  rewrite (getBuffer_eq _ _ _ HD), HdD, (getBuffer_eq _ _ _ HB), HdB.
  destruct (_ <? _)%Z; reflexivity.
Qed.

Lemma CopyDataBlockBytes_range_error h dest src D B destOffset srcOffset n :
  h !! dest = Some D -> h !! src = Some B ->
  isDetached D = false -> isDetached B = false ->
  inBounds srcOffset n B && inBounds destOffset n D = false ->
  exists message,
    CopyDataBlockBytes dest destOffset src srcOffset n h =
    (Throw (VError RangeError message), h).
Proof.
  intros HD HB HdD HdB Hout. rewrite (CopyDataBlockBytes_run _ _ _ _ _ _ _ _ HD HB), HdD, HdB.
  apply not_true_iff_false in Hout. rewrite andb_true_iff, !inBounds_spec in Hout.
  destruct (Z.ltb_spec srcOffset 0); [eexists; reflexivity |].
  destruct (Z.ltb_spec n 0); [eexists; reflexivity |].
  destruct (Z.ltb_spec (Z.of_nat (byteLength B)) (srcOffset + n)); [eexists; reflexivity |].
  destruct (Z.ltb_spec destOffset 0); [eexists; reflexivity |].
  destruct (Z.ltb_spec (Z.of_nat (byteLength D)) (Z.of_nat (Z.to_nat n) + destOffset));
    [eexists; reflexivity |].
  exfalso. apply Hout. lia.
Qed.

(** X3.  On buffers of the store, [CopyDataBlockBytes] returns exactly when
    neither buffer is detached and both ranges lie in their buffers.  With
    buffers that are not detached, a range out of bounds (a negative offset or
    count included) is a RangeError; a detached destination is a TypeError.
    Whenever the operation throws, the store is as it was: no byte has been
    written. *)
Theorem CopyDataBlockBytes_succeeds_iff
  (h : BufferStore) (dest src : bufferRef) (D B : ArrayBufferLike)
  (destOffset srcOffset n : Z) :
  h !! dest = Some D -> h !! src = Some B ->
  let result := CopyDataBlockBytes dest destOffset src srcOffset n h in
  (fst result = Normal tt <->
   isDetached D = false /\ isDetached B = false /\
   inBounds srcOffset n B = true /\ inBounds destOffset n D = true) /\
  (isDetached D = false -> isDetached B = false ->
   inBounds srcOffset n B && inBounds destOffset n D = false ->
   thrown (fst result) = Some RangeError) /\
  (isDetached D = true -> thrown (fst result) = Some TypeError) /\
  (forall e, fst result = Throw e -> snd result = h).
Proof.
  intros HD HB result.
  pose proof (CopyDataBlockBytes_run h dest src D B destOffset srcOffset n HD HB) as Hrun.
  fold result in Hrun.
  split; [| split; [| split]].
  - rewrite Hrun, !inBounds_spec.
    destruct (isDetached D); [split; [discriminate | intros (? & _); discriminate] |].
    destruct (Z.ltb_spec srcOffset 0); [split; [discriminate | lia] |].
    destruct (Z.ltb_spec n 0); [split; [discriminate | lia] |].
    destruct (isDetached B); [split; [discriminate | intros (_ & ? & _); discriminate] |].
    destruct (Z.ltb_spec (Z.of_nat (byteLength B)) (srcOffset + n));
      [split; [discriminate | lia] |].
    destruct (Z.ltb_spec destOffset 0); [split; [discriminate | lia] |].
    destruct (Z.ltb_spec (Z.of_nat (byteLength D)) (Z.of_nat (Z.to_nat n) + destOffset));
      [split; [discriminate | lia] |].
    split; [intros _ | reflexivity]. repeat split; auto; lia.
  - intros HdD HdB Hout. subst result.
    destruct (CopyDataBlockBytes_range_error _ _ _ _ _ _ _ _ HD HB HdD HdB Hout) as (m & ->).
    reflexivity.
  - intros HdD. rewrite Hrun, HdD. reflexivity.
  - intros e. subst result. apply CopyDataBlockBytes_unchanged.
Qed.

Lemma CopyDataBlockBytes_succeeds_iff_witness :
  fst (CopyDataBlockBytes 1 1 2 0 2 sampleBuffers) = Normal tt /\
  thrown (fst (CopyDataBlockBytes 1 3 2 0 2 sampleBuffers)) = Some RangeError /\
  snd (CopyDataBlockBytes 1 3 2 0 2 sampleBuffers) = sampleBuffers.
Proof.
  split; [| split].
  - apply (CopyDataBlockBytes_succeeds_iff sampleBuffers 1 2
             (newArrayBuffer [Byte.x61; Byte.x62; Byte.x63; Byte.x64])
             (newArrayBuffer [Byte.x31; Byte.x32]) 1 0 2 eq_refl eq_refl).
    repeat split.
  - apply (CopyDataBlockBytes_succeeds_iff sampleBuffers 1 2
             (newArrayBuffer [Byte.x61; Byte.x62; Byte.x63; Byte.x64])
             (newArrayBuffer [Byte.x31; Byte.x32]) 3 0 2 eq_refl eq_refl); reflexivity.
  - destruct (CopyDataBlockBytes_succeeds_iff sampleBuffers 1 2
                (newArrayBuffer [Byte.x61; Byte.x62; Byte.x63; Byte.x64])
                (newArrayBuffer [Byte.x31; Byte.x32]) 3 0 2 eq_refl eq_refl)
      as (_ & _ & _ & Hsame).
    apply (Hsame (VError RangeError "offset is out of bounds")). reflexivity.
Defined.

Lemma fresh_lookup (h : BufferStore) : h !! fresh (dom h) = None.
Proof. apply not_elem_of_dom. apply is_fresh. Qed.

Lemma fresh_ne (h : BufferStore) b B : h !! b = Some B -> b <> fresh (dom h).
Proof. intros H E. rewrite E, fresh_lookup in H. discriminate. Qed.

Lemma ArrayBuffer_slice_eval h buffer B (begin end_ : nat) :
  h !! buffer = Some B -> isDetached B = false ->
  begin <= end_ <= length (dataBlock B) ->
  ArrayBuffer_slice buffer (Z.of_nat begin) (Z.of_nat end_) h =
  (Normal (fresh (dom h)),
   <[fresh (dom h) := newArrayBuffer (take (end_ - begin) (drop begin (dataBlock B)))]> h).
Proof.
  intros HB Hd Hr. unfold ArrayBuffer_slice, bind, allocBuffer.
  rewrite (getBuffer_eq _ _ _ HB), Hd. unfold byteLength. rewrite Hd.
  destruct (Z.ltb_spec (Z.of_nat begin) 0) as [?|_]; [lia |].
  destruct (Z.ltb_spec (Z.of_nat end_) 0) as [?|_]; [lia |].
  cbv zeta.
  rewrite !Z.min_l, Z.max_l by lia.
  now rewrite <- Nat2Z.inj_sub, !Nat2Z.id by lia.
Qed.

Lemma overwrite_all (bytes data : list Byte.byte) :
  length data = length bytes -> overwrite 0 bytes data = bytes.
Proof.
  intros H. unfold overwrite. simpl. rewrite drop_ge by lia. apply app_nil_r.
Qed.

(** X4.  For [begin <= end] within a buffer that is not detached,
    [ArrayBufferSlice] gives the same result with and without
    [ArrayBuffer.prototype.slice]: a new buffer, not in the store before,
    that holds the bytes from [begin] up to [end]; the buffer sliced is
    untouched. *)
Theorem ArrayBufferSlice_in_range
  (hasSlice : bool) (h : BufferStore) (buffer : bufferRef) (B : ArrayBufferLike)
  (begin end_ : nat) :
  h !! buffer = Some B -> isDetached B = false ->
  begin <= end_ <= length (dataBlock B) ->
  exists slice h' R,
    ArrayBufferSlice hasSlice buffer (Z.of_nat begin) (Z.of_nat end_) h = (Normal slice, h') /\
    h !! slice = None /\
    h' = <[slice := R]> h /\
    h' !! buffer = Some B /\
    isDetached R = false /\
    length (dataBlock R) = end_ - begin /\
    (forall i, i < end_ - begin -> dataBlock R !! i = dataBlock B !! (begin + i)).
Proof.
  intros HB Hd Hr.
  set (R := newArrayBuffer (take (end_ - begin) (drop begin (dataBlock B)))).
  exists (fresh (dom h)), (<[fresh (dom h) := R]> h), R.
  split; [| split; [apply fresh_lookup | split; [reflexivity | split; [| split; [| split]]]]].
  - destruct hasSlice.
    + now apply ArrayBuffer_slice_eval.
    + unfold ArrayBufferSlice, new_ArrayBuffer, bind, allocBuffer, ret.
      destruct (Z.ltb_spec (Z.of_nat end_ - Z.of_nat begin) 0) as [?|_]; [lia |].
      cbv zeta.
      erewrite (CopyDataBlockBytes_eval _ _ buffer
                  (newArrayBuffer (replicate (Z.to_nat (Z.of_nat end_ - Z.of_nat begin)) Byte.x00))
                  B).
      * cbv beta iota. rewrite insert_insert_eq. cbn [dataBlock newArrayBuffer].
        rewrite <- Nat2Z.inj_sub, !Nat2Z.id by lia.
        rewrite overwrite_all; [reflexivity |].
        rewrite length_replicate, window_length; lia.
      * apply lookup_insert_eq.
      * rewrite lookup_insert_ne; [exact HB |]. intros E. symmetry in E. revert E.
        now apply (fresh_ne h buffer B).
      * reflexivity.
      * exact Hd.
      * lia.
      * lia.
      * lia.
      * lia.
      * cbn [dataBlock newArrayBuffer]. rewrite length_replicate. lia.
  - rewrite lookup_insert_ne; [exact HB |]. intros E. symmetry in E. revert E.
    now apply (fresh_ne h buffer B).
  - reflexivity.
  - subst R. cbn [dataBlock newArrayBuffer]. apply window_length. lia.
  - intros i Hi. subst R. cbn [dataBlock newArrayBuffer]. now apply window_lookup.
Qed.

Lemma ArrayBufferSlice_in_range_witness :
  exists slice h' R,
    ArrayBufferSlice false 1 1 3 sampleBuffers = (Normal slice, h') /\
    ArrayBufferSlice true 1 1 3 sampleBuffers = (Normal slice, h') /\
    h' !! slice = Some R /\
    dataBlock R !! 0 = Some Byte.x62 /\
    dataBlock R !! 1 = Some Byte.x63 /\
    length (dataBlock R) = 2.
Proof.
  destruct (ArrayBufferSlice_in_range false sampleBuffers 1
              (newArrayBuffer [Byte.x61; Byte.x62; Byte.x63; Byte.x64]) 1 3 eq_refl eq_refl)
    as (slice & h' & R & Hrun & _ & Hstore & _ & _ & Hlen & Hbytes); [simpl; lia |].
  exists slice, h', R. split; [exact Hrun |]. split; [rewrite <- Hrun; reflexivity |].
  split; [rewrite Hstore; apply lookup_insert_eq |].
  split; [apply (Hbytes 0); lia |]. split; [apply (Hbytes 1); lia | exact Hlen].
Defined.

(** X5.  Outside that range the two paths of [ArrayBufferSlice] part: with a
    negative [begin], with [end] before [begin] or with [end] beyond the
    buffer, the engine's [slice] clamps the indices and returns a new buffer,
    whereas the fallback throws a RangeError; the buffer sliced is untouched
    in both cases. *)
Theorem ArrayBufferSlice_out_of_range
  (h : BufferStore) (buffer : bufferRef) (B : ArrayBufferLike) (begin end_ : Z) :
  h !! buffer = Some B -> isDetached B = false ->
  (begin < 0 \/ end_ < begin \/ Z.of_nat (length (dataBlock B)) < end_)%Z ->
  (exists slice R,
      ArrayBufferSlice true buffer begin end_ h = (Normal slice, <[slice := R]> h) /\
      h !! slice = None /\
      length (dataBlock R) <= length (dataBlock B)) /\
  thrown (fst (ArrayBufferSlice false buffer begin end_ h)) = Some RangeError /\
  snd (ArrayBufferSlice false buffer begin end_ h) !! buffer = Some B.
Proof.
  intros HB Hd Hout. split.
  - unfold ArrayBufferSlice, ArrayBuffer_slice, bind, allocBuffer.
    rewrite (getBuffer_eq _ _ _ HB), Hd. cbv zeta.
    eexists. eexists. split; [reflexivity |]. split; [apply fresh_lookup |].
    cbn [dataBlock newArrayBuffer]. rewrite length_take, length_drop. lia.
  - unfold ArrayBufferSlice, new_ArrayBuffer, bind, allocBuffer, ret, throw. cbv zeta.
    destruct (Z.ltb_spec (end_ - begin) 0) as [?|Hlen]; [split; [reflexivity | exact HB] |].
    set (h1 := <[fresh (dom h) := _]> h).
    assert (H1 : h1 !! fresh (dom h) =
                 Some (newArrayBuffer (replicate (Z.to_nat (end_ - begin)) Byte.x00)))
      by apply lookup_insert_eq.
    assert (H2 : h1 !! buffer = Some B).
    { subst h1. rewrite lookup_insert_ne; [exact HB |]. intros E. symmetry in E. revert E.
      now apply (fresh_ne h buffer B). }
    destruct (CopyDataBlockBytes_range_error h1 _ buffer _ B 0 begin (end_ - begin) H1 H2)
      as (m & ->); [reflexivity | exact Hd | |].
    + apply andb_false_iff. left. apply not_true_iff_false. rewrite inBounds_spec.
      unfold byteLength. rewrite Hd. lia.
    + split; [reflexivity | exact H2].
Qed.

Lemma ArrayBufferSlice_out_of_range_witness :
  (exists slice R,
      ArrayBufferSlice true 1 3 1 sampleBuffers = (Normal slice, <[slice := R]> sampleBuffers)) /\
  thrown (fst (ArrayBufferSlice false 1 3 1 sampleBuffers)) = Some RangeError /\
  thrown (fst (ArrayBufferSlice false 1 2 9 sampleBuffers)) = Some RangeError.
Proof.
  destruct (ArrayBufferSlice_out_of_range sampleBuffers 1
              (newArrayBuffer [Byte.x61; Byte.x62; Byte.x63; Byte.x64]) 3 1 eq_refl eq_refl)
    as ((slice & R & Hrun & _) & Hthrow & _); [lia |].
  destruct (ArrayBufferSlice_out_of_range sampleBuffers 1
              (newArrayBuffer [Byte.x61; Byte.x62; Byte.x63; Byte.x64]) 2 9 eq_refl eq_refl)
    as (_ & Hthrow' & _); [simpl; lia |].
  split; [exists slice, R; exact Hrun | split; [exact Hthrow | exact Hthrow']].
Defined.

(** X6.  [CloneAsUint8Array] of a view that lies in its buffer returns a
    view at offset 0 of a new buffer with the same bytes as the view; the
    buffer of the view is untouched, and what is written to it afterwards
    does not show in the clone.  On a detached buffer the clone throws a
    TypeError, and so it does on an engine without
    [ArrayBuffer.prototype.slice], for which [CloneAsUint8Array] has no
    fallback. *)
Theorem CloneAsUint8Array_copies :
  (forall (h : BufferStore) (O : Uint8Array) (B : ArrayBufferLike),
      h !! ViewedArrayBuffer O = Some B ->
      isDetached B = false ->
      ByteOffset O + ByteLength O <= length (dataBlock B) ->
      exists clone h',
        CloneAsUint8Array true O h = (Normal clone, h') /\
        h !! ViewedArrayBuffer clone = None /\
        ByteOffset clone = 0 /\
        ByteLength clone = ByteLength O /\
        viewedBytes h' clone = viewedBytes h O /\
        viewedBytes h' O = viewedBytes h O /\
        (forall X, viewedBytes (<[ViewedArrayBuffer O := X]> h') clone = viewedBytes h O)) /\
  (forall (h : BufferStore) (O : Uint8Array) (B : ArrayBufferLike),
      h !! ViewedArrayBuffer O = Some B ->
      isDetached B = true ->
      thrown (fst (CloneAsUint8Array true O h)) = Some TypeError /\
      snd (CloneAsUint8Array true O h) = h) /\
  (forall (h : BufferStore) (O : Uint8Array) (B : ArrayBufferLike),
      h !! ViewedArrayBuffer O = Some B ->
      thrown (fst (CloneAsUint8Array false O h)) = Some TypeError /\
      snd (CloneAsUint8Array false O h) = h).
Proof.
  split; [| split].
  - intros h O B HB Hd Hr.
    set (R := newArrayBuffer (take (ByteLength O) (drop (ByteOffset O) (dataBlock B)))).
    assert (HlenR : length (dataBlock R) = ByteLength O)
      by (subst R; cbn [dataBlock newArrayBuffer]; apply window_length; lia).
    assert (Hne : ViewedArrayBuffer O <> fresh (dom h)) by now apply (fresh_ne h _ B).
    exists {| ViewedArrayBuffer := fresh (dom h); ByteOffset := 0; ByteLength := ByteLength O |},
      (<[fresh (dom h) := R]> h).
    assert (Hclone : viewedBytes (<[fresh (dom h) := R]> h)
                       {| ViewedArrayBuffer := fresh (dom h); ByteOffset := 0;
                          ByteLength := ByteLength O |} = viewedBytes h O).
    { unfold viewedBytes. cbn [ViewedArrayBuffer ByteOffset ByteLength].
      rewrite lookup_insert_eq, HB, Hd. cbn [isDetached dataBlock R newArrayBuffer].
      subst R. cbn [isDetached dataBlock newArrayBuffer]. rewrite drop_0.
      now rewrite take_take, Nat.min_id. }
    split; [| split; [apply fresh_lookup | split; [reflexivity | split; [reflexivity |
            split; [exact Hclone | split]]]]].
    + unfold CloneAsUint8Array, get_byteOffset, get_byteLength, bind, ret.
      rewrite (getBuffer_eq _ _ _ HB), Hd. cbv beta iota.
      rewrite (getBuffer_eq _ _ _ HB), ?Hd. cbv beta iota.
      rewrite <- Nat2Z.inj_add.
      rewrite (ArrayBuffer_slice_eval h _ B) by (auto; lia).
      replace (ByteOffset O + ByteLength O - ByteOffset O) with (ByteLength O) by lia.
      fold R. unfold new_Uint8Array, bind, ret.
      erewrite getBuffer_eq by apply lookup_insert_eq.
      unfold byteLength. cbn [isDetached R newArrayBuffer].
      replace (isDetached R) with false by reflexivity. now rewrite HlenR.
    + unfold viewedBytes. rewrite lookup_insert_ne by congruence. reflexivity.
    + intros X. rewrite <- Hclone. unfold viewedBytes.
      cbn [ViewedArrayBuffer ByteOffset ByteLength].
      now rewrite lookup_insert_ne by exact Hne.
  - intros h O B HB Hd.
    unfold CloneAsUint8Array, get_byteOffset, get_byteLength, ArrayBuffer_slice, bind, ret,
      throw.
    rewrite (getBuffer_eq _ _ _ HB), Hd. cbv beta iota.
    rewrite (getBuffer_eq _ _ _ HB). cbv beta iota.
    rewrite (getBuffer_eq _ _ _ HB), Hd. split; reflexivity.
  - intros h O B HB.
    unfold CloneAsUint8Array, get_byteOffset, get_byteLength, bind, ret, throw.
    rewrite (getBuffer_eq _ _ _ HB). cbv beta iota.
    rewrite (getBuffer_eq _ _ _ HB). split; reflexivity.
Qed.

Lemma CloneAsUint8Array_copies_witness :
  (exists clone h',
      CloneAsUint8Array true sampleView sampleBuffers = (Normal clone, h') /\
      viewedBytes h' clone = Some [Byte.x62; Byte.x63] /\
      viewedBytes h' sampleView = Some [Byte.x62; Byte.x63]) /\
  thrown (fst (CloneAsUint8Array true
                 {| ViewedArrayBuffer := 3; ByteOffset := 0; ByteLength := 1 |}
                 sampleBuffers)) = Some TypeError /\
  thrown (fst (CloneAsUint8Array false sampleView sampleBuffers)) = Some TypeError.
Proof.
  destruct CloneAsUint8Array_copies as (Hcopy & Hdetached & Hnoslice).
  split; [| split].
  - destruct (Hcopy sampleBuffers sampleView
                (newArrayBuffer [Byte.x61; Byte.x62; Byte.x63; Byte.x64]) eq_refl eq_refl)
      as (clone & h' & Hrun & _ & _ & _ & Hclone & Hsource & _); [simpl; lia |].
    exists clone, h'. split; [exact Hrun |]. split; [exact Hclone | exact Hsource].
  - apply (Hdetached sampleBuffers _ (detachArrayBuffer (newArrayBuffer [Byte.x61])));
      reflexivity.
  - apply (Hnoslice sampleBuffers sampleView
             (newArrayBuffer [Byte.x61; Byte.x62; Byte.x63; Byte.x64])).
    reflexivity.
Defined.

(** X1.  With [structuredClone], [TransferArrayBuffer] moves the bytes to
    a new buffer and leaves the argument detached: [IsDetachedBuffer] holds of
    it, [CanTransferArrayBuffer] does not, and transferring it again throws a
    DataCloneError.  Without [structuredClone] the buffer itself is returned
    and nothing is detached.  A buffer that [CanTransferArrayBuffer] accepts
    is transferred without error on both engines, and the result is
    transferable again. *)
Theorem TransferArrayBuffer_moves :
  (forall O : ArrayBufferLike,
      isDetached O = false ->
      exists O',
        TransferArrayBuffer true O = (Normal O', detachArrayBuffer O) /\
        dataBlock O' = dataBlock O /\
        byteLength O' = byteLength O /\
        IsDetachedBuffer (detachArrayBuffer O) = true /\
        CanTransferArrayBuffer (detachArrayBuffer O) = false /\
        thrown (fst (TransferArrayBuffer true (detachArrayBuffer O))) = Some DataCloneError /\
        snd (TransferArrayBuffer true (detachArrayBuffer O)) = detachArrayBuffer O) /\
  (forall O : ArrayBufferLike, TransferArrayBuffer false O = (Normal O, O)) /\
  (forall (hasStructuredClone : bool) (O : ArrayBufferLike),
      CanTransferArrayBuffer O = true ->
      exists O',
        fst (TransferArrayBuffer hasStructuredClone O) = Normal O' /\
        dataBlock O' = dataBlock O /\
        CanTransferArrayBuffer O' = true).
Proof.
  split; [| split].
  - intros O Hd. exists (newArrayBuffer (dataBlock O)).
    unfold TransferArrayBuffer. rewrite Hd.
    unfold byteLength. cbn. rewrite Hd. repeat split.
  - reflexivity.
  - intros b O H. unfold CanTransferArrayBuffer, IsDetachedBuffer, byteLength in H.
    destruct (isDetached O) eqn:Hd; [discriminate |].
    destruct b.
    + exists (newArrayBuffer (dataBlock O)). unfold TransferArrayBuffer. rewrite Hd.
      cbn [fst]. repeat split.
      unfold CanTransferArrayBuffer, IsDetachedBuffer, byteLength. cbn. exact H.
    + exists O. cbn [TransferArrayBuffer fst]. repeat split.
      unfold CanTransferArrayBuffer, IsDetachedBuffer, byteLength. now rewrite Hd.
Qed.

Lemma TransferArrayBuffer_moves_witness :
  (exists O',
      TransferArrayBuffer true (newArrayBuffer [Byte.x61; Byte.x62]) =
      (Normal O', detachArrayBuffer (newArrayBuffer [Byte.x61; Byte.x62])) /\
      dataBlock O' = [Byte.x61; Byte.x62] /\
      thrown (fst (TransferArrayBuffer true
                     (detachArrayBuffer (newArrayBuffer [Byte.x61; Byte.x62]))))
      = Some DataCloneError) /\
  (exists O',
      fst (TransferArrayBuffer false (newArrayBuffer [Byte.x61; Byte.x62])) = Normal O' /\
      CanTransferArrayBuffer O' = true).
Proof.
  destruct TransferArrayBuffer_moves as (Hmove & _ & Hguard). split.
  - destruct (Hmove (newArrayBuffer [Byte.x61; Byte.x62]) eq_refl)
      as (O' & Hrun & Hdata & _ & _ & _ & Hagain & _).
    exists O'. auto.
  - destruct (Hguard false (newArrayBuffer [Byte.x61; Byte.x62]) eq_refl)
      as (O' & Hrun & _ & Hcan).
    exists O'. auto.
Defined.

(** ** Sequences of calls on the streams *)

Lemma evolves_refl st : evolves st st.
Proof. unfold evolves. auto. Qed.

Lemma evolves_trans st1 st2 st3 : evolves st1 st2 -> evolves st2 st3 -> evolves st1 st3.
Proof.
  unfold evolves. intros (Hr & Hd & Hs) (Hr' & Hd' & Hs').
  split; [congruence |]. split; [auto |].
  intros H. destruct (Hs H) as [H1 H2].
  destruct Hs' as [H3 H4]; [congruence |]. split; congruence.
Qed.

Lemma streamsEvolve_refl m : streamsEvolve m m.
Proof. intros s st H. exists st. split; [exact H | apply evolves_refl]. Qed.

Lemma streamsEvolve_trans m1 m2 m3 :
  streamsEvolve m1 m2 -> streamsEvolve m2 m3 -> streamsEvolve m1 m3.
Proof.
  intros H12 H23 s st H. destruct (H12 s st H) as (st2 & H2 & E2).
  destruct (H23 s st2 H2) as (st3 & H3 & E3). exists st3. split; [exact H3 |].
  now apply (evolves_trans st st2 st3).
Qed.

Lemma streamsEvolve_insert m s st st' :
  m !! s = Some st -> evolves st st' -> streamsEvolve m (<[s := st']> m).
Proof.
  intros H E s0 st0 H0. destruct (decide (s = s0)) as [->|Hne].
  - exists st'. rewrite lookup_insert_eq. split; [reflexivity | congruence].
  - exists st0. rewrite lookup_insert_ne by exact Hne. split; [exact H0 | apply evolves_refl].
Qed.

Lemma streamsEvolve_fresh m st' : streamsEvolve m (<[fresh (dom m) := st']> m).
Proof.
  intros s st H. exists st. split; [| apply evolves_refl].
  rewrite lookup_insert_ne; [exact H |]. intros E.
  assert (Hin : s ∈ dom m) by (apply elem_of_dom; eauto).
  rewrite <- E in Hin. exact (is_fresh (dom m) Hin).
Qed.

Lemma keepsStreams_preserves {A} (Q : gmap nat ReadableStream -> Prop) (m : M World A) :
  keepsStreams m -> preserves (fun w => Q (streams w)) m.
Proof. intros Hm w H. now rewrite Hm. Qed.

Ltac streams_prim :=
  first
    [ apply keepsStreams_preserves; intros ?; reflexivity
    | solve [auto with pres] ].

Lemma keepsStreams_getStream s : keepsStreams (getStream s).
Proof. intros w. now rewrite getStream_unchanged. Qed.

Lemma keepsStreams_getWritable d : keepsStreams (getWritable d).
Proof. intros w. now rewrite getWritable_unchanged. Qed.

Section StreamsKept.
Variable Q : gmap nat ReadableStream -> Prop.

Lemma streams_closeTail (r : option readerRef) :
  preserves (fun w => Q (streams w))
    (match r with
     | None => ret tt
     | Some r =>
         reader <- getReader r ;;
         match reader with
         | ReadableStreamDefaultReader owner closedPromise readRequests forAuthorCode =>
             forEach readRequests (fun readRequest =>
               ReadRequest_resolve readRequest
                 (ReadableStreamCreateReadResult VUndefined true forAuthorCode)) ;;
             setReader r (ReadableStreamDefaultReader owner closedPromise [] forAuthorCode)
         | ReadableStreamBYOBReader _ _ _ => ret tt
         end ;;
         defaultReaderClosedPromiseResolve r
     end).
Proof.
  unfold defaultReaderClosedPromiseResolve, ReadRequest_resolve.
  repeat first [pres_step | streams_prim].
Qed.

Lemma streams_errorTail (r : option readerRef) e :
  preserves (fun w => Q (streams w))
    (match r with
     | None => ret tt
     | Some r =>
         reader <- getReader r ;;
         match reader with
         | ReadableStreamDefaultReader owner closedPromise readRequests forAuthorCode =>
             forEach readRequests (fun readRequest => ReadRequest_reject readRequest e) ;;
             setReader r (ReadableStreamDefaultReader owner closedPromise [] forAuthorCode)
         | ReadableStreamBYOBReader owner closedPromise readIntoRequests =>
             forEach readIntoRequests (fun readIntoRequest =>
               ReadIntoRequest_reject readIntoRequest e) ;;
             setReader r (ReadableStreamBYOBReader owner closedPromise [])
         end ;;
         defaultReaderClosedPromiseReject r e
     end).
Proof.
  unfold defaultReaderClosedPromiseReject, ReadRequest_reject, ReadIntoRequest_reject.
  repeat first [pres_step | streams_prim].
Qed.
End StreamsKept.

Lemma ReadableStreamClose_streams s w :
  streams (snd (ReadableStreamClose s w)) = closeEffect s (streams w).
Proof.
  unfold ReadableStreamClose, closeEffect. unfold bind at 1.
  destruct (streams w !! s) as [st|] eqn:Hs.
  - rewrite (getStream_eq _ _ _ Hs). unfold bind at 1, assert.
    destruct (ReadableStreamState_eqb (_state st) readable); [| reflexivity].
    unfold ret at 1. cbv beta iota. unfold bind at 1.
    rewrite (updateStream_eq _ _ _ _ Hs).
    apply (streams_closeTail (fun m => m = <[s := set_state closed st]> (streams w))).
    reflexivity.
  - unfold getStream. now rewrite Hs.
Qed.

Lemma ReadableStreamError_streams s e w :
  streams (snd (ReadableStreamError s e w)) = errorEffect s e (streams w).
Proof.
  unfold ReadableStreamError, errorEffect. unfold bind at 1.
  destruct (streams w !! s) as [st|] eqn:Hs.
  - rewrite (getStream_eq _ _ _ Hs). unfold bind at 1, assert.
    destruct (ReadableStreamState_eqb (_state st) readable); [| reflexivity].
    unfold ret at 1. cbv beta iota. unfold bind at 1.
    rewrite (updateStream_eq _ _ _ _ Hs). unfold bind at 1.
    erewrite updateStream_eq by (mcbn; apply lookup_insert_eq).
    apply (streams_errorTail
             (fun m => m = <[s := set_storedError e (set_state errored st)]> (streams w))).
    mcbn. apply insert_insert_eq.
  - unfold getStream. now rewrite Hs.
Qed.

Lemma ReadableStreamCancel_streams s reason w :
  streams (snd (ReadableStreamCancel s reason w)) = cancelEffect s (streams w).
Proof.
  unfold cancelEffect. destruct (streams w !! s) as [st|] eqn:Hs.
  - rewrite (ReadableStreamCancel_unfold _ _ _ _ Hs).
    set (w0 := withStreams _ _).
    assert (Hs0 : streams w0 !! s = Some (set_disturbed true st))
      by (subst w0; mcbn; apply lookup_insert_eq).
    change (<[s := set_disturbed true st]> (streams w)) with (streams w0).
    unfold bind at 1. rewrite (getStream_eq _ _ _ Hs0).
    unfold closeEffect. rewrite Hs0. mcbn.
    destruct (_state st) eqn:Hst; mcbn.
    + unfold bind at 1.
      pose proof (ReadableStreamClose_streams s w0) as Hclose.
      unfold closeEffect in Hclose. rewrite Hs0 in Hclose.
      cbn [_state set_disturbed] in Hclose. rewrite Hst in Hclose.
      cbn [ReadableStreamState_eqb] in Hclose.
      destruct (ReadableStreamClose s w0) as [[u|e] w1]; [| exact Hclose].
      cbn [snd] in Hclose. rewrite <- Hclose.
      unfold CancelSteps, newPromise, transformPromiseWith, allocPromise, logEvent, bind.
      reflexivity.
    + reflexivity.
    + reflexivity.
  - unfold ReadableStreamCancel, updateStream, bind, logEvent, getStream.
    cbv beta iota. mcbn. now rewrite Hs.
Qed.

Lemma closeEffect_evolves s m : streamsEvolve m (closeEffect s m).
Proof.
  unfold closeEffect. destruct (m !! s) as [st|] eqn:Hs; [| apply streamsEvolve_refl].
  destruct (_state st) eqn:Hst; mcbn; try apply streamsEvolve_refl.
  apply (streamsEvolve_insert m s st); [exact Hs |].
  unfold evolves. mcbn. repeat split; auto; congruence.
Qed.

Lemma errorEffect_evolves s e m : streamsEvolve m (errorEffect s e m).
Proof.
  unfold errorEffect. destruct (m !! s) as [st|] eqn:Hs; [| apply streamsEvolve_refl].
  destruct (_state st) eqn:Hst; mcbn; try apply streamsEvolve_refl.
  apply (streamsEvolve_insert m s st); [exact Hs |].
  unfold evolves. mcbn. repeat split; auto; congruence.
Qed.

Lemma cancelEffect_evolves s m : streamsEvolve m (cancelEffect s m).
Proof.
  unfold cancelEffect. destruct (m !! s) as [st|] eqn:Hs; [| apply streamsEvolve_refl].
  apply (streamsEvolve_trans m (<[s := set_disturbed true st]> m)).
  - apply (streamsEvolve_insert m s st); [exact Hs |].
    unfold evolves. mcbn. repeat split; auto.
  - apply closeEffect_evolves.
Qed.

Lemma CreateReadableStream_streams highWaterMark sizeAlgorithm w :
  streamsEvolve (streams w) (streams (snd (CreateReadableStream highWaterMark sizeAlgorithm w))).
Proof.
  unfold CreateReadableStream, bind, assert.
  destruct (IsNonNegativeNumber (VNumber highWaterMark)); [| apply streamsEvolve_refl].
  cbn. apply streamsEvolve_fresh.
Qed.

Section MethodsKeepStreams.
Variable Q : gmap nat ReadableStream -> Prop.

Lemma streams_locked this : preserves (fun w => Q (streams w)) (locked this).
Proof.
  unfold locked, IsReadableStreamLocked.
  repeat first [pres_step | streams_prim].
Qed.

Lemma streams_pipeThrough this transform options :
  preserves (fun w => Q (streams w)) (pipeThrough this transform options).
Proof.
  unfold pipeThrough, IsReadableStreamLocked, IsWritableStreamLocked, ReadableStreamPipeTo,
    setPromiseIsHandledToTrue, newPromise.
  repeat first [pres_step | streams_prim].
Qed.

Lemma streams_pipeTo this dest options :
  preserves (fun w => Q (streams w)) (pipeTo this dest options).
Proof.
  unfold pipeTo, IsReadableStreamLocked, IsWritableStreamLocked, ReadableStreamPipeTo,
    promiseRejectedWith, newPromise.
  repeat first [pres_step | streams_prim].
Qed.
End MethodsKeepStreams.

Lemma cancel_streams this reason w :
  streamsEvolve (streams w) (streams (snd (cancel this reason w))).
Proof.
  unfold cancel. destruct this; try apply streamsEvolve_refl.
  unfold bind at 1, IsReadableStreamLocked. unfold bind at 1.
  destruct (getStream s w) as [[st|e] w0] eqn:Hget.
  - pose proof (getStream_unchanged s w) as Hw. rewrite Hget in Hw. cbn [snd] in Hw. subst w0.
    destruct (_reader st); unfold ret; cbv beta iota.
    + apply streamsEvolve_refl.
    + rewrite ReadableStreamCancel_streams. apply cancelEffect_evolves.
  - pose proof (getStream_unchanged s w) as Hw. rewrite Hget in Hw. cbn [snd] in Hw. subst w0.
    apply streamsEvolve_refl.
Qed.

Lemma afterCall_evolves c w : streamsEvolve (streams w) (streams (afterCall c w)).
Proof.
  destruct c; unfold afterCall.
  - rewrite ReadableStreamClose_streams. apply closeEffect_evolves.
  - rewrite ReadableStreamError_streams. apply errorEffect_evolves.
  - rewrite ReadableStreamCancel_streams. apply cancelEffect_evolves.
  - apply CreateReadableStream_streams.
  - apply (streams_locked (streamsEvolve (streams w))). apply streamsEvolve_refl.
  - apply cancel_streams.
  - apply (streams_pipeThrough (streamsEvolve (streams w))). apply streamsEvolve_refl.
  - apply (streams_pipeTo (streamsEvolve (streams w))). apply streamsEvolve_refl.
Qed.

Lemma afterCalls_evolves cs w : streamsEvolve (streams w) (streams (afterCalls cs w)).
Proof.
  revert w. induction cs as [|c cs IH]; intros w; [apply streamsEvolve_refl |].
  unfold afterCalls. cbn [foldl].
  apply (streamsEvolve_trans _ (streams (afterCall c w))); [apply afterCall_evolves |].
  apply IH.
Qed.

(** X8.  With the assertions of the source in force, a stream that is
    closed or errored stays so: whatever sequence of [ReadableStreamClose],
    [ReadableStreamError], [ReadableStreamCancel], [CreateReadableStream] and
    of the methods [locked], [cancel], [pipeThrough] and [pipeTo] is called,
    on whatever streams, its state and its stored error are those it had. *)
Theorem settled_state_is_final
  (cs : list StreamCall) (w : World) (s : streamRef) (st : ReadableStream) :
  streams w !! s = Some st ->
  _state st <> readable ->
  exists st',
    streams (afterCalls cs w) !! s = Some st' /\
    _state st' = _state st /\
    _storedError st' = _storedError st.
Proof.
  intros Hs Hst. destruct (afterCalls_evolves cs w s st Hs) as (st' & Hs' & _ & _ & Hfinal).
  exists st'. split; [exact Hs' |]. now apply Hfinal.
Qed.

Lemma settled_state_is_final_witness :
  exists st',
    streams (afterCalls [CallReadableStreamError 11 (VString "late");
                         CallReadableStreamCancel 11 VNull;
                         CallReadableStreamClose 11] sampleWorld) !! 11 = Some st' /\
    _state st' = errored /\
    _storedError st' = VString "broken".
Proof.
  apply (settled_state_is_final
           [CallReadableStreamError 11 (VString "late"); CallReadableStreamCancel 11 VNull;
            CallReadableStreamClose 11]
           sampleWorld 11
           (set_storedError (VString "broken") (set_state errored (sampleStream None)))).
  - reflexivity.
  - discriminate.
Defined.

(** X9.  A stream that [IsReadableStreamDisturbed] reports as disturbed is
    reported as disturbed after every sequence of calls of the operations and
    methods: none of them resets the flag. *)
Theorem disturbed_is_never_reset
  (cs : list StreamCall) (w : World) (s : streamRef) :
  IsReadableStreamDisturbed s w = (Normal true, w) ->
  IsReadableStreamDisturbed s (afterCalls cs w) = (Normal true, afterCalls cs w) /\
  disturbedAt s (afterCalls cs w).
Proof.
  intros H. unfold IsReadableStreamDisturbed, bind, getStream, ret in H.
  destruct (streams w !! s) as [st|] eqn:Hs; [| discriminate].
  assert (Hd : _disturbed st = true) by congruence.
  destruct (afterCalls_evolves cs w s st Hs) as (st' & Hs' & _ & Hkeep & _).
  split.
  - unfold IsReadableStreamDisturbed, bind, ret. rewrite (getStream_eq _ _ _ Hs').
    now rewrite (Hkeep Hd).
  - exists st'. split; [exact Hs' |]. now apply Hkeep.
Qed.

Lemma disturbed_is_never_reset_witness :
  disturbedAt 9
    (afterCalls [CallReadableStreamClose 9; CallReadableStreamError 9 VNull;
                 CallPipeTo (VReadableStream 9) (VWritableStream 2) OptionsOmitted]
       (snd (ReadableStreamCancel 9 VNull sampleWorld))).
Proof.
  apply (disturbed_is_never_reset
           [CallReadableStreamClose 9; CallReadableStreamError 9 VNull;
            CallPipeTo (VReadableStream 9) (VWritableStream 2) OptionsOmitted]
           (snd (ReadableStreamCancel 9 VNull sampleWorld)) 9).
  reflexivity.
Defined.




(** X11.  The method [cancel] on a stream that has a reader returns a new
    promise that is already rejected with a TypeError, and the store is
    otherwise unchanged: the stream is not disturbed and the cancel steps are
    not called.  On a value that is not a readable stream it returns a new
    promise rejected with the brand-check error.  On a stream of the store
    whose reader, if any, is in the store, [cancel] never throws. *)
Theorem cancel_on_locked_stream (w : World) (reason : JSValue) :
  (forall s st,
      streams w !! s = Some st ->
      hasReader st = true ->
      cancel (VReadableStream s) reason w =
      (Normal (length (promises w)),
       withPromises (promises w ++ [Rejected cancelLockedError]) w)) /\
  (forall this,
      IsReadableStream this = false ->
      cancel this reason w =
      (Normal (length (promises w)),
       withPromises (promises w ++ [Rejected (streamBrandCheckException "cancel")]) w)) /\
  (forall s st,
      streams w !! s = Some st ->
      readerInStore w st = true ->
      exists p w', cancel (VReadableStream s) reason w = (Normal p, w')).
Proof.
  split; [| split].
  - intros s st Hs Hr. unfold cancel, bind.
    rewrite (IsReadableStreamLocked_eq _ _ _ Hs), Hr. reflexivity.
  - intros this H. destruct this; try discriminate; reflexivity.
  - intros s st Hs Hin. unfold cancel, bind.
    rewrite (IsReadableStreamLocked_eq _ _ _ Hs).
    destruct (hasReader st).
    + do 2 eexists. reflexivity.
    + now apply (ReadableStreamCancel_returns w s st).
Qed.

Lemma cancel_on_locked_stream_witness :
  cancel (VReadableStream 7) (VString "x") sampleWorld =
  (Normal 7, withPromises (promises sampleWorld ++ [Rejected cancelLockedError]) sampleWorld) /\
  (exists p w', cancel (VReadableStream 9) (VString "x") sampleWorld = (Normal p, w')).
Proof.
  destruct (cancel_on_locked_stream sampleWorld (VString "x")) as (Hlocked & _ & Hreturns).
  split.
  - exact (Hlocked 7 (sampleStream (Some 3)) eq_refl eq_refl).
  - exact (Hreturns 9 (sampleStream None) eq_refl eq_refl).
Defined.

(** X12.  [ReadableStreamCancel] on a readable stream whose default reader
    has pending read requests: the call is followed by the resolution of each
    request, oldest first, with [{ value: undefined, done: true }], then by
    the resolution of the closed promise, and only then by the call of the
    cancel steps of the controller.  The requests and the closed promise end
    up fulfilled, the queue of requests is empty, the stream is closed and
    disturbed, and the returned promise is pending until the cancel steps
    settle theirs. *)
Theorem ReadableStreamCancel_ends_pending_reads
  (w : World) (s : streamRef) (st : ReadableStream) (r : readerRef)
  (closedPromise : promise) (readRequests : list ReadRequest) (forAuthorCode : bool)
  (reason : JSValue) :
  let rd := ReadableStreamDefaultReader s closedPromise readRequests forAuthorCode in
  let endOfSequence := VReadResult VUndefined true forAuthorCode in
  streams w !! s = Some st ->
  _state st = readable ->
  _reader st = Some r ->
  readers w !! r = Some rd ->
  readerUnsettled w rd = true ->
  exists q w',
    ReadableStreamCancel s reason w = (Normal q, w') /\
    trace w' = trace w
               ++ [EvReadableStreamCancel s reason]
               ++ map (fun rq => EvResolve (readRequestPromise rq) endOfSequence) readRequests
               ++ [EvResolve closedPromise VUndefined; EvCancelSteps s reason] /\
    Forall (fun rq => promiseState w' (readRequestPromise rq) = SFulfilled endOfSequence)
      readRequests /\
    promiseState w' closedPromise = SFulfilled VUndefined /\
    readers w' !! r = Some (ReadableStreamDefaultReader s closedPromise [] forAuthorCode) /\
    streams w' !! s = Some (set_state closed (set_disturbed true st)) /\
    promiseState w' q = SPending.
Proof.
  intros rd eos Hs Hst Hr Hrd Hun.
  apply readerUnsettled_spec in Hun as (Hreq & Hcp & Hnotin). simpl in Hreq, Hcp, Hnotin.
  rewrite (ReadableStreamCancel_unfold _ _ _ _ Hs).
  set (w0 := withStreams _ _).
  assert (Hs0 : streams w0 !! s = Some (set_disturbed true st))
    by (subst w0; mcbn; apply lookup_insert_eq).
  unfold bind at 1. rewrite (getStream_eq _ _ _ Hs0). mcbn. rewrite Hst. mcbn.
  unfold bind at 1.
  rewrite (ReadableStreamClose_default w0 s (set_disturbed true st) r s closedPromise
             readRequests forAuthorCode Hs0 Hst Hr Hrd).
  unfold CancelSteps, logEvent, newPromise, transformPromiseWith, allocPromise, bind.
  mcbn. do 2 eexists. split; [reflexivity |]. subst w0. mcbn. fold eos.
  set (h := settleCell closedPromise (Fulfilled VUndefined)
              (settleAll (map readRequestPromise readRequests) (Fulfilled eos) (promises w))).
  assert (Hlen : length h = length (promises w))
    by (subst h; now rewrite settleCell_length, settleAll_length).
  assert (Hcell : forall rq, In rq readRequests ->
            h !! readRequestPromise rq = Some (Fulfilled eos)).
  { intros rq Hin. subst h.
    assert (H1 : settleAll (map readRequestPromise readRequests) (Fulfilled eos) (promises w)
                 !! readRequestPromise rq = Some (Fulfilled eos)).
    { apply settleAll_pending; [now apply in_map | apply Hreq; now apply in_map]. }
    rewrite settleCell_settled; [exact H1 | rewrite H1; discriminate]. }
  assert (Hclosed : h !! closedPromise = Some (Fulfilled VUndefined)).
  { subst h. apply settleCell_pending. now rewrite settleAll_notin. }
  assert (Hext : forall p c, h !! p = Some c ->
            ((h ++ [Pending]) ++ [ThenOf (length h) noop]) !! p = Some c).
  { intros p c H. rewrite <- app_assoc. now apply lookup_app_l_Some. }
  split; [| split; [| split; [| split; [| split]]]].
  - rewrite <- !app_assoc. reflexivity.
  - apply Forall_forall. intros rq Hin. apply promiseState_fulfilled. mcbn.
    apply Hext, Hcell. now apply list_elem_of_In.
  - apply promiseState_fulfilled. mcbn. now apply Hext.
  - apply lookup_insert_eq.
  - rewrite insert_insert_eq. apply lookup_insert_eq.
  - unfold promiseState. mcbn.
    assert (Hq : ((h ++ [Pending]) ++ [ThenOf (length h) noop]) !! length (h ++ [Pending])
                 = Some (ThenOf (length h) noop)) by apply lookup_alloc.
    assert (Hp : ((h ++ [Pending]) ++ [ThenOf (length h) noop]) !! length h = Some Pending).
    { rewrite lookup_app_l by (rewrite length_app; simpl; lia). apply lookup_alloc. }
    cbn [promiseStateAux]. rewrite Hq.
    rewrite !length_app. cbn [length]. 
    replace (length h + 1 + 1) with (S (S (length h))) by lia.
    cbn [promiseStateAux]. now rewrite Hp.
Qed.

Lemma ReadableStreamCancel_ends_pending_reads_witness :
  exists q w',
    ReadableStreamCancel 7 (VString "x") sampleWorld = (Normal q, w') /\
    trace w' = [EvReadableStreamCancel 7 (VString "x");
                EvResolve 1 (VReadResult VUndefined true true);
                EvResolve 2 (VReadResult VUndefined true true);
                EvResolve 0 VUndefined;
                EvCancelSteps 7 (VString "x")] /\
    promiseState w' 0 = SFulfilled VUndefined.
Proof.
  destruct (ReadableStreamCancel_ends_pending_reads sampleWorld 7 (sampleStream (Some 3)) 3 0
              [{| readRequestPromise := 1 |}; {| readRequestPromise := 2 |}] true (VString "x")
              eq_refl eq_refl eq_refl eq_refl eq_refl)
    as (q & w' & Hrun & Htrace & _ & Hclosed & _).
  exists q, w'. split; [exact Hrun |]. split; [exact Htrace | exact Hclosed].
Defined.

(** X13.  [ReadableStreamClose] on a stream locked by a zero-copy reader
    resolves the closed promise of the reader and nothing else: the
    read-into requests stay in the queue of the reader and their promises stay
    pending. *)
Theorem ReadableStreamClose_leaves_read_into_requests
  (w : World) (s : streamRef) (st : ReadableStream) (r : readerRef)
  (owner : streamRef) (closedPromise : promise) (readIntoRequests : list ReadIntoRequest) :
  let rd := ReadableStreamBYOBReader owner closedPromise readIntoRequests in
  streams w !! s = Some st ->
  _state st = readable ->
  _reader st = Some r ->
  readers w !! r = Some rd ->
  readerUnsettled w rd = true ->
  exists w',
    ReadableStreamClose s w = (Normal tt, w') /\
    streams w' !! s = Some (set_state closed st) /\
    trace w' = trace w ++ [EvResolve closedPromise VUndefined] /\
    readers w' !! r = Some rd /\
    Forall (fun rq => promiseState w' (readIntoRequestPromise rq) = SPending)
      readIntoRequests /\
    promiseState w' closedPromise = SFulfilled VUndefined.
Proof.
  intros rd Hs Hst Hr Hrd Hun.
  apply readerUnsettled_spec in Hun as (Hreq & Hcp & Hnotin). simpl in Hreq, Hcp, Hnotin.
  eexists. split; [exact (ReadableStreamClose_byob _ _ _ _ _ _ _ Hs Hst Hr Hrd) |].
  mcbn. split; [apply lookup_insert_eq |]. split; [reflexivity |]. split; [exact Hrd |].
  split.
  - apply Forall_forall. intros rq Hin. apply list_elem_of_In in Hin.
    assert (Hp : promises w !! readIntoRequestPromise rq = Some Pending)
      by (apply Hreq; now apply in_map).
    assert (Hne : closedPromise <> readIntoRequestPromise rq).
    { intros E.
      assert (Hex : existsb (Nat.eqb closedPromise) (map readIntoRequestPromise readIntoRequests)
                    = true).
      { apply existsb_exists. exists (readIntoRequestPromise rq). split.
        - now apply in_map.
        - now apply Nat.eqb_eq. }
      congruence. }
    unfold promiseState. mcbn. cbn [promiseStateAux].
    rewrite settleCell_length, settleCell_other by exact Hne. now rewrite Hp.
  - apply promiseState_fulfilled. mcbn. now apply settleCell_pending.
Qed.

Lemma ReadableStreamClose_leaves_read_into_requests_witness :
  exists w',
    ReadableStreamClose 8 sampleWorld = (Normal tt, w') /\
    readers w' !! 4 = Some sampleBYOBReader /\
    promiseState w' 6 = SPending /\
    promiseState w' 5 = SFulfilled VUndefined.
Proof.
  destruct (ReadableStreamClose_leaves_read_into_requests sampleWorld 8 (sampleStream (Some 4))
              4 8 5 [{| readIntoRequestPromise := 6 |}] eq_refl eq_refl eq_refl eq_refl eq_refl)
    as (w' & Hrun & _ & _ & Hreader & Hpending & Hclosed).
  exists w'. split; [exact Hrun |]. split; [exact Hreader |].
  split; [| exact Hclosed]. now inversion Hpending.
Defined.



(** X15.  Options that cannot be read, or whose signal is not an abort
    signal, are reported before the locks are looked at: whatever the store
    holds, [pipeThrough] throws a TypeError and [pipeTo] returns a new promise
    rejected with a TypeError, and the store is otherwise unchanged.  When
    the options cannot be read, both methods report the error of the
    reading. *)
Theorem pipe_arguments_are_checked_before_locks
  (w : World) (s : streamRef) (d : writableRef) (transform : ReadableWritablePair)
  (options : OptionsArgument) :
  IsReadableStream (pair_readable transform) = true ->
  pair_writable transform = VWritableStream d ->
  validOptions options = false ->
  exists e1 e2,
    pipeThrough (VReadableStream s) transform options w = (Throw e1, w) /\
    pipeTo (VReadableStream s) (VWritableStream d) options w =
    (Normal (length (promises w)), withPromises (promises w ++ [Rejected e2]) w) /\
    errorNameOf e1 = Some TypeError /\
    errorNameOf e2 = Some TypeError /\
    (forall e, destructure options = Throw e -> e1 = e /\ e2 = e).
Proof.
  intros Hreadable Hwritable Hvalid.
  unfold pipeThrough, pipeTo. rewrite Hreadable, Hwritable. cbn [negb].
  unfold bind at 1, liftCompletion. unfold validOptions in Hvalid.
  destruct (destructure options) as [o|e] eqn:Ho.
  - assert (Hsig : negb (isUndefined (signal o)) && negb (isAbortSignal (signal o)) = true).
    { apply orb_false_iff in Hvalid as [-> ->]. reflexivity. }
    rewrite Hsig. do 2 eexists. split; [reflexivity |]. split; [reflexivity |].
    split; [reflexivity |]. split; [reflexivity |]. discriminate.
  - exists e, e. split; [reflexivity |]. split; [reflexivity |].
    destruct options; try discriminate. injection Ho as <-.
    split; [reflexivity |]. split; [reflexivity |]. intros e' E. injection E as <-. auto.
Qed.

Lemma pipe_arguments_are_checked_before_locks_witness :
  exists e,
    pipeThrough (VReadableStream 7)
      {| pair_readable := VReadableStream 10; pair_writable := VWritableStream 1 |}
      OptionsNull sampleWorld = (Throw e, sampleWorld) /\
    pipeTo (VReadableStream 7) (VWritableStream 1) OptionsNull sampleWorld =
    (Normal 7, withPromises (promises sampleWorld ++ [Rejected e]) sampleWorld) /\
    errorNameOf e = Some TypeError.
Proof.
  destruct (pipe_arguments_are_checked_before_locks sampleWorld 7 1
              {| pair_readable := VReadableStream 10; pair_writable := VWritableStream 1 |}
              OptionsNull eq_refl eq_refl eq_refl)
    as (e1 & e2 & Hthrough & Hto & Hname & _ & Hsame).
  destruct (Hsame _ eq_refl) as [-> ->].
  eexists. split; [exact Hthrough |]. split; [exact Hto | exact Hname].
Defined.



(** ** The teeing algorithm: what reaches the branches *)

Lemma extends_refl allowed tr : extends allowed tr tr.
Proof. exists []. split; [now rewrite app_nil_r | reflexivity]. Qed.

Lemma extends_stable allowed tr0 ev :
  allowed ev = true -> stable (extends allowed tr0) ev.
Proof.
  intros Hev tr (log & -> & Hlog). exists (log ++ [ev]). split.
  - now rewrite app_assoc.
  - rewrite forallb_app, Hlog. simpl. now rewrite Hev.
Qed.

Ltac log_prim :=
  first
    [ apply onTrace_updateStream | apply onTrace_setReader | apply onTrace_allocPromise
    | apply onTrace_InitializeReadableStream
    | apply onTrace_logEvent; apply extends_stable; reflexivity
    | apply onTrace_resolvePromise; apply extends_stable; reflexivity
    | apply onTrace_rejectPromise; apply extends_stable; reflexivity
    | solve [auto with pres] ].

Lemma log_ReadableStreamClose tr0 s :
  preserves (onTrace (extends isSettleEvent tr0)) (ReadableStreamClose s).
Proof.
  unfold ReadableStreamClose, defaultReaderClosedPromiseResolve, ReadRequest_resolve.
  repeat first [pres_step | log_prim].
Qed.

Lemma log_ReadableStreamError tr0 s e :
  preserves (onTrace (extends isSettleEvent tr0)) (ReadableStreamError s e).
Proof.
  unfold ReadableStreamError, defaultReaderClosedPromiseReject, ReadRequest_reject,
    ReadIntoRequest_reject.
  repeat first [pres_step | log_prim].
Qed.

Lemma extends_weaken (allowed allowed' : Event -> bool) tr0 tr :
  (forall ev, allowed ev = true -> allowed' ev = true) ->
  extends allowed tr0 tr -> extends allowed' tr0 tr.
Proof.
  intros Himp (log & -> & Hlog). exists log. split; [reflexivity |].
  rewrite forallb_forall in *. auto.
Qed.

Lemma extends_trans allowed tr0 tr1 tr2 :
  extends allowed tr0 tr1 -> extends allowed tr1 tr2 -> extends allowed tr0 tr2.
Proof.
  intros (l1 & -> & H1) (l2 & -> & H2). exists (l1 ++ l2). split.
  - now rewrite app_assoc.
  - now rewrite forallb_app, H1, H2.
Qed.

Lemma log_ReadableStreamCancel tr0 s reason :
  preserves (onTrace (extends (fun e => isCancelCall e || isSettleEvent e) tr0))
    (ReadableStreamCancel s reason).
Proof.
  unfold ReadableStreamCancel, promiseResolvedWith, promiseRejectedWith, CancelSteps,
    newPromise, transformPromiseWith.
  repeat first
    [ pres_step | log_prim
    | intros w H; apply (extends_trans _ _ (trace w)); [exact H |];
      apply (extends_weaken isSettleEvent); [intros ev ->; apply orb_true_r |];
      apply (log_ReadableStreamClose (trace w) s); apply extends_refl ].
Qed.

(** A read issues at most one call of the pull steps. *)
Lemma ReadableStreamDefaultReaderRead_log r w :
  exists log,
    trace (snd (ReadableStreamDefaultReaderRead r w)) = trace w ++ log /\
    (log = [] \/ exists s, log = [EvPullSteps s]).
Proof.
  unfold ReadableStreamDefaultReaderRead, updateStream, PullSteps, promiseResolvedWith,
    promiseRejectedWith, newPromise, allocPromise, logEvent, bind, getReader, getStream.
  destruct (readers w !! r) as [rd|]; [| exists []; rewrite app_nil_r; auto].
  destruct (streams w !! ownerOf rd) as [st|]; [| exists []; rewrite app_nil_r; auto].
  mcbn. rewrite lookup_insert_eq. mcbn.
  destruct (_state st); mcbn.
  - exists [EvPullSteps (ownerOf rd)]. split; [reflexivity |]. right. now exists (ownerOf rd).
  - exists []. rewrite app_nil_r. auto.
  - exists []. rewrite app_nil_r. auto.
Qed.

(** ** The variables that each algorithm of the tee writes *)

Section TeeKeeps.
Variable P : TeeState -> Prop.

Ltac keep_prim :=
  first
    [ apply (preserves_liftW_fst P)
    | apply preserves_getTee
    | apply (preserves_updateTee_fst P); intros ? ?; auto
    | apply preserves_asValue
    | apply preserves_asUndefined ].

Lemma keeps_readFulfilled result :
  (forall t v, P t -> P (set_reading v t)) ->
  preserves (fun tw : TeeWorld => P (fst tw)) (readFulfilled result).
Proof. intros H. unfold readFulfilled. repeat first [pres_step | keep_prim]. Qed.

Lemma keeps_pullAlgorithm :
  (forall t v, P t -> P (set_reading v t)) ->
  (forall t l, P t -> P (set_readReactions l t)) ->
  preserves (fun tw : TeeWorld => P (fst tw)) pullAlgorithm.
Proof. intros H1 H2. unfold pullAlgorithm. repeat first [pres_step | keep_prim]. Qed.

Lemma keeps_cancel1Algorithm x :
  (forall t, P t -> P (set_canceled1 true t)) ->
  (forall t, P t -> P (set_reason1 x t)) ->
  preserves (fun tw : TeeWorld => P (fst tw)) (cancel1Algorithm x).
Proof. intros H1 H2. unfold cancel1Algorithm. repeat first [pres_step | keep_prim]. Qed.

Lemma keeps_cancel2Algorithm y :
  (forall t, P t -> P (set_canceled2 true t)) ->
  (forall t, P t -> P (set_reason2 y t)) ->
  preserves (fun tw : TeeWorld => P (fst tw)) (cancel2Algorithm y).
Proof. intros H1 H2. unfold cancel2Algorithm. repeat first [pres_step | keep_prim]. Qed.

Lemma keeps_readReactionJob p :
  (forall t v, P t -> P (set_reading v t)) ->
  (forall t l, P t -> P (set_readReactions l t)) ->
  preserves (fun tw : TeeWorld => P (fst tw)) (readReactionJob p).
Proof.
  intros H1 H2. unfold readReactionJob.
  apply preserves_bind; [apply preserves_getTee | intros t].
  destruct (existsb (Nat.eqb p) (readReactions t)); [| apply preserves_ret].
  intros tw H. destruct (promiseState (snd tw) p); [exact H | |].
  - refine (preserves_bind (fun tw : TeeWorld => P (fst tw)) _ _ _ _ tw H);
      [keep_prim | intros _; now apply keeps_readFulfilled].
  - refine (preserves_updateTee_fst P _ _ tw H). auto.
Qed.

Lemma keeps_closedReactionJob :
  (forall t, P t -> P (set_closedReaction false t)) ->
  preserves (fun tw : TeeWorld => P (fst tw)) closedReactionJob.
Proof.
  intros H1. unfold closedReactionJob, closedRejected.
  apply preserves_bind; [apply preserves_getTee | intros t].
  destruct (closedReaction t); [| apply preserves_ret].
  apply preserves_bind; [keep_prim | intros rd].
  intros tw H. destruct (promiseState (snd tw) (closedPromiseOf rd)); [exact H | |].
  - refine (preserves_updateTee_fst P _ _ tw H). auto.
  - refine (preserves_bind (fun tw : TeeWorld => P (fst tw)) _ _ _ _ tw H);
      [keep_prim | intros _; repeat first [pres_step | keep_prim]].
Qed.

Lemma keeps_settlement (ev : TeeEvent) :
  match ev with
  | PromiseResolved _ _ | PromiseRejected _ _ | SourceClosed | SourceErrored _ => True
  | _ => False
  end ->
  preserves (fun tw : TeeWorld => P (fst tw)) (teeStep ev).
Proof.
  destruct ev; intros []; unfold teeStep; repeat first [pres_step | keep_prim].
Qed.
End TeeKeeps.

Lemma teeStepKeeps_refl ev t : teeStepKeeps ev t t.
Proof. unfold teeStepKeeps. repeat split; auto. Qed.

Ltac keeps_closed :=
  unfold teeStepKeeps in *;
  cbn [stream reader branch1 branch2 cancelPromise canceled1 canceled2 reason1 reason2
       reading readReactions closedReaction
       set_reading set_readReactions set_closedReaction set_canceled1 set_canceled2
       set_reason1 set_reason2 isCancel1 isCancel2 isPullCalled isReadReactionJob
       isClosedReactionJob orb] in *;
  intuition (try discriminate; auto).

Lemma teeStep_keeps_from ev t0 :
  preserves (fun tw : TeeWorld => teeStepKeeps ev t0 (fst tw)) (teeStep ev).
Proof.
  destruct ev; cbn [teeStep].
  - apply preserves_asValue, keeps_pullAlgorithm; intros; keeps_closed.
  - apply preserves_asValue, keeps_cancel1Algorithm; intros; keeps_closed.
  - apply preserves_asValue, keeps_cancel2Algorithm; intros; keeps_closed.
  - now apply (keeps_settlement _ (PromiseResolved p v)).
  - now apply (keeps_settlement _ (PromiseRejected p e)).
  - now apply (keeps_settlement _ SourceClosed).
  - now apply (keeps_settlement _ (SourceErrored e)).
  - apply preserves_asUndefined, keeps_readReactionJob; intros; keeps_closed.
  - apply preserves_asUndefined, keeps_closedReactionJob; intros; keeps_closed.
Qed.

Lemma teeStep_keeps ev t w : teeStepKeeps ev t (fst (snd (teeStep ev (t, w)))).
Proof. apply (teeStep_keeps_from ev t (t, w)). apply teeStepKeeps_refl. Qed.

Lemma snd_asUndefined {S} (m : M S unit) s : snd (asUndefined m s) = snd (m s).
Proof. unfold asUndefined, bind, ret. now destruct (m s) as [[a|e] s']. Qed.

Lemma snd_liftW {A} (m : M World A) t w : snd (liftW m (t, w)) = (t, snd (m w)).
Proof. unfold liftW. cbn [fst snd]. now destruct (m w). Qed.

Lemma pullAlgorithm_log t w :
  exists log,
    trace (snd (snd (pullAlgorithm (t, w)))) = trace w ++ log /\
    (log = [] \/ (reading t = false /\ exists s, log = [EvPullSteps s])).
Proof.
  unfold pullAlgorithm. unfold bind at 1, getTee at 1. cbv beta iota. cbn [fst].
  destruct (reading t) eqn:Hreading.
  - exists []. rewrite snd_liftW. cbn [snd]. rewrite app_nil_r. auto.
  - unfold bind at 1, updateTee at 1. cbv beta iota. cbn [fst snd].
    unfold bind at 1, liftW at 1. cbn [fst snd].
    destruct (ReadableStreamDefaultReaderRead_log (reader t) w) as (log & Hlog & Hshape).
    exists log. split.
    + destruct (ReadableStreamDefaultReaderRead (reader t) w) as [[readPromise|e] w1];
        cbn [snd] in *; [| exact Hlog].
      unfold bind at 1, updateTee at 1. cbv beta iota. rewrite snd_liftW. cbn [fst snd].
      exact Hlog.
    + destruct Hshape as [->|Hs]; auto.
Qed.

Lemma log_settle_cancel (log : list Event) :
  forallb isSettleEvent log = true ->
  forallb (fun e => isCancelCall e || isSettleEvent e) log = true.
Proof.
  rewrite !forallb_forall. intros H ev Hin. rewrite (H ev Hin). apply orb_true_r.
Qed.

Lemma cancel1Algorithm_log x t w :
  exists log,
    trace (snd (snd (cancel1Algorithm x (t, w)))) = trace w ++ log /\
    (log = [] \/
     (canceled2 t = true /\ forallb (fun e => isCancelCall e || isSettleEvent e) log = true)).
Proof.
  rewrite cancel1Algorithm_eval. destruct (canceled2 t) eqn:Hc.
  - destruct (log_ReadableStreamCancel (trace w) (stream t)
                (createArrayFromList [x; reason2 t]) w (extends_refl _ _))
      as (log & Hlog & Hall).
    destruct (ReadableStreamCancel (stream t) (createArrayFromList [x; reason2 t]) w)
      as [[r|e] w1]; cbn [snd] in *.
    + exists (log ++ [EvResolve (cancelPromise t) (VPromise r)]). split.
      * unfold resolvePromise. mcbn. rewrite Hlog. now rewrite app_assoc.
      * right. split; [reflexivity |]. now rewrite forallb_app, Hall.
    + exists log. split; [exact Hlog | auto].
  - exists []. cbn [snd]. rewrite app_nil_r. auto.
Qed.

Lemma cancel2Algorithm_log y t w :
  exists log,
    trace (snd (snd (cancel2Algorithm y (t, w)))) = trace w ++ log /\
    (log = [] \/
     (canceled1 t = true /\ forallb (fun e => isCancelCall e || isSettleEvent e) log = true)).
Proof.
  rewrite cancel2Algorithm_eval. destruct (canceled1 t) eqn:Hc.
  - destruct (log_ReadableStreamCancel (trace w) (stream t)
                (createArrayFromList [reason1 t; y]) w (extends_refl _ _))
      as (log & Hlog & Hall).
    destruct (ReadableStreamCancel (stream t) (createArrayFromList [reason1 t; y]) w)
      as [[r|e] w1]; cbn [snd] in *.
    + exists (log ++ [EvResolve (cancelPromise t) (VPromise r)]). split.
      * unfold resolvePromise. mcbn. rewrite Hlog. now rewrite app_assoc.
      * right. split; [reflexivity |]. now rewrite forallb_app, Hall.
    + exists log. split; [exact Hlog | auto].
  - exists []. cbn [snd]. rewrite app_nil_r. auto.
Qed.

(** A result that is not a read result fails the assertions of the handler
    before anything is sent to the branches. *)
Lemma readFulfilled_log result t w :
  exists log,
    trace (snd (snd (readFulfilled result (t, w)))) = trace w ++ log /\
    (log = [] \/
     (exists chunk, log = fanOut t (fun b => EvControllerEnqueue b chunk)) \/
     log = fanOut t EvControllerClose).
Proof.
  destruct result as [| | | | | | | |value done forAuthorCode| | | | |];
    try (exists []; rewrite app_nil_r; split; [reflexivity | auto]).
  rewrite readFulfilled_fanOut. cbn [snd]. mcbn.
  eexists. split; [reflexivity |].
  destruct done; [right; right; reflexivity | right; left; now exists value].
Qed.

Lemma readReactionJob_log p t w :
  exists log,
    trace (snd (snd (readReactionJob p (t, w)))) = trace w ++ log /\
    (log = [] \/
     (In p (readReactions t) /\
      ((exists chunk, log = fanOut t (fun b => EvControllerEnqueue b chunk)) \/
       log = fanOut t EvControllerClose))).
Proof.
  unfold readReactionJob. unfold bind at 1, getTee at 1. cbv beta iota. cbn [fst].
  destruct (existsb (Nat.eqb p) (readReactions t)) eqn:Hin;
    [| exists []; rewrite app_nil_r; auto].
  assert (Hp : In p (readReactions t)).
  { apply existsb_exists in Hin as (q & Hq & E). apply Nat.eqb_eq in E. now subst q. }
  cbn [snd]. destruct (promiseState w p) as [|result|e].
  - exists []. rewrite app_nil_r; auto.
  - unfold bind at 1, updateTee at 1. cbv beta iota. cbn [fst snd].
    destruct (readFulfilled_log result
                (set_readReactions (removeReaction p (readReactions t)) t) w)
      as (log & Hlog & Hshape).
    exists log. split; [exact Hlog |].
    destruct Hshape as [->|Hshape]; [auto | right; split; [exact Hp | exact Hshape]].
  - exists []. cbn. rewrite app_nil_r; auto.
Qed.

Lemma closedReactionJob_eval t w :
  closedReactionJob (t, w) =
  if closedReaction t then
    match readers w !! reader t with
    | Some rd =>
        match promiseState w (closedPromiseOf rd) with
        | SPending => (Normal tt, (t, w))
        | SFulfilled _ => (Normal tt, (set_closedReaction false t, w))
        | SRejected r =>
            (Normal tt,
             (set_closedReaction false t,
              withTrace (trace w ++ [EvControllerError (branch1 t) r;
                                     EvControllerError (branch2 t) r]) w))
        end
    | None => (Throw (VError TypeError "Cannot read properties of undefined"), (t, w))
    end
  else (Normal tt, (t, w)).
Proof.
  unfold closedReactionJob. unfold bind at 1, getTee at 1. cbv beta iota. cbn [fst].
  destruct (closedReaction t); [| reflexivity].
  unfold bind at 1, liftW at 1, getReader. cbn [fst snd].
  destruct (readers w !! reader t) as [rd|]; [| reflexivity].
  cbn [snd]. destruct (promiseState w (closedPromiseOf rd)) as [|v|r]; try reflexivity.
  unfold closedRejected, ReadableStreamDefaultControllerError, logEvent, bind, updateTee,
    getTee, liftW.
  cbn. unfold withTrace. cbn. now rewrite <- app_assoc.
Qed.

Lemma closedReactionJob_log t w :
  exists log,
    trace (snd (snd (closedReactionJob (t, w)))) = trace w ++ log /\
    (log = [] \/
     (closedReaction t = true /\
      exists r, log = [EvControllerError (branch1 t) r; EvControllerError (branch2 t) r])) /\
    (log <> [] -> closedReaction (fst (snd (closedReactionJob (t, w)))) = false).
Proof.
  rewrite closedReactionJob_eval.
  destruct (closedReaction t) eqn:Hc;
    [| exists []; rewrite app_nil_r; repeat split; auto; congruence].
  destruct (readers w !! reader t) as [rd|];
    [| exists []; rewrite app_nil_r; repeat split; auto; congruence].
  destruct (promiseState w (closedPromiseOf rd)) as [|v|r].
  - exists []. rewrite app_nil_r; repeat split; auto; congruence.
  - exists []. cbn. rewrite app_nil_r; repeat split; auto.
  - exists [EvControllerError (branch1 t) r; EvControllerError (branch2 t) r].
    cbn. repeat split; auto. right. split; [reflexivity | now exists r].
Qed.

Lemma teeStep_log ev t w :
  exists log,
    trace (snd (snd (teeStep ev (t, w)))) = trace w ++ log /\ teeStepLog ev t log.
Proof.
  destruct ev; cbn [teeStep teeStepLog].
  - rewrite snd_asValue. apply pullAlgorithm_log.
  - rewrite snd_asValue. apply cancel1Algorithm_log.
  - rewrite snd_asValue. apply cancel2Algorithm_log.
  - unfold bind, getTee, asUndefined, when, liftW, resolvePromise, ret, bind. cbn [fst snd].
    destruct (negb (Nat.eqb p (cancelPromise t))); cbn.
    + exists [EvResolve p v]. auto.
    + exists []. now rewrite app_nil_r.
  - unfold bind, getTee, asUndefined, when, liftW, rejectPromise, ret, bind. cbn [fst snd].
    destruct (negb (Nat.eqb p (cancelPromise t))); cbn.
    + exists [EvReject p e]. auto.
    + exists []. now rewrite app_nil_r.
  - unfold bind at 1, getTee at 1. cbv beta iota. cbn [fst].
    rewrite snd_asUndefined, snd_liftW. cbn [snd].
    apply (log_ReadableStreamClose (trace w) (stream t) w). apply extends_refl.
  - unfold bind at 1, getTee at 1. cbv beta iota. cbn [fst].
    rewrite snd_asUndefined, snd_liftW. cbn [snd].
    apply (log_ReadableStreamError (trace w) (stream t) e w). apply extends_refl.
  - rewrite snd_asUndefined. apply readReactionJob_log.
  - rewrite snd_asUndefined.
    destruct (closedReactionJob_log t w) as (log & H1 & H2 & _). exists log. auto.
Qed.


Lemma pullAlgorithm_reading t w :
  reading (fst (snd (pullAlgorithm (t, w)))) = true /\
  (reading t = true -> fst (snd (pullAlgorithm (t, w))) = t).
Proof.
  remember (pullAlgorithm (t, w)) as res eqn:E.
  unfold pullAlgorithm in E. unfold bind at 1, getTee at 1 in E. cbv beta iota in E.
  cbn [fst] in E.
  destruct (reading t) eqn:Hreading.
  - subst res. rewrite snd_liftW. cbn [fst]. split; [exact Hreading | reflexivity].
  - split; [| discriminate]. subst res.
    unfold bind at 1, updateTee at 1. cbv beta iota. cbn [fst snd].
    apply (preserves_bind (fun tw : TeeWorld => reading (fst tw) = true)).
    + apply (preserves_liftW_fst (fun t => reading t = true)).
    + intros readPromise. apply preserves_bind.
      * apply (preserves_updateTee_fst (fun t => reading t = true)). auto.
      * intros _. apply (preserves_liftW_fst (fun t => reading t = true)).
    + reflexivity.
Qed.

Lemma teeStep_facts ev t w :
  exists log,
    trace (snd (snd (teeStep ev (t, w)))) = trace w ++ log /\
    teeStepFacts ev t (fst (snd (teeStep ev (t, w)))) log.
Proof.
  destruct (teeStep_log ev t w) as (log & Hlog & Hshape).
  destruct ev;
    try (exists log; split; [exact Hlog |]; split; [apply teeStep_keeps |];
         split; [exact Hshape | exact I]).
  - exists log. split; [exact Hlog |]. split; [apply teeStep_keeps |]. split; [exact Hshape |].
    cbn [teeStep]. rewrite snd_asValue. apply pullAlgorithm_reading.
  - exists log. split; [exact Hlog |]. split; [apply teeStep_keeps |]. split; [exact Hshape |].
    intros Hin. cbn [teeStep]. rewrite snd_asUndefined.
    unfold readReactionJob, bind, getTee. cbn [fst]. now rewrite Hin.
  - clear log Hlog Hshape.
    destruct (closedReactionJob_log t w) as (log & Hlog & Hshape & Honce).
    exists log. cbn [teeStep]. rewrite snd_asUndefined.
    split; [exact Hlog |]. split; [| split; [exact Hshape | exact Honce]].
    pose proof (teeStep_keeps ClosedReactionJob t w) as Hk. cbn [teeStep] in Hk.
    now rewrite snd_asUndefined in Hk.
Qed.

(** An invariant of the variables and of the events added so far is an
    invariant of every run. *)
Lemma teeAfter_invariant (J : list TeeEvent -> TeeState -> list Event -> Prop) :
  (forall done ev t t' log log',
      J done t log -> teeStepFacts ev t t' log' -> J (done ++ [ev]) t' (log ++ log')) ->
  forall evs t w,
    J [] t [] ->
    exists log,
      trace (snd (teeAfter evs (t, w))) = trace w ++ log /\
      J evs (fst (teeAfter evs (t, w))) log.
Proof.
  intros Hstep evs t w H0.
  assert (Hgen : forall evs done t1 w1 log0,
             trace w1 = trace w ++ log0 -> J done t1 log0 ->
             exists log,
               trace (snd (teeAfter evs (t1, w1))) = trace w ++ log /\
               J (done ++ evs) (fst (teeAfter evs (t1, w1))) log).
  { clear evs t H0. intros evs. induction evs as [|ev evs IH]; intros done t1 w1 log0 Htr HJ.
    - exists log0. rewrite app_nil_r. auto.
    - rewrite teeAfter_cons.
      destruct (teeStep_facts ev t1 w1) as (log' & Hlog' & Hfacts).
      destruct (snd (teeStep ev (t1, w1))) as [t2 w2] eqn:E. cbn [fst snd] in *.
      destruct (IH (done ++ [ev]) t2 w2 (log0 ++ log')) as (log & Hlog & HJ').
      + rewrite Hlog', Htr. now rewrite app_assoc.
      + now apply (Hstep done ev t1 t2).
      + exists log. split; [exact Hlog |]. now rewrite <- app_assoc in HJ'. }
  destruct (Hgen evs [] t w []) as (log & Hlog & HJ); [now rewrite app_nil_r | exact H0 |].
  exists log. auto.
Qed.

(** ** What reaches the branches *)

Lemma deliveries_app b tr1 tr2 :
  deliveries b (tr1 ++ tr2) = deliveries b tr1 ++ deliveries b tr2.
Proof. apply omap_app. Qed.

Lemma deliveries_none b (f : Event -> bool) log :
  (forall ev, f ev = true ->
              match ev with
              | EvControllerEnqueue _ _ | EvControllerClose _ => False
              | _ => True
              end) ->
  forallb f log = true -> deliveries b log = [].
Proof.
  intros Hf. induction log as [|ev log IH]; [reflexivity |].
  cbn [forallb]. intros H. apply andb_true_iff in H as [Hev H].
  specialize (Hf ev Hev). unfold deliveries in *. cbn [omap].
  destruct ev; try contradiction; cbn; auto.
Qed.

Lemma deliveries_calls b log :
  forallb (fun e => isCancelCall e || isSettleEvent e) log = true -> deliveries b log = [].
Proof. apply deliveries_none. intros ev0 Hev0; destruct ev0; cbn in *; try discriminate; exact I. Qed.

Lemma deliveries_settle b log :
  forallb isSettleEvent log = true -> deliveries b log = [].
Proof. apply deliveries_none. intros ev0 Hev0; destruct ev0; cbn in *; try discriminate; exact I. Qed.

Lemma readsIssued_app tr1 tr2 : readsIssued (tr1 ++ tr2) = readsIssued tr1 + readsIssued tr2.
Proof. unfold readsIssued. now rewrite List.filter_app, length_app. Qed.

Lemma readsIssued_none (f : Event -> bool) log :
  (forall ev, f ev = true -> isPullStepsEvent ev = false) ->
  forallb f log = true -> readsIssued log = 0.
Proof.
  intros Hf. induction log as [|ev log IH]; [reflexivity |].
  cbn [forallb]. intros H. apply andb_true_iff in H as [Hev H].
  unfold readsIssued in *. cbn [List.filter]. rewrite (Hf ev Hev). auto.
Qed.

Lemma readsIssued_calls log :
  forallb (fun e => isCancelCall e || isSettleEvent e) log = true -> readsIssued log = 0.
Proof.
  apply readsIssued_none.
  intros ev0 Hev0; destruct ev0; cbn in *; try discriminate; reflexivity.
Qed.

Lemma readsIssued_settle log : forallb isSettleEvent log = true -> readsIssued log = 0.
Proof.
  apply readsIssued_none.
  intros ev0 Hev0; destruct ev0; cbn in *; try discriminate; reflexivity.
Qed.




Lemma deliveries_fanOut_canceled1 t f :
  canceled1 t = true -> branch1 t <> branch2 t ->
  (forall b, match f b with
             | EvControllerEnqueue b' _ | EvControllerClose b' => b' = b
             | _ => True
             end) ->
  deliveries (branch1 t) (fanOut t f) = [].
Proof.
  intros Hc Hne Hf. unfold fanOut. rewrite Hc. cbn [app].
  destruct (canceled2 t); [reflexivity |].
  unfold deliveries. cbn [omap]. specialize (Hf (branch2 t)).
  assert (E : Nat.eqb (branch2 t) (branch1 t) = false) by (apply Nat.eqb_neq; congruence).
  destruct (f (branch2 t)); try reflexivity; subst; cbn; now rewrite E.
Qed.

Lemma deliveries_fanOut_canceled2 t f :
  canceled2 t = true -> branch1 t <> branch2 t ->
  (forall b, match f b with
             | EvControllerEnqueue b' _ | EvControllerClose b' => b' = b
             | _ => True
             end) ->
  deliveries (branch2 t) (fanOut t f) = [].
Proof.
  intros Hc Hne Hf. unfold fanOut. rewrite Hc. rewrite app_nil_r.
  destruct (canceled1 t); [reflexivity |].
  unfold deliveries. cbn [omap]. specialize (Hf (branch1 t)).
  assert (E : Nat.eqb (branch1 t) (branch2 t) = false) by (apply Nat.eqb_neq; congruence).
  destruct (f (branch1 t)); try reflexivity; subst; cbn; now rewrite E.
Qed.

(** What one step hands to a branch that is canceled: nothing. *)
Lemma teeStepLog_canceled1 ev t log :
  canceled1 t = true -> branch1 t <> branch2 t ->
  teeStepLog ev t log -> deliveries (branch1 t) log = [].
Proof.
  intros Hc Hne. destruct ev; cbn [teeStepLog].
  - intros [->|(_ & s & ->)]; reflexivity.
  - intros [->|(_ & H)]; [reflexivity | now apply deliveries_calls].
  - intros [->|(_ & H)]; [reflexivity | now apply deliveries_calls].
  - apply deliveries_settle.
  - apply deliveries_settle.
  - apply deliveries_settle.
  - apply deliveries_settle.
  - intros [->|(_ & [(chunk & ->)| ->])]; [reflexivity | |];
      apply deliveries_fanOut_canceled1; auto.
  - intros [->|(_ & r & ->)]; reflexivity.
Qed.

Lemma teeStepLog_canceled2 ev t log :
  canceled2 t = true -> branch1 t <> branch2 t ->
  teeStepLog ev t log -> deliveries (branch2 t) log = [].
Proof.
  intros Hc Hne. destruct ev; cbn [teeStepLog].
  - intros [->|(_ & s & ->)]; reflexivity.
  - intros [->|(_ & H)]; [reflexivity | now apply deliveries_calls].
  - intros [->|(_ & H)]; [reflexivity | now apply deliveries_calls].
  - apply deliveries_settle.
  - apply deliveries_settle.
  - apply deliveries_settle.
  - apply deliveries_settle.
  - intros [->|(_ & [(chunk & ->)| ->])]; [reflexivity | |];
      apply deliveries_fanOut_canceled2; auto.
  - intros [->|(_ & r & ->)]; reflexivity.
Qed.

Lemma teeAfter_keeps_branches evs t w :
  stream (fst (teeAfter evs (t, w))) = stream t /\
  branch1 (fst (teeAfter evs (t, w))) = branch1 t /\
  branch2 (fst (teeAfter evs (t, w))) = branch2 t /\
  (canceled1 t = true -> canceled1 (fst (teeAfter evs (t, w))) = true) /\
  (canceled2 t = true -> canceled2 (fst (teeAfter evs (t, w))) = true).
Proof.
  destruct (teeAfter_invariant
              (fun _ t' _ => stream t' = stream t /\ branch1 t' = branch1 t /\
                             branch2 t' = branch2 t /\
                             (canceled1 t = true -> canceled1 t' = true) /\
                             (canceled2 t = true -> canceled2 t' = true))) with
    (evs := evs) (t := t) (w := w) as (log & _ & H); auto.
  intros done ev t1 t2 log log' (H1 & H2 & H3 & H4 & H5) (Hk & _).
  destruct Hk as (K1 & _ & K3 & K4 & _ & _ & _ & K8 & K9 & _).
  repeat split; try congruence; auto.
Qed.

(** X19.  A branch of a tee that is canceled receives nothing more:
    whatever happens afterwards, no chunk is enqueued in its controller and
    its controller is not closed.  This holds from a state in which the
    branch is canceled, and so from the call of its cancel algorithm on. *)
Theorem tee_canceled_branch_receives_nothing (evs : list TeeEvent) (t : TeeState) (w : World) :
  branch1 t <> branch2 t ->
  (canceled1 t = true ->
   deliveries (branch1 t) (trace (snd (teeAfter evs (t, w)))) =
   deliveries (branch1 t) (trace w)) /\
  (canceled2 t = true ->
   deliveries (branch2 t) (trace (snd (teeAfter evs (t, w)))) =
   deliveries (branch2 t) (trace w)) /\
  (forall pre x,
      deliveries (branch1 t) (trace (snd (teeAfter (pre ++ Cancel1Called x :: evs) (t, w)))) =
      deliveries (branch1 t) (trace (snd (teeAfter (pre ++ [Cancel1Called x]) (t, w))))) /\
  (forall pre y,
      deliveries (branch2 t) (trace (snd (teeAfter (pre ++ Cancel2Called y :: evs) (t, w)))) =
      deliveries (branch2 t) (trace (snd (teeAfter (pre ++ [Cancel2Called y]) (t, w))))).
Proof.
  intros Hne.
  assert (H1 : forall t w, branch1 t <> branch2 t -> canceled1 t = true ->
            deliveries (branch1 t) (trace (snd (teeAfter evs (t, w)))) =
            deliveries (branch1 t) (trace w)).
  { clear t w Hne. intros t w Hne Hc.
    destruct (teeAfter_invariant
                (fun _ t' log => canceled1 t' = true /\ branch1 t' = branch1 t /\
                                 branch2 t' = branch2 t /\
                                 deliveries (branch1 t) log = [])) with
      (evs := evs) (t := t) (w := w) as (log & Hlog & _ & _ & _ & Hd); auto.
    - intros done ev t1 t2 log log' (J1 & J2 & J3 & J4) (Hk & Hl & _).
      destruct Hk as (_ & _ & K3 & K4 & _ & _ & _ & K8 & _).
      repeat split; try congruence; auto.
      rewrite deliveries_app, J4. cbn [app]. rewrite <- J2.
      apply (teeStepLog_canceled1 ev t1); auto. congruence.
    - rewrite Hlog, deliveries_app, Hd. apply app_nil_r. }
  assert (H2 : forall t w, branch1 t <> branch2 t -> canceled2 t = true ->
            deliveries (branch2 t) (trace (snd (teeAfter evs (t, w)))) =
            deliveries (branch2 t) (trace w)).
  { clear t w Hne H1. intros t w Hne Hc.
    destruct (teeAfter_invariant
                (fun _ t' log => canceled2 t' = true /\ branch1 t' = branch1 t /\
                                 branch2 t' = branch2 t /\
                                 deliveries (branch2 t) log = [])) with
      (evs := evs) (t := t) (w := w) as (log & Hlog & _ & _ & _ & Hd); auto.
    - intros done ev t1 t2 log log' (J1 & J2 & J3 & J4) (Hk & Hl & _).
      destruct Hk as (_ & _ & K3 & K4 & _ & _ & _ & _ & K9 & _).
      repeat split; try congruence; auto.
      rewrite deliveries_app, J4. cbn [app]. rewrite <- J3.
      apply (teeStepLog_canceled2 ev t1); auto. congruence.
    - rewrite Hlog, deliveries_app, Hd. apply app_nil_r. }
  split; [now apply H1 |]. split; [now apply H2 |]. split.
  - intros pre x.
    replace (pre ++ Cancel1Called x :: evs) with ((pre ++ [Cancel1Called x]) ++ evs)
      by now rewrite <- app_assoc.
    rewrite teeAfter_app.
    destruct (teeAfter_keeps_branches (pre ++ [Cancel1Called x]) t w) as (_ & B1 & B2 & _).
    assert (Hc : canceled1 (fst (teeAfter (pre ++ [Cancel1Called x]) (t, w))) = true).
    { rewrite teeAfter_app, teeAfter_cancel1.
      destruct (teeAfter pre (t, w)) as [t1 w1].
      now destruct (cancel1Algorithm_effect x t1 w1) as [-> _]. }
    destruct (teeAfter (pre ++ [Cancel1Called x]) (t, w)) as [t1 w1]. cbn [fst snd] in *.
    rewrite <- B1. apply H1; congruence.
  - intros pre y.
    replace (pre ++ Cancel2Called y :: evs) with ((pre ++ [Cancel2Called y]) ++ evs)
      by now rewrite <- app_assoc.
    rewrite teeAfter_app.
    destruct (teeAfter_keeps_branches (pre ++ [Cancel2Called y]) t w) as (_ & B1 & B2 & _).
    assert (Hc : canceled2 (fst (teeAfter (pre ++ [Cancel2Called y]) (t, w))) = true).
    { rewrite teeAfter_app, teeAfter_cancel2.
      destruct (teeAfter pre (t, w)) as [t1 w1].
      now destruct (cancel2Algorithm_effect y t1 w1) as [-> _]. }
    destruct (teeAfter (pre ++ [Cancel2Called y]) (t, w)) as [t1 w1]. cbn [fst snd] in *.
    rewrite <- B2. apply H2; congruence.
Qed.

Lemma tee_canceled_branch_receives_nothing_witness :
  deliveries 20
    (trace (snd (teeAfter [PullCalled; PromiseResolved 7 chunkA; ReadReactionJob 7]
                   (set_canceled1 true sampleTee, sampleWorld)))) = [] /\
  deliveries 21
    (trace (snd (teeAfter [PullCalled; PromiseResolved 7 chunkA; ReadReactionJob 7]
                   (set_canceled1 true sampleTee, sampleWorld)))) = [Some (VString "a")].
Proof.
  split; [| reflexivity].
  destruct (tee_canceled_branch_receives_nothing
              [PullCalled; PromiseResolved 7 chunkA; ReadReactionJob 7]
              (set_canceled1 true sampleTee) sampleWorld) as (H1 & _).
  - discriminate.
  - exact (H1 eq_refl).
Defined.

Lemma cancelFree_snoc done ev :
  cancelFree (done ++ [ev]) = cancelFree done && (negb (isCancel1 ev) && negb (isCancel2 ev)).
Proof. unfold cancelFree. rewrite forallb_app. cbn. now rewrite andb_true_r. Qed.

Lemma deliveries_fanOut_both t f :
  canceled1 t = false -> canceled2 t = false ->
  (forall b, match f b with
             | EvControllerEnqueue b' _ | EvControllerClose b' => b' = b
             | _ => False
             end) ->
  (forall b b', match f b, f b' with
                | EvControllerEnqueue _ c, EvControllerEnqueue _ c' => c = c'
                | EvControllerClose _, EvControllerClose _ => True
                | _, _ => False
                end) ->
  deliveries (branch1 t) (fanOut t f) = deliveries (branch2 t) (fanOut t f).
Proof.
  intros H1 H2 Hf Hsame. unfold fanOut. rewrite H1, H2. cbn [app].
  unfold deliveries. cbn [omap list_omap].
  pose proof (Hf (branch1 t)) as F1. pose proof (Hf (branch2 t)) as F2.
  pose proof (Hsame (branch1 t) (branch2 t)) as F3.
  destruct (f (branch1 t)) eqn:E1; try contradiction;
    destruct (f (branch2 t)) eqn:E2; try contradiction; subst;
    rewrite !Nat.eqb_refl;
    destruct (Nat.eqb (branch1 t) (branch2 t)) eqn:E;
    rewrite ?(Nat.eqb_sym (branch2 t) (branch1 t)), ?E; reflexivity.
Qed.

(** X18.  As long as no branch is canceled, the two branches of a tee
    receive the same: the chunks enqueued in the controller of the first
    branch, and its close, are those of the second, in the same order. *)
Theorem tee_branches_receive_the_same (evs : list TeeEvent) (t : TeeState) (w : World) :
  canceled1 t = false ->
  canceled2 t = false ->
  cancelFree evs = true ->
  exists log,
    trace (snd (teeAfter evs (t, w))) = trace w ++ log /\
    deliveries (branch1 t) log = deliveries (branch2 t) log.
Proof.
  intros H1 H2 Hfree.
  destruct (teeAfter_invariant
              (fun done t' log =>
                 cancelFree done = true ->
                 canceled1 t' = false /\ canceled2 t' = false /\
                 branch1 t' = branch1 t /\ branch2 t' = branch2 t /\
                 deliveries (branch1 t) log = deliveries (branch2 t) log)) with
    (evs := evs) (t := t) (w := w) as (log & Hlog & HJ).
  - intros done ev t1 t2 log log' HJ (Hk & Hl & _) Hdone.
    rewrite cancelFree_snoc in Hdone. apply andb_true_iff in Hdone as [Hdone Hev].
    apply andb_true_iff in Hev as [Hev1 Hev2].
    apply negb_true_iff in Hev1. apply negb_true_iff in Hev2.
    destruct (HJ Hdone) as (J1 & J2 & J3 & J4 & J5).
    destruct Hk as (_ & _ & K3 & K4 & _ & K6 & K7 & _).
    destruct (K6 Hev1) as [K6' _]. destruct (K7 Hev2) as [K7' _].
    repeat split; try congruence.
    rewrite !deliveries_app, J5. f_equal. rewrite <- J3, <- J4.
    clear - Hl J1 J2 Hev1 Hev2. destruct ev; try discriminate; cbn [teeStepLog] in Hl.
    + destruct Hl as [->|(_ & s & ->)]; reflexivity.
    + now rewrite !deliveries_settle.
    + now rewrite !deliveries_settle.
    + now rewrite !deliveries_settle.
    + now rewrite !deliveries_settle.
    + destruct Hl as [->|(_ & [(chunk & ->)| ->])]; [reflexivity | |];
        apply deliveries_fanOut_both; auto.
    + destruct Hl as [->|(_ & r & ->)]; reflexivity.
  - intros _. auto.
  - exists log. split; [exact Hlog |]. now apply HJ.
Qed.

Lemma tee_branches_receive_the_same_witness :
  exists log,
    trace (snd (teeAfter [PullCalled; PromiseResolved 7 chunkA; ReadReactionJob 7]
                  (sampleTee, sampleWorld))) = trace sampleWorld ++ log /\
    deliveries 20 log = deliveries 21 log.
Proof.
  exact (tee_branches_receive_the_same
           [PullCalled; PromiseResolved 7 chunkA; ReadReactionJob 7]
           sampleTee sampleWorld eq_refl eq_refl eq_refl).
Defined.


Lemma teeStepLog_stalled ev t log :
  reading t = true -> readReactions t = [] -> teeStepLog ev t log ->
  readsIssued log = 0 /\ forall b, deliveries b log = [].
Proof.
  intros Hr Hq. destruct ev; cbn [teeStepLog].
  - intros [->|(Hf & _)]; [auto | congruence].
  - intros [->|(_ & H)]; [auto |]. split; [now apply readsIssued_calls |].
    intros b. now apply deliveries_calls.
  - intros [->|(_ & H)]; [auto |]. split; [now apply readsIssued_calls |].
    intros b. now apply deliveries_calls.
  - intros H. split; [now apply readsIssued_settle | intros b; now apply deliveries_settle].
  - intros H. split; [now apply readsIssued_settle | intros b; now apply deliveries_settle].
  - intros H. split; [now apply readsIssued_settle | intros b; now apply deliveries_settle].
  - intros H. split; [now apply readsIssued_settle | intros b; now apply deliveries_settle].
  - rewrite Hq. intros [->|([] & _)]. auto.
  - intros [->|(_ & r & ->)]; auto.
Qed.

(** X20.  When the read promise of a tee is rejected, its handler is
    dropped with [reading] still set.  From then on the tee issues no read and
    hands no chunk and no close to either branch, whatever is called. *)
Theorem tee_rejected_read_stalls
  (evs : list TeeEvent) (t : TeeState) (w : World) (p : promise) (e : JSValue) :
  reading t = true ->
  readReactions t = [p] ->
  promiseState w p = SRejected e ->
  teeAfter [ReadReactionJob p] (t, w) = (set_readReactions [] t, w) /\
  exists log,
    trace (snd (teeAfter (ReadReactionJob p :: evs) (t, w))) = trace w ++ log /\
    readsIssued log = 0 /\
    (forall b, deliveries b log = []) /\
    reading (fst (teeAfter (ReadReactionJob p :: evs) (t, w))) = true.
Proof.
  intros Hr Hq Hp.
  assert (Hjob : snd (teeStep (ReadReactionJob p) (t, w)) = (set_readReactions [] t, w)).
  { cbn [teeStep]. rewrite snd_asUndefined.
    unfold readReactionJob, bind, getTee, updateTee. cbn [fst snd].
    rewrite Hq. cbn [existsb]. rewrite Nat.eqb_refl. cbn [orb fst snd]. rewrite Hp.
    cbn [fst snd]. rewrite Hq. unfold removeReaction. cbn [List.filter].
    rewrite Nat.eqb_refl. reflexivity. }
  split.
  - rewrite teeAfter_cons, Hjob. reflexivity.
  - rewrite teeAfter_cons, Hjob.
    destruct (teeAfter_invariant
                (fun _ t' log =>
                   reading t' = true /\ readReactions t' = [] /\
                   readsIssued log = 0 /\ forall b, deliveries b log = [])) with
      (evs := evs) (t := set_readReactions [] t) (w := w) as (log & Hlog & J1 & _ & J3 & J4).
    + intros done ev t1 t2 log log' (J1 & J2 & J3 & J4) (Hk & Hl & Hx).
      destruct (teeStepLog_stalled ev t1 log' J1 J2 Hl) as [L1 L2].
      destruct Hk as (_ & _ & _ & _ & _ & _ & _ & _ & _ & K10 & _).
      assert (Hsame : reading t2 = true /\ readReactions t2 = []).
      { destruct ev; cbn [isPullCalled isReadReactionJob orb] in *;
          try (destruct (K10 eq_refl) as [-> ->]; auto).
        - destruct Hx as [_ Hsame]. now rewrite (Hsame J1).
        - rewrite Hx by (rewrite J2; reflexivity). auto. }
      destruct Hsame as [S1 S2]. repeat split; auto.
      * rewrite readsIssued_app. lia.
      * intros b. now rewrite deliveries_app, J4, L2.
    + cbn. repeat split; auto.
    + exists log. auto.
Qed.

Lemma tee_rejected_read_stalls_witness :
  exists log,
    trace (snd (teeAfter [ReadReactionJob 7; PullCalled; PullCalled]
                  (set_readReactions [7] (set_reading true sampleTee),
                   withPromises (promises sampleWorld ++ [Rejected (VString "boom")])
                     sampleWorld))) = log /\
    readsIssued log = 0.
Proof.
  destruct (tee_rejected_read_stalls [PullCalled; PullCalled]
              (set_readReactions [7] (set_reading true sampleTee))
              (withPromises (promises sampleWorld ++ [Rejected (VString "boom")]) sampleWorld)
              7 (VString "boom") eq_refl eq_refl eq_refl)
    as (_ & log & Hlog & Hreads & _).
  exists log. split; [exact Hlog | exact Hreads].
Defined.

Lemma filter_errors_none (f : Event -> bool) log :
  (forall ev, f ev = true -> isControllerError ev = false) ->
  forallb f log = true -> List.filter isControllerError log = [].
Proof.
  intros Hf. induction log as [|ev log IH]; [reflexivity |].
  cbn [forallb]. intros H. apply andb_true_iff in H as [Hev H].
  cbn [List.filter]. rewrite (Hf ev Hev). auto.
Qed.

Lemma teeStepLog_errors ev t log :
  isClosedReactionJob ev = false -> teeStepLog ev t log ->
  List.filter isControllerError log = [].
Proof.
  intros Hev. destruct ev; try discriminate; cbn [teeStepLog].
  - intros [->|(_ & s & ->)]; reflexivity.
  - intros [->|(_ & H)]; [reflexivity |]. revert H. apply filter_errors_none.
    intros ev0 Hev0; destruct ev0; cbn in *; try discriminate; reflexivity.
  - intros [->|(_ & H)]; [reflexivity |]. revert H. apply filter_errors_none.
    intros ev0 Hev0; destruct ev0; cbn in *; try discriminate; reflexivity.
  - apply filter_errors_none.
    intros ev0 Hev0; destruct ev0; cbn in *; try discriminate; reflexivity.
  - apply filter_errors_none.
    intros ev0 Hev0; destruct ev0; cbn in *; try discriminate; reflexivity.
  - apply filter_errors_none.
    intros ev0 Hev0; destruct ev0; cbn in *; try discriminate; reflexivity.
  - apply filter_errors_none.
    intros ev0 Hev0; destruct ev0; cbn in *; try discriminate; reflexivity.
  - intros [->|(_ & [(chunk & ->)| ->])]; [reflexivity | |];
      unfold fanOut; destruct (canceled1 t), (canceled2 t); reflexivity.
Qed.

(** X21.  When the source of a tee errors, the closed promise of its reader
    is rejected, and the handler of the tee passes the error to the
    controllers of both branches, first branch first, canceled or not.  Over
    every sequence of events this happens at most once: the errors passed to
    the branch controllers are none, or one pair with one cause, after which
    the handler is gone. *)
Theorem tee_source_error_reaches_both_branches :
  (forall (t : TeeState) (w : World) (st : ReadableStream) (rd : ReadableStreamReader)
          (e : JSValue),
      streams w !! stream t = Some st ->
      _state st = readable ->
      _reader st = Some (reader t) ->
      readers w !! reader t = Some rd ->
      readerUnsettled w rd = true ->
      closedReaction t = true ->
      exists w',
        teeAfter [SourceErrored e; ClosedReactionJob] (t, w) = (set_closedReaction false t, w') /\
        trace w' = trace w
                   ++ map (fun p => EvReject p e) (pendingRequestsOf rd)
                   ++ [EvReject (closedPromiseOf rd) e;
                       EvControllerError (branch1 t) e; EvControllerError (branch2 t) e]) /\
  (forall (evs : list TeeEvent) (t : TeeState) (w : World),
      exists log,
        trace (snd (teeAfter evs (t, w))) = trace w ++ log /\
        (List.filter isControllerError log = [] \/
         closedReaction t = true /\
         closedReaction (fst (teeAfter evs (t, w))) = false /\
         exists r, List.filter isControllerError log =
                   [EvControllerError (branch1 t) r; EvControllerError (branch2 t) r])).
Proof.
  split.
  - intros t w st rd e Hs Hst Hr Hrd Hun Hc.
    apply readerUnsettled_spec in Hun as (Hreq & Hcp & Hnotin).
    rewrite teeAfter_cons.
    assert (Hstep : snd (teeStep (SourceErrored e) (t, w)) =
                    (t, snd (ReadableStreamError (stream t) e w))).
    { cbn [teeStep]. unfold bind at 1, getTee at 1. cbv beta iota. cbn [fst].
      now rewrite snd_asUndefined, snd_liftW. }
    rewrite Hstep, teeAfter_cons. unfold teeAfter. cbn [teeRun snd teeStep].
    rewrite snd_asUndefined, closedReactionJob_eval, Hc.
    destruct rd as [owner cp reqs fac | owner cp reqs];
      cbn [closedPromiseOf pendingRequestsOf] in *.
    + rewrite (ReadableStreamError_default _ _ _ _ _ _ _ _ _ Hs Hst Hr Hrd). mcbn.
      rewrite lookup_insert_eq. mcbn.
      rewrite (promiseState_rejected _ _ e)
        by (mcbn; apply settleCell_pending; now rewrite settleAll_notin).
      eexists. split; [reflexivity |]. mcbn.
      rewrite <- !app_assoc. cbn [app]. now rewrite map_map.
    + rewrite (ReadableStreamError_byob _ _ _ _ _ _ _ _ Hs Hst Hr Hrd). mcbn.
      rewrite lookup_insert_eq. mcbn.
      rewrite (promiseState_rejected _ _ e)
        by (mcbn; apply settleCell_pending; now rewrite settleAll_notin).
      eexists. split; [reflexivity |]. mcbn.
      rewrite <- !app_assoc. cbn [app]. now rewrite map_map.
  - intros evs t w.
    destruct (teeAfter_invariant
                (fun _ t' log =>
                   branch1 t' = branch1 t /\ branch2 t' = branch2 t /\
                   (closedReaction t = false -> closedReaction t' = false) /\
                   if closedReaction t' then List.filter isControllerError log = []
                   else List.filter isControllerError log = [] \/
                        closedReaction t = true /\
                        exists r, List.filter isControllerError log =
                                  [EvControllerError (branch1 t) r;
                                   EvControllerError (branch2 t) r])) with
      (evs := evs) (t := t) (w := w) as (log & Hlog & _ & _ & _ & HJ).
    + intros done ev t1 t2 log log' (J1 & J2 & J3 & J4) (Hk & Hl & Hx).
      destruct Hk as (_ & _ & K3 & K4 & _ & _ & _ & _ & _ & _ & K11 & K12).
      split; [congruence |]. split; [congruence |]. split; [auto |].
      rewrite List.filter_app.
      destruct (isClosedReactionJob ev) eqn:Hev.
      * destruct ev; try discriminate. cbn [teeStepLog] in *.
        destruct Hl as [->|(Hc1 & r & ->)].
        -- rewrite app_nil_r. destruct (closedReaction t1) eqn:E1.
           ++ destruct (closedReaction t2); auto.
           ++ now rewrite (K12 eq_refl).
        -- rewrite Hc1 in J4. rewrite J4. rewrite Hx by discriminate.
           right. split.
           ++ destruct (closedReaction t) eqn:E0; [reflexivity |].
              specialize (J3 eq_refl). congruence.
           ++ exists r. cbn. now rewrite J1, J2.
      * rewrite (K11 eq_refl), (teeStepLog_errors ev t1 log' Hev Hl), app_nil_r. exact J4.
    + repeat split; auto. destruct (closedReaction t); auto.
    + exists log. split; [exact Hlog |].
      destruct (closedReaction (fst (teeAfter evs (t, w)))) eqn:E; [now left |].
      destruct HJ as [HJ|(H0 & r & HJ)]; [now left |]. right. repeat split; auto. now exists r.
Qed.

Lemma tee_source_error_reaches_both_branches_witness :
  exists w',
    teeAfter [SourceErrored (VString "boom"); ClosedReactionJob] (sampleTee, sampleWorld) =
    (set_closedReaction false sampleTee, w') /\
    trace w' = [EvReject 1 (VString "boom"); EvReject 2 (VString "boom");
                EvReject 0 (VString "boom");
                EvControllerError 20 (VString "boom"); EvControllerError 21 (VString "boom")].
Proof.
  destruct tee_source_error_reaches_both_branches as (Hreach & _).
  exact (Hreach sampleTee sampleWorld (sampleStream (Some 3)) sampleDefaultReader
           (VString "boom") eq_refl eq_refl eq_refl eq_refl eq_refl eq_refl).
Defined.


Lemma heldApart_same cp w w' :
  promises w' = promises w -> readers w' = readers w -> heldApart cp w -> heldApart cp w'.
Proof. unfold heldApart. intros -> ->. auto. Qed.

Lemma heldApart_alloc cp c : preserves (heldApart cp) (allocPromise c).
Proof.
  intros w [Hp Hr]. split; [| exact Hr]. unfold allocPromise. mcbn.
  now apply lookup_app_l_Some.
Qed.

Lemma heldApart_settle cp p c w :
  p <> cp -> heldApart cp w ->
  heldApart cp (withPromises (settleCell p c (promises w)) w).
Proof.
  intros Hne [Hp Hr]. split; [| exact Hr]. mcbn. now rewrite settleCell_other.
Qed.

Lemma heldApart_settleAll cp ps c w :
  ~ In cp ps -> heldApart cp w ->
  heldApart cp (withPromises (settleAll ps c (promises w)) w).
Proof.
  intros Hnot [Hp Hr]. split; [| exact Hr]. mcbn. rewrite settleAll_notin; [exact Hp |].
  apply not_true_iff_false. intros Hex. apply Hnot.
  apply existsb_exists in Hex as (q & Hq & E). apply Nat.eqb_eq in E. now subst q.
Qed.

(** The store after closing or erroring a stream: promises of the reader of
    the stream are settled, and the reader keeps its closed promise. *)
Lemma heldApart_emptied cp w r rd rd' :
  heldApart cp w ->
  readers w !! r = Some rd ->
  closedPromiseOf rd' = closedPromiseOf rd ->
  pendingRequestsOf rd' = [] ->
  (forall c c', settleCell (closedPromiseOf rd) c
                  (settleAll (pendingRequestsOf rd) c' (promises w)) !! cp = Some Pending) /\
  forall r0 rd0, <[r := rd']> (readers w) !! r0 = Some rd0 ->
                 cp <> closedPromiseOf rd0 /\ ~ In cp (pendingRequestsOf rd0).
Proof.
  intros [Hp Hr] Hrd Hc Hq. destruct (Hr r rd Hrd) as [Hne Hnot]. split.
  - intros c c'. rewrite settleCell_other by congruence.
    rewrite settleAll_notin; [exact Hp |].
    apply not_true_iff_false. intros Hex. apply Hnot.
    apply existsb_exists in Hex as (q & Hq' & E). apply Nat.eqb_eq in E. now subst q.
  - intros r0 rd0 H0. destruct (decide (r = r0)) as [->|Hne0].
    + rewrite lookup_insert_eq in H0. injection H0 as <-. rewrite Hc, Hq. split; auto.
    + rewrite lookup_insert_ne in H0 by exact Hne0. now apply (Hr r0).
Qed.

Lemma heldApart_ReadableStreamClose cp s : preserves (heldApart cp) (ReadableStreamClose s).
Proof.
  intros w H.
  destruct (streams w !! s) as [st|] eqn:Hs.
  2:{ unfold ReadableStreamClose, bind, getStream. now rewrite Hs. }
  destruct (ReadableStreamState_eqb (_state st) readable) eqn:Hst.
  2:{ unfold ReadableStreamClose, bind, assert. rewrite (getStream_eq _ _ _ Hs), Hst.
      exact H. }
  assert (Hst' : _state st = readable) by (destruct (_state st); auto; discriminate).
  destruct (_reader st) as [r|] eqn:Hr.
  2:{ rewrite (ReadableStreamClose_unlocked _ _ _ Hs Hst' Hr). exact H. }
  destruct (readers w !! r) as [rd|] eqn:Hrd.
  2:{ unfold ReadableStreamClose, bind, assert, ret.
      rewrite (getStream_eq _ _ _ Hs), Hst. rewrite (updateStream_eq _ _ _ _ Hs), Hr.
      unfold getReader. mcbn. rewrite Hrd. exact H. }
  destruct rd as [owner c reqs fac | owner c reqs].
  - rewrite (ReadableStreamClose_default _ _ _ _ _ _ _ _ Hs Hst' Hr Hrd). cbn [snd].
    destruct (heldApart_emptied cp w r _ (ReadableStreamDefaultReader owner c [] fac)
                H Hrd eq_refl eq_refl) as [H1 H2].
    split; mcbn; [apply H1 | exact H2].
  - rewrite (ReadableStreamClose_byob _ _ _ _ _ _ _ Hs Hst' Hr Hrd). cbn [snd].
    destruct H as [Hp Hall]. destruct (Hall r _ Hrd) as [Hne _]. cbn in Hne.
    split; mcbn; [| exact Hall]. now rewrite settleCell_other by congruence.
Qed.

Lemma heldApart_ReadableStreamError cp s e : preserves (heldApart cp) (ReadableStreamError s e).
Proof.
  intros w H.
  destruct (streams w !! s) as [st|] eqn:Hs.
  2:{ unfold ReadableStreamError, bind, getStream. now rewrite Hs. }
  destruct (ReadableStreamState_eqb (_state st) readable) eqn:Hst.
  2:{ unfold ReadableStreamError, bind, assert. rewrite (getStream_eq _ _ _ Hs), Hst.
      exact H. }
  assert (Hst' : _state st = readable) by (destruct (_state st); auto; discriminate).
  destruct (_reader st) as [r|] eqn:Hr.
  2:{ rewrite (ReadableStreamError_unlocked _ _ _ _ Hs Hst' Hr). exact H. }
  destruct (readers w !! r) as [rd|] eqn:Hrd.
  2:{ unfold ReadableStreamError, bind, assert, ret.
      rewrite (getStream_eq _ _ _ Hs), Hst. rewrite (updateStream_eq _ _ _ _ Hs).
      erewrite updateStream_eq by (mcbn; apply lookup_insert_eq).
      rewrite Hr. unfold getReader. mcbn. rewrite Hrd. exact H. }
  destruct rd as [owner c reqs fac | owner c reqs].
  - rewrite (ReadableStreamError_default _ _ _ _ _ _ _ _ _ Hs Hst' Hr Hrd). cbn [snd].
    destruct (heldApart_emptied cp w r _ (ReadableStreamDefaultReader owner c [] fac)
                H Hrd eq_refl eq_refl) as [H1 H2].
    split; mcbn; [apply H1 | exact H2].
  - rewrite (ReadableStreamError_byob _ _ _ _ _ _ _ _ Hs Hst' Hr Hrd). cbn [snd].
    destruct (heldApart_emptied cp w r _ (ReadableStreamBYOBReader owner c [])
                H Hrd eq_refl eq_refl) as [H1 H2].
    split; mcbn; [apply H1 | exact H2].
Qed.

Lemma heldApart_frame cp {A} (m : M World A) :
  (forall w, promises (snd (m w)) = promises w /\ readers (snd (m w)) = readers w) ->
  preserves (heldApart cp) m.
Proof. intros Hm w H. destruct (Hm w) as [H1 H2]. now apply (heldApart_same cp w). Qed.

Lemma heldApart_updateStream cp s f : preserves (heldApart cp) (updateStream s f).
Proof.
  apply heldApart_frame. intros w. unfold updateStream, bind, getStream.
  now destruct (streams w !! s).
Qed.

Lemma heldApart_logEvent cp ev : preserves (heldApart cp) (logEvent ev).
Proof. now apply heldApart_frame. Qed.

Lemma heldApart_ReadableStreamDefaultReaderRead cp r :
  preserves (heldApart cp) (ReadableStreamDefaultReaderRead r).
Proof.
  unfold ReadableStreamDefaultReaderRead, promiseResolvedWith, promiseRejectedWith, PullSteps,
    newPromise.
  repeat first [ pres_step | apply heldApart_updateStream | apply heldApart_logEvent
               | apply heldApart_alloc | solve [auto with pres] ].
Qed.

Section CancelPromise.
Variable cp : promise.

Lemma kept_liftW {A} (m : M World A) :
  preserves (heldApart cp) m -> preserves (keptApart cp) (liftW m).
Proof.
  intros Hm [t w] [H1 H2]. unfold liftW. cbn [fst snd] in *.
  specialize (Hm w H2). destruct (m w) as [c w']. split; auto.
Qed.

Lemma kept_updateTee f :
  (forall t, cancelPromise (f t) = cancelPromise t) -> preserves (keptApart cp) (updateTee f).
Proof. intros Hf [t w] [H1 H2]. split; cbn [fst snd updateTee] in *; [now rewrite Hf | auto]. Qed.

Ltac kept_prim :=
  first
    [ apply preserves_getTee
    | apply kept_updateTee; intros ?; reflexivity
    | apply preserves_asValue
    | apply preserves_asUndefined
    | apply kept_liftW;
      first [ apply heldApart_alloc | apply heldApart_logEvent
            | apply heldApart_ReadableStreamDefaultReaderRead
            | apply heldApart_ReadableStreamClose
            | apply heldApart_ReadableStreamError
            | solve [auto with pres] ] ].

Lemma kept_readFulfilled result : preserves (keptApart cp) (readFulfilled result).
Proof.
  unfold readFulfilled, ReadableStreamDefaultControllerClose,
    ReadableStreamDefaultControllerEnqueue.
  repeat first [pres_step | kept_prim].
Qed.

Lemma kept_teeStep ev t w :
  match ev with
  | Cancel1Called _ => canceled2 t = false
  | Cancel2Called _ => canceled1 t = false
  | _ => True
  end ->
  (keptApart cp) (t, w) -> (keptApart cp) (snd (teeStep ev (t, w))).
Proof.
  intros Hev H. destruct ev; cbn [teeStep].
  - revert H. apply preserves_asValue. unfold pullAlgorithm, promiseResolvedWith.
    repeat first [pres_step | kept_prim].
  - rewrite snd_asValue, cancel1Algorithm_eval, Hev. exact H.
  - rewrite snd_asValue, cancel2Algorithm_eval, Hev. exact H.
  - unfold bind at 1, getTee at 1. cbv beta iota. cbn [fst].
    rewrite snd_asUndefined. unfold when.
    destruct (Nat.eqb p (cancelPromise t)) eqn:E; cbn [negb]; [exact H |].
    rewrite snd_liftW. destruct H as [H1 H2]. split; [exact H1 |]. cbn [fst snd] in *.
    apply Nat.eqb_neq in E. unfold resolvePromise. cbn [snd].
    apply (heldApart_same cp (withPromises (settleCell p (resolutionOf v) (promises w)) w));
      try reflexivity.
    apply heldApart_settle; [congruence | exact H2].
  - unfold bind at 1, getTee at 1. cbv beta iota. cbn [fst].
    rewrite snd_asUndefined. unfold when.
    destruct (Nat.eqb p (cancelPromise t)) eqn:E; cbn [negb]; [exact H |].
    rewrite snd_liftW. destruct H as [H1 H2]. split; [exact H1 |]. cbn [fst snd] in *.
    apply Nat.eqb_neq in E. unfold rejectPromise. cbn [snd].
    apply (heldApart_same cp (withPromises (settleCell p (Rejected e) (promises w)) w));
      try reflexivity.
    apply heldApart_settle; [congruence | exact H2].
  - revert H. repeat first [pres_step | kept_prim].
  - revert H. repeat first [pres_step | kept_prim].
  - revert H. apply preserves_asUndefined. unfold readReactionJob.
    apply preserves_bind; [apply preserves_getTee | intros t0].
    destruct (existsb (Nat.eqb p) (readReactions t0)); [| apply preserves_ret].
    intros tw H. destruct (promiseState (snd tw) p); [exact H | |].
    + refine (preserves_bind (keptApart cp) _ _ _ _ tw H); [kept_prim | intros _].
      apply kept_readFulfilled.
    + refine (kept_updateTee _ _ tw H). reflexivity.
  - revert H. apply preserves_asUndefined.
    unfold closedReactionJob, closedRejected, ReadableStreamDefaultControllerError.
    apply preserves_bind; [apply preserves_getTee | intros t0].
    destruct (closedReaction t0); [| apply preserves_ret].
    apply preserves_bind; [kept_prim | intros rd].
    intros tw H. destruct (promiseState (snd tw) (closedPromiseOf rd)); [exact H | |].
    + refine (kept_updateTee _ _ tw H). reflexivity.
    + refine (preserves_bind (keptApart cp) _ _ _ _ tw H); [kept_prim | intros _].
      repeat first [pres_step | kept_prim].
Qed.
End CancelPromise.

(** X22.  The promise that the cancel algorithms of a tee return stays
    pending as long as one of the two branches has not been canceled, whatever
    else happens: pulls, read results, settlements of other promises, close or
    error of the source.  (No reader of the store holds the cancel promise:
    it is made by [ReadableStreamTee].) *)
Theorem tee_cancel_promise_pending_until_both_cancel
  (evs : list TeeEvent) (t : TeeState) (w : World) :
  heldApart (cancelPromise t) w ->
  (canceled2 t = false ->
   forallb (fun ev => negb (isCancel2 ev)) evs = true ->
   promiseState (snd (teeAfter evs (t, w))) (cancelPromise t) = SPending) /\
  (canceled1 t = false ->
   forallb (fun ev => negb (isCancel1 ev)) evs = true ->
   promiseState (snd (teeAfter evs (t, w))) (cancelPromise t) = SPending).
Proof.
  intros H.
  assert (Hpending : forall w', heldApart (cancelPromise t) w' ->
                                promiseState w' (cancelPromise t) = SPending).
  { intros w' [Hp _]. unfold promiseState. cbn [promiseStateAux]. now rewrite Hp. }
  split.
  - intros Hc. revert t w H Hc Hpending.
    induction evs as [|ev evs IH]; intros t w H Hc Hpending Hevs; [now apply Hpending |].
    cbn [forallb] in Hevs. apply andb_true_iff in Hevs as [Hev Hevs].
    apply negb_true_iff in Hev.
    rewrite teeAfter_cons.
    pose proof (teeStep_keeps ev t w) as Hk.
    assert (Hkept : cancelPromise (fst (snd (teeStep ev (t, w)))) = cancelPromise t /\
                    heldApart (cancelPromise t) (snd (snd (teeStep ev (t, w))))).
    { apply (kept_teeStep (cancelPromise t) ev t w); [| split; [reflexivity | exact H]].
      destruct ev; auto. discriminate. }
    destruct (snd (teeStep ev (t, w))) as [t1 w1]. cbn [fst snd] in *.
    destruct Hkept as [Hcp Hheld].
    destruct Hk as (_ & _ & _ & _ & _ & _ & K7 & _). destruct (K7 Hev) as [Hc2 _].
    rewrite <- Hcp.
    apply IH; [rewrite Hcp; exact Hheld | congruence | rewrite Hcp; exact Hpending
              | exact Hevs].
  - intros Hc. revert t w H Hc Hpending.
    induction evs as [|ev evs IH]; intros t w H Hc Hpending Hevs; [now apply Hpending |].
    cbn [forallb] in Hevs. apply andb_true_iff in Hevs as [Hev Hevs].
    apply negb_true_iff in Hev.
    rewrite teeAfter_cons.
    pose proof (teeStep_keeps ev t w) as Hk.
    assert (Hkept : cancelPromise (fst (snd (teeStep ev (t, w)))) = cancelPromise t /\
                    heldApart (cancelPromise t) (snd (snd (teeStep ev (t, w))))).
    { apply (kept_teeStep (cancelPromise t) ev t w); [| split; [reflexivity | exact H]].
      destruct ev; auto. discriminate. }
    destruct (snd (teeStep ev (t, w))) as [t1 w1]. cbn [fst snd] in *.
    destruct Hkept as [Hcp Hheld].
    destruct Hk as (_ & _ & _ & _ & _ & K6 & _). destruct (K6 Hev) as [Hc1 _].
    rewrite <- Hcp.
    apply IH; [rewrite Hcp; exact Hheld | congruence | rewrite Hcp; exact Hpending
              | exact Hevs].
Qed.

Lemma tee_cancel_promise_pending_until_both_cancel_witness :
  promiseState
    (snd (teeAfter [Cancel1Called (VString "x"); SourceClosed; PromiseResolved 4 VNull]
            (sampleTee, sampleWorld))) 4 = SPending.
Proof.
  destruct (tee_cancel_promise_pending_until_both_cancel
              [Cancel1Called (VString "x"); SourceClosed; PromiseResolved 4 VNull]
              sampleTee sampleWorld) as (Hpending & _).
  - split; [reflexivity |]. intros r rd Hrd. unfold sampleWorld in Hrd. cbn [readers] in Hrd.
    apply lookup_insert_Some in Hrd as [[<- <-]|[_ Hrd]].
    + split; [discriminate |]. cbn. intros [E|[E|[]]]; discriminate.
    + apply lookup_singleton_Some in Hrd as [<- <-].
      split; [discriminate |]. cbn. intros [E|[]]; discriminate.
  - exact (Hpending eq_refl eq_refl).
Defined.



